(** * videosystem_concept: thumbnail synthesis, cache and text helpers

    A shallow embedding of the non-GUI core of
    [videosystem_concepts/gui_concept.py] and
    [videosystem_concepts/better_gui_concept.py]: the greedy title wrapper,
    the metadata formatters, the seeded mock catalog, the colour variants of
    a video card and the memoising thumbnail factory. *)

From Stdlib Require Import ZArith NArith List Lia Bool String Ascii SpecFloat
  DecimalString QArith Qround Qminmax.
From stdpp Require Import gmap list.

Local Open Scope Z_scope.

(** ** Python strings

    A Python [str] is a sequence of Unicode code points, and [len] counts
    code points; a string is therefore a list of code points. *)

Definition codepoint := N.
Abbreviation pystr := (list N).

(** ASCII literals of the source, written as Rocq strings. *)
Definition py (s : string) : pystr :=
  List.map N_of_ascii (list_ascii_of_string s).

Definition len {A} (l : list A) : Z := Z.of_nat (length l).

(** [str.isspace] on one code point (the table of [Py_UNICODE_ISSPACE]),
    which is also the separator set of [str.split()] without arguments. *)
Definition isspace (c : codepoint) : bool :=
  ((9 <=? c) && (c <=? 13) || (28 <=? c) && (c <=? 32)
   || (c =? 133) || (c =? 160) || (c =? 5760)
   || (8192 <=? c) && (c <=? 8202)
   || (c =? 8232) || (c =? 8233) || (c =? 8239) || (c =? 8287)
   || (c =? 12288))%N.

(** The line boundaries of [str.splitlines]; every one of them is a space. *)
Definition is_linebreak (c : codepoint) : bool :=
  ((10 <=? c) && (c <=? 13) || (28 <=? c) && (c <=? 30)
   || (c =? 133) || (c =? 8232) || (c =? 8233))%N.

Definition SP : codepoint := 32%N.
Definition NL : codepoint := 10%N.

(** [t.split()]: maximal runs of non-space code points, in order; [cur] is
    the word being scanned. *)
Fixpoint split_from (cur : pystr) (t : pystr) : list pystr :=
  match t with
  | [] => match cur with [] => [] | _ => [cur] end
  | c :: t' =>
      if isspace c
      then match cur with
           | [] => split_from [] t'
           | _ => cur :: split_from [] t'
           end
      else split_from (cur ++ [c]) t'
  end.

Definition split (t : pystr) : list pystr := split_from [] t.

(** [sep.join(parts)] *)
Fixpoint join (sep : pystr) (parts : list pystr) : pystr :=
  match parts with
  | [] => []
  | [x] => x
  | x :: rest => x ++ sep ++ join sep rest
  end.

(** [sum(len(x) for x in buf)] *)
Definition sum_len (buf : list pystr) : Z :=
  fold_left (fun acc x => acc + len x) buf 0.

(** [lines[:2]] *)
Definition first2 {A} (l : list A) : list A := take 2 l.

(** ** The word wrapper ([wrap], local to [make_thumb])

    The loop state is the pair [(lines, buf)]; one iteration is
    [wrap_step]. *)
Definition wrap_step (max_chars : Z) (st : list pystr * list pystr) (w : pystr)
  : list pystr * list pystr :=
  let '(lines, buf) := st in
  if sum_len buf + len buf - 1 + len w >? max_chars
  then (lines ++ [join [SP] buf], [w])
  else (lines, buf ++ [w]).

Definition wrap_lines (t : pystr) (max_chars : Z) : list pystr :=
  let words := split t in
  let '(lines, buf) := fold_left (wrap_step max_chars) words ([], []) in
  match buf with
  | [] => lines
  | _ => lines ++ [join [SP] buf]
  end.

Definition wrap (t : pystr) (max_chars : Z) : pystr :=
  join [NL] (first2 (wrap_lines t max_chars)).

(** Number of line-boundary code points of a string, and its lines as
    [s.split("\n")] gives them. *)
Fixpoint count_linebreaks (s : pystr) : nat :=
  match s with
  | [] => 0%nat
  | c :: s' => ((if is_linebreak c then 1 else 0) + count_linebreaks s')%nat
  end.

Fixpoint lines_from (cur : pystr) (s : pystr) : list pystr :=
  match s with
  | [] => [cur]
  | c :: s' => if (c =? NL)%N then cur :: lines_from [] s'
               else lines_from (cur ++ [c]) s'
  end.

Definition lines_of (s : pystr) : list pystr := lines_from [] s.

(** The wrapper as the specification words it: a greedy fill of the current
    line, a word joining it exactly when the words already on the line, the
    separators between them and the new word fit the budget. *)
Definition fits (max_chars : Z) (line : list pystr) (w : pystr) : bool :=
  fold_right (fun x acc => len x + acc) 0 line + (len line - 1) + len w
  <=? max_chars.

Fixpoint greedy (max_chars : Z) (line : list pystr) (words : list pystr)
  : list (list pystr) :=
  match words with
  | [] => [line]
  | w :: rest =>
      if fits max_chars line w
      then greedy max_chars (line ++ [w]) rest
      else line :: greedy max_chars [w] rest
  end.

Definition greedy_wrap (t : pystr) (max_chars : Z) : pystr :=
  join [NL] (first2 (List.map (join [SP]) (greedy max_chars [] (split t)))).

(** A word without any space code point. *)
Definition no_space (w : pystr) : Prop := Forall (fun c => isspace c = false) w.

(** The lines the loop leaves once its buffer is flushed. *)
Definition flush (st : list pystr * list pystr) : list pystr :=
  match snd st with
  | [] => fst st
  | _ => fst st ++ [join [SP] (snd st)]
  end.

(** ** Exceptions and results

    A call either returns a value or raises; only the exception classes the
    modelled code can meet are listed. *)
Inductive exn :=
  | ValueError
  | OverflowError
  | ZeroDivisionError
  | IndexError.

Inductive result (A : Type) :=
  | Ok (a : A)
  | Raise (e : exn).
Arguments Ok {A} a.
Arguments Raise {A} e.

Definition rbind {A B} (r : result A) (k : A -> result B) : result B :=
  match r with
  | Ok a => k a
  | Raise e => Raise e
  end.

Definition rmap {A B} (f : A -> B) (r : result A) : result B :=
  rbind r (fun a => Ok (f a)).

(** ** Python numbers

    [int] is unbounded ([Z]); [float] is IEEE 754 binary64, taken from the
    standard library's executable specification [SpecFloat] at precision 53
    and maximal exponent 1024 (round to nearest, ties to even). *)
Abbreviation float := spec_float.

Definition fprec : Z := 53.
Definition femax : Z := 1024.

(** An integer as an exact (unrounded) mantissa with exponent 0. *)
Definition exact_int (z : Z) : float :=
  match z with
  | Z0 => S754_zero false
  | Zpos p => S754_finite false p 0
  | Zneg p => S754_finite true p 0
  end.

Definition check_finite (f : float) : result float :=
  match f with
  | S754_infinity _ => Raise OverflowError
  | _ => Ok f
  end.

(** [float(z)]: the nearest double, [OverflowError] beyond the range. *)
Definition float_of_int (z : Z) : result float :=
  check_finite (binary_normalize fprec femax z 0 false).

(** [a / b] on two [int]s: the correctly rounded quotient. *)
Definition int_truediv (a b : Z) : result float :=
  if b =? 0 then Raise ZeroDivisionError
  else check_finite (SFdiv fprec femax (exact_int a) (exact_int b)).

(** A decimal literal [num/den] of the source, e.g. [1.05] is
    [float_lit 105 100]: the double nearest to it. *)
Definition float_lit (num den : Z) : float :=
  SFdiv fprec femax (exact_int num) (exact_int den).

(** [x * y] on [float]s. *)
Definition float_mul (x y : float) : float := SFmul fprec femax x y.

(** [i * y] with [i] an [int] and [y] a [float]. *)
Definition int_mul_float (i : Z) (y : float) : result float :=
  rbind (float_of_int i) (fun x => Ok (float_mul x y)).

(** [int(x)]: truncation toward zero. *)
Definition int_of_float (x : float) : result Z :=
  match x with
  | S754_zero _ => Ok 0
  | S754_finite s m e =>
      let a := if 0 <=? e then Zpos m * 2 ^ e else Zpos m / 2 ^ (- e) in
      Ok (if s then - a else a)
  | S754_infinity _ => Raise OverflowError
  | S754_nan => Raise ValueError
  end.

(** [n / d] rounded to the nearest integer, ties to even ([d > 0]). *)
Definition round_half_even (n d : Z) : Z :=
  let q := n / d in
  match 2 * (n mod d) ?= d with
  | Lt => q
  | Gt => q + 1
  | Eq => if Z.even q then q else q + 1
  end.

(** [str(n)] for an [int]. *)
Definition str_int (n : Z) : pystr :=
  py (DecimalString.NilZero.string_of_int (Z.to_int n)).

(** The number of tenths nearest to the exact value of a finite double:
    the digits [format(x, ".1f")] prints. *)
Definition tenths (m : positive) (e : Z) : Z :=
  if 0 <=? e then 10 * Zpos m * 2 ^ e
  else round_half_even (10 * Zpos m) (2 ^ (- e)).

(** [format(x, ".1f")] *)
Definition format_1f (x : float) : pystr :=
  match x with
  | S754_zero s => (if s then py "-" else []) ++ py "0.0"
  | S754_finite s m e =>
      let n := tenths m e in
      (if s then py "-" else [])
        ++ str_int (n / 10) ++ py "." ++ str_int (n mod 10)
  | S754_infinity s => (if s then py "-" else []) ++ py "inf"
  | S754_nan => py "nan"
  end.

(** [format(n, "02d")]: at least two characters, padded with zeros after
    the sign. *)
Definition format_02d (n : Z) : pystr :=
  if (0 <=? n) && (n <? 10) then py "0" ++ str_int n else str_int n.

(** ** Colour variants of a video card ([VideoCard.__init__])

    The two alternate hover frames tint the accent colour channel by
    channel: [min(255, int(c * 1.05))] and [max(0, int(c * 0.92))]. *)
Abbreviation rgb := (Z * Z * Z)%type.

Definition brighter_channel (c : Z) : result Z :=
  rbind (int_mul_float c (float_lit 105 100)) (fun x =>
  rbind (int_of_float x) (fun i => Ok (Z.min 255 i))).

Definition darker_channel (c : Z) : result Z :=
  rbind (int_mul_float c (float_lit 92 100)) (fun x =>
  rbind (int_of_float x) (fun i => Ok (Z.max 0 i))).

(** [tuple(f(c) for c in color)] on a three-channel colour. *)
Definition map_channels (f : Z -> result Z) (color : rgb) : result rgb :=
  let '(r, g, b) := color in
  rbind (f r) (fun r' => rbind (f g) (fun g' => rbind (f b) (fun b' =>
  Ok (r', g', b')))).

Definition alt1_color : rgb -> result rgb := map_channels brighter_channel.
Definition alt2_color : rgb -> result rgb := map_channels darker_channel.

(** The derivation as the specification words it: multiply by the factor
    [num/den], clamp to [0, 255], floor. *)
Definition brighten_channel (num den c : Z) : Z :=
  let x := (inject_Z c * (num # Z.to_pos den))%Q in
  Qfloor (Qmin (255 # 1) (Qmax (0 # 1) x)).

(** ** The imaging library, up to mode and size

    Pixels are not computed: an image is the term that built it, from which
    its mode and size follow.  Image objects live in a store and are named
    by references, because the factory draws in place through handles that
    alias its images and because the cache hands out the stored object
    itself. *)
Inductive mode := L | RGB | RGBA.


Inductive ink :=
  | InkL (v : Z)
  | InkRGB (c : rgb)
  | InkRGBA (c : rgb) (a : Z).

Inductive font :=
  | TrueType (name : pystr) (px : Z)
  | DefaultFont.

Inductive picture :=
  | New (m : mode) (size : Z * Z) (fill : ink)
  | Convert (p : picture) (m : mode)
  | AlphaComposite (dst src : picture) (dest : Z * Z)
  | Polygon (p : picture) (points : list (Z * Z)) (fill : ink)
  | RoundedRectangle (p : picture) (box : Z * Z * Z * Z) (radius : Z)
      (fill : ink)
  | MultilineText (p : picture) (xy : Z * Z) (text : pystr) (f : font)
      (fill : ink)
  | PutAlpha (p mask : picture)
  | Paste (p src : picture) (xy : Z * Z) (mask : picture)
  | GaussianBlur (p : picture) (radius : Z)
  | Resize (p : picture) (size : Z * Z).

Fixpoint pic_mode (p : picture) : mode :=
  match p with
  | New m _ _ => m
  | Convert _ m => m
  | AlphaComposite dst _ _ => pic_mode dst
  | Polygon q _ _ => pic_mode q
  | RoundedRectangle q _ _ _ => pic_mode q
  | MultilineText q _ _ _ _ => pic_mode q
  | PutAlpha q _ => pic_mode q
  | Paste q _ _ _ => pic_mode q
  | GaussianBlur q _ => pic_mode q
  | Resize q _ => pic_mode q
  end.

Fixpoint pic_size (p : picture) : Z * Z :=
  match p with
  | New _ size _ => size
  | Convert q _ => pic_size q
  | AlphaComposite dst _ _ => pic_size dst
  | Polygon q _ _ => pic_size q
  | RoundedRectangle q _ _ _ => pic_size q
  | MultilineText q _ _ _ _ => pic_size q
  | PutAlpha q _ => pic_size q
  | Paste q _ _ _ => pic_size q
  | GaussianBlur q _ => pic_size q
  | Resize _ size => size
  end.

(** What the platform contributes to text drawing: whether the outline font
    file can be loaded, and the bounding box the library measures for a
    text in a font. *)
Class Platform := {
  truetype_loads : pystr -> bool;
  textbbox : font -> pystr -> Z * Z * Z * Z
}.

Definition mode_eqb (a b : mode) : bool :=
  match a, b with
  | L, L | RGB, RGB | RGBA, RGBA => true
  | _, _ => false
  end.

Definition size_eqb (a b : Z * Z) : bool :=
  (fst a =? fst b) && (snd a =? snd b).

(** Sizes cross into the library as C [int]s. *)
Definition INT_MAX : Z := 2147483647.

(** A cache key: [(text, color, size)]. *)
Abbreviation key := (pystr * rgb * (Z * Z))%type.

(** The interpreter state the factory touches: the image objects, each under
    its identity, the next free identity, and the module-level dictionary
    [ASSET_CACHE], which maps keys to image objects. *)
Record state := {
  heap : gmap nat picture;
  next_id : nat;
  ASSET_CACHE : gmap key nat
}.

Definition initial_state : state :=
  {| heap := ∅; next_id := 0; ASSET_CACHE := ∅ |}.

Definition Py (A : Type) : Type := state -> result A * state.

Definition ret {A} (a : A) : Py A := fun st => (Ok a, st).

Definition raise {A} (e : exn) : Py A := fun st => (Raise e, st).

Definition bind {A B} (m : Py A) (k : A -> Py B) : Py B :=
  fun st =>
    match m st with
    | (Ok a, st') => k a st'
    | (Raise e, st') => (Raise e, st')
    end.

Definition lift {A} (r : result A) : Py A := fun st => (r, st).

Declare Scope py_scope.
Delimit Scope py_scope with py.
Notation "'let*' x := m 'in' k" := (bind m (fun x => k))
  (at level 10, x name, m at level 100, k at level 200) : py_scope.
Notation "'do' m 'then' k" := (bind m (fun _ => k))
  (at level 10, m at level 100, k at level 200) : py_scope.
Local Open Scope py_scope.

(** A fresh image object. *)
Definition alloc (p : picture) : Py nat :=
  fun st =>
    (Ok (next_id st),
     {| heap := <[next_id st := p]> (heap st);
        next_id := S (next_id st);
        ASSET_CACHE := ASSET_CACHE st |}).

(** The object behind a reference. *)
Definition deref (r : nat) : Py picture :=
  fun st =>
    match heap st !! r with
    | Some p => (Ok p, st)
    | None => (Raise ValueError, st)
    end.

(** An in-place change of the object behind a reference. *)
Definition mutate (r : nat) (f : picture -> picture) : Py unit :=
  fun st =>
    match heap st !! r with
    | Some p =>
        (Ok tt,
         {| heap := <[r := f p]> (heap st);
            next_id := next_id st;
            ASSET_CACHE := ASSET_CACHE st |})
    | None => (Raise ValueError, st)
    end.

Definition cache_get (k : key) : Py (option nat) :=
  fun st => (Ok (ASSET_CACHE st !! k), st).

Definition cache_set (k : key) (r : nat) : Py unit :=
  fun st =>
    (Ok tt,
     {| heap := heap st;
        next_id := next_id st;
        ASSET_CACHE := <[k := r]> (ASSET_CACHE st) |}).

(** [Image.new(mode, size, color)]: a negative dimension is refused with
    [ValueError]; the dimensions then cross into the library as C [int]s.
    Memory is taken to suffice: no call of the library fails for want of
    it. *)
Definition Image_new (m : mode) (size : Z * Z) (fill : ink) : Py nat :=
  let '(w, h) := size in
  if (w <? 0) || (h <? 0) then raise ValueError
  else if (INT_MAX <? w) || (INT_MAX <? h) then raise OverflowError
  else alloc (New m size fill).

(** [im.convert(mode)] *)
Definition Image_convert (im : nat) (m : mode) : Py nat :=
  let* p := deref im in alloc (Convert p m).

(** [Image.alpha_composite(im1, im2)]: both RGBA, of one size. *)
Definition Image_alpha_composite (im1 im2 : nat) : Py nat :=
  let* p1 := deref im1 in
  let* p2 := deref im2 in
  if mode_eqb (pic_mode p1) RGBA && mode_eqb (pic_mode p2) RGBA
     && size_eqb (pic_size p1) (pic_size p2)
  then alloc (AlphaComposite p1 p2 (0, 0))
  else raise ValueError.

(** [ImageDraw.Draw(im)]: the handle draws on [im] itself. *)
Definition ImageDraw_Draw (im : nat) : nat := im.

(** [draw.polygon(points, fill=...)] *)
Definition Draw_polygon (draw : nat) (points : list (Z * Z)) (fill : ink)
  : Py unit :=
  mutate draw (fun p => Polygon p points fill).

(** [draw.rounded_rectangle(box, radius=..., fill=...)] *)
Definition Draw_rounded_rectangle (draw : nat) (box : Z * Z * Z * Z)
  (radius : Z) (fill : ink) : Py unit :=
  let '(x0, y0, x1, y1) := box in
  if (x1 <? x0) || (y1 <? y0) then raise ValueError
  else mutate draw (fun p => RoundedRectangle p box radius fill).

(** [draw.multiline_text(xy, text, font=..., fill=...)] *)
Definition Draw_multiline_text (draw : nat) (xy : Z * Z) (text : pystr)
  (f : font) (fill : ink) : Py unit :=
  mutate draw (fun p => MultilineText p xy text f fill).

(** [im.putalpha(mask)]: the mask is an [L] image of the same size. *)
Definition Image_putalpha (im mask : nat) : Py unit :=
  let* p := deref im in
  let* q := deref mask in
  if mode_eqb (pic_mode q) L && size_eqb (pic_size p) (pic_size q)
  then mutate im (fun p => PutAlpha p q)
  else raise ValueError.

(** [im.paste(src, xy, mask)]: the mask has the size of [src]. *)
Definition Image_paste (im src : nat) (xy : Z * Z) (mask : nat) : Py unit :=
  let* s := deref src in
  let* q := deref mask in
  if size_eqb (pic_size s) (pic_size q)
  then mutate im (fun p => Paste p s xy q)
  else raise ValueError.

(** [im.filter(ImageFilter.GaussianBlur(radius))] *)
Definition Image_filter_GaussianBlur (im : nat) (radius : Z) : Py nat :=
  let* p := deref im in alloc (GaussianBlur p radius).

(** The method [im.alpha_composite(src, dest)], in place: both RGBA, the
    destination corner not negative. *)
Definition Image_alpha_composite_at (im src : nat) (dest : Z * Z) : Py unit :=
  let* p := deref im in
  let* s := deref src in
  if (fst dest <? 0) || (snd dest <? 0) then raise ValueError
  else if mode_eqb (pic_mode p) RGBA && mode_eqb (pic_mode s) RGBA
  then mutate im (fun p => AlphaComposite p s dest)
  else raise ValueError.

(** [im.resize(size, Image.LANCZOS)]: both dimensions at least 1. *)
Definition Image_resize (im : nat) (size : Z * Z) : Py nat :=
  let* p := deref im in
  if (INT_MAX <? fst size) || (INT_MAX <? snd size) then raise OverflowError
  else if (fst size <? 1) || (snd size <? 1) then raise ValueError
  else alloc (Resize p size).

(** [im.size] *)
Definition Image_size (im : nat) : Py (Z * Z) :=
  let* p := deref im in ret (pic_size p).

(** The font the factory draws with: the outline font when it loads, else
    the library's built-in one. *)
Definition load_font `{Platform} (name : pystr) (px : Z) : font :=
  if truetype_loads name then TrueType name px else DefaultFont.

(** [int(n * lit)] for an [int] [n] and a float literal. *)
Definition int_scaled (n : Z) (lit : float) : result Z :=
  rbind (int_mul_float n lit) int_of_float.

(** ** The random source

    The catalog draws from a private [random.Random(42)].  Everything it
    uses ([choice], [randint]) goes through [_randbelow]; a source is
    anything that provides it.  A draw that does not complete normally (an
    exception, or a rejection loop that outlasts the modelled rounds) is
    [None]. *)
Class RandomSource (G : Type) := randbelow : Z -> G -> option (Z * G).

Definition Rand (G A : Type) : Type := G -> option (A * G).

Definition rret {G A} (a : A) : Rand G A := fun g => Some (a, g).

Definition rthen {G A B} (m : Rand G A) (k : A -> Rand G B) : Rand G B :=
  fun g =>
    match m g with
    | Some (a, g') => k a g'
    | None => None
    end.

Declare Scope rand_scope.
Delimit Scope rand_scope with rand.
Notation "'sample' x := m 'in' k" := (rthen m (fun x => k))
  (at level 10, x name, m at level 100, k at level 200) : rand_scope.

Section RandomMethods.
Context {G : Type} `{RandomSource G}.
Local Open Scope rand_scope.

(** [Random.choice(seq)] *)
Definition choice {A} (seq : list A) : Rand G A :=
  match seq with
  | [] => fun _ => None
  | _ =>
      sample i := randbelow (len seq) in
      fun g =>
        if i <? 0 then None
        else match seq !! Z.to_nat i with
             | Some x => Some (x, g)
             | None => None
             end
  end.

(** [Random.randint(a, b)], that is [randrange(a, b + 1)]. *)
Definition randint (a b : Z) : Rand G Z :=
  let width := b + 1 - a in
  if width >? 0
  then sample r := randbelow width in rret (a + r)
  else fun _ => None.
End RandomMethods.

(** The Mersenne Twister behind [random.Random]: 624 words of 32 bits and
    the position of the next word. *)
Module MT.

Definition N : nat := 624.
Definition M : nat := 397.
Definition MATRIX_A : Z := 0x9908b0df.
Definition UPPER_MASK : Z := 0x80000000.
Definition LOWER_MASK : Z := 0x7fffffff.

Definition u32 (x : Z) : Z := x mod 2 ^ 32.

Record Random := { mt : list Z; index : nat }.

Definition word (st : list Z) (i : nat) : Z := nth i st 0.

(** [init_genrand(s)] *)
Definition init_genrand (s : Z) : list Z :=
  fold_left
    (fun st mti =>
       let prev := word st (mti - 1) in
       st ++ [u32 (1812433253 * Z.lxor prev (Z.shiftr prev 30)
                   + Z.of_nat mti)])
    (seq 1 (N - 1)) [u32 s].

(** The two mixing loops of [init_by_array]; the loop variables are the
    array [st] and the positions [i] and [j]. *)
Definition mix1 (init_key : list Z) (acc : list Z * nat * nat) (_ : nat)
  : list Z * nat * nat :=
  let '(st, i, j) := acc in
  let prev := word st (i - 1) in
  let v := u32 (Z.lxor (word st i)
                  (u32 (Z.lxor prev (Z.shiftr prev 30) * 1664525))
                + word init_key j + Z.of_nat j) in
  let st := <[i := v]> st in
  let i := S i in
  let j := S j in
  let '(st, i) :=
    if (N <=? i)%nat then (<[0%nat := word st (N - 1)]> st, 1%nat)
    else (st, i) in
  let j := if (length init_key <=? j)%nat then 0%nat else j in
  (st, i, j).

Definition mix2 (acc : list Z * nat) (_ : nat) : list Z * nat :=
  let '(st, i) := acc in
  let prev := word st (i - 1) in
  let v := u32 (Z.lxor (word st i)
                  (u32 (Z.lxor prev (Z.shiftr prev 30) * 1566083941))
                - Z.of_nat i) in
  let st := <[i := v]> st in
  let i := S i in
  if (N <=? i)%nat then (<[0%nat := word st (N - 1)]> st, 1%nat)
  else (st, i).

Definition init_by_array (init_key : list Z) : Random :=
  let st := init_genrand 19650218 in
  let k := Nat.max N (length init_key) in
  let '(st, i, _) := fold_left (mix1 init_key) (seq 0 k) (st, 1%nat, 0%nat) in
  let '(st, _) := fold_left mix2 (seq 0 (N - 1)) (st, i) in
  {| mt := <[0%nat := 0x80000000]> st; index := N |}.

(** The seed as [random_seed] cuts it: the 32-bit words of [abs(seed)],
    least significant first, at least one. *)
Fixpoint key_words (fuel : nat) (n : Z) : list Z :=
  match fuel with
  | O => []
  | S fuel' =>
      if n <? 2 ^ 32 then [n]
      else (n mod 2 ^ 32) :: key_words fuel' (n / 2 ^ 32)
  end.

(** [random.Random(seed)] for an [int] seed. *)
Definition seed (a : Z) : Random :=
  let n := Z.abs a in
  init_by_array (key_words (S (Z.to_nat (Z.log2 n))) n).

(** One pass of the generator over its 624 words. *)
Definition twist_word (st : list Z) (kk : nat) : list Z :=
  let next := if (kk =? N - 1)%nat then 0%nat else S kk in
  let far := if (kk <? N - M)%nat then (kk + M)%nat else (kk - (N - M))%nat in
  let y := Z.lor (Z.land (word st kk) UPPER_MASK)
                 (Z.land (word st next) LOWER_MASK) in
  <[kk := Z.lxor (Z.lxor (word st far) (Z.shiftr y 1))
                 (if Z.odd y then MATRIX_A else 0)]> st.

Definition twist (st : list Z) : list Z := fold_left twist_word (seq 0 N) st.

Definition temper (y : Z) : Z :=
  let y := Z.lxor y (Z.shiftr y 11) in
  let y := Z.lxor y (Z.land (u32 (Z.shiftl y 7)) 0x9d2c5680) in
  let y := Z.lxor y (Z.land (u32 (Z.shiftl y 15)) 0xefc60000) in
  Z.lxor y (Z.shiftr y 18).

(** [genrand_uint32] *)
Definition genrand_uint32 (g : Random) : Z * Random :=
  let '(st, i) :=
    if (N <=? index g)%nat then (twist (mt g), 0%nat) else (mt g, index g) in
  (temper (word st i), {| mt := st; index := S i |}).

(** [getrandbits(k)] for [0 < k]: whole words, least significant first,
    the last one cut to the bits still missing. *)
Fixpoint getrandbits_words (words : nat) (k : Z) (g : Random) : Z * Random :=
  match words with
  | O => (0, g)
  | S words' =>
      let '(r, g) := genrand_uint32 g in
      let r := if k <? 32 then Z.shiftr r (32 - k) else r in
      let '(hi, g) := getrandbits_words words' (k - 32) g in
      (r + 2 ^ 32 * hi, g)
  end.

Definition getrandbits (k : Z) (g : Random) : Z * Random :=
  if k <=? 32
  then let '(r, g) := genrand_uint32 g in (Z.shiftr r (32 - k), g)
  else getrandbits_words (Z.to_nat ((k - 1) / 32 + 1)) k g.

(** [n.bit_length()] for [0 < n]. *)
Definition bit_length (n : Z) : Z := Z.log2 n + 1.

(** The rejection loop of [_randbelow_with_getrandbits], for at most
    [rounds] further draws. *)
Fixpoint reject (rounds : nat) (n k r : Z) (g : Random) : option (Z * Random) :=
  if r <? n then Some (r, g)
  else match rounds with
       | O => None
       | S rounds' =>
           let '(r, g) := getrandbits k g in reject rounds' n k r g
       end.

Definition rounds : nat := 64.

Definition _randbelow (n : Z) (g : Random) : option (Z * Random) :=
  if n <=? 0 then None
  else
    let k := bit_length n in
    let '(r, g) := getrandbits k g in
    reject rounds n k r g.

End MT.

#[export] Instance mersenne_source : RandomSource MT.Random := MT._randbelow.

(** A source that records what it is asked: it appends the bound to its log
    and answers with the number of earlier requests, reduced below the
    bound, so that a value tells which draw produced it. *)
#[export] Instance request_log : RandomSource (list Z) :=
  fun n log => Some (len log mod n, log ++ [n]).

(** ** The mock catalog: shared data *)

(** The [Video] dataclass. *)
Record Video := {
  id : pystr;
  title : pystr;
  channel : pystr;
  views : Z;
  age_days : Z;
  duration : pystr;
  color : rgb
}.

Definition _palette : list rgb :=
  [ (220, 20, 60); (65, 105, 225); (255, 140, 0); (34, 139, 34);
    (123, 104, 238); (255, 99, 71); (0, 191, 255) ].

Definition _channels : list pystr :=
  List.map py ["CodeGarden"; "UI Nerd"; "Midnight Dev"; "PixelSmith";
               "The Pythonist"; "DesignSense"]%string.

(** The title pool; [dash] is what the file has between the two halves of
    the third and the tenth title. *)
Definition titles_with (dash : pystr) : list pystr :=
  [ py "How to Build a Python GUI Like YouTube";
    py "10 CustomTkinter Tips You Need";
    py "Lofi Beats to Code/Study To " ++ dash ++ py " 3 Hours";
    py "The Secret History of GUIs";
    py "I Recreated YouTube in 200 Lines (Kinda)";
    py "Designing Dark Mode the Right Way";
    py "Keyboard Shortcuts that Change Everything";
    py "Productivity Myths Busted!";
    py "Learn PIL in 15 Minutes";
    py "My Desk Setup 2025 " ++ dash ++ py " Minimal & Clean" ].

(** The module-level names the catalog code binds. *)
Record globals := { _random : MT.Random; MOCK_VIDEOS : list Video }.

(** [range(n)] *)
Definition range (n : nat) : list Z := List.map Z.of_nat (seq 0 n).

Section VideoDraw.
Context {G : Type} `{RandomSource G}.
Local Open Scope rand_scope.

(** One [Video(...)] call: the keyword arguments are evaluated left to
    right, and so are the three fields of the duration f-string. *)
Definition draw_video (_titles : list pystr) (i : Z) : Rand G Video :=
  sample title := choice _titles in
  sample channel := choice _channels in
  sample views := randint 1000 2500000 in
  sample age_days := randint 0 900 in
  sample hh := randint 1 2 in
  sample mm := randint 0 59 in
  sample ss := randint 0 59 in
  sample color := choice _palette in
  rret {| id := py "vid_" ++ str_int i;
          title := title;
          channel := channel;
          views := views;
          age_days := age_days;
          duration := str_int hh ++ py ":" ++ format_02d mm ++ py ":"
                      ++ format_02d ss;
          color := color |}.
End VideoDraw.

(** The bounds one record asks of the source, in order: title, channel,
    views, age, hour, minute, second, colour. *)
Definition record_requests : list Z := [10; 6; 2499001; 901; 2; 60; 60; 7].

(** ** The views: what both files share

    The widget toolkit is left out: of a view only what it asks of the
    factory and of the formatters is kept, and what it decides itself (which
    videos, in which cell). *)

(** [a == b] on strings. *)
Fixpoint str_eqb (a b : pystr) : bool :=
  match a, b with
  | [], [] => true
  | c :: a', d :: b' => (c =? d)%N && str_eqb a' b'
  | _, _ => false
  end.

(** [s.startswith(q)] and [q in s]. *)
Fixpoint startswith (s q : pystr) : bool :=
  match q, s with
  | [], _ => true
  | c :: q', d :: s' => (c =? d)%N && startswith s' q'
  | _ :: _, [] => false
  end.

Fixpoint contains (s q : pystr) : bool :=
  startswith s q
  || match s with
     | [] => false
     | _ :: s' => contains s' q
     end.

(** [s.strip()]: [s] without the spaces at its two ends. *)
Fixpoint lstrip (s : pystr) : pystr :=
  match s with
  | [] => []
  | c :: s' => if isspace c then lstrip s' else s
  end.

Definition strip (s : pystr) : pystr := rev (lstrip (rev (lstrip s))).

(** [sorted(videos, key=lambda v: v.views, reverse=True)]: by falling
    views, videos of equal views in their original order. *)
Fixpoint insert_by_views (v : Video) (sorted : list Video) : list Video :=
  match sorted with
  | [] => [v]
  | x :: rest =>
      if views x <=? views v then v :: sorted
      else x :: insert_by_views v rest
  end.

Definition sorted_by_views (videos : list Video) : list Video :=
  fold_right insert_by_views [] videos.

(** The videos [App._on_nav] hands to [populate] under a key, [None] for a
    key without a branch; the branches are the same in both files. *)
Definition nav_selection (key : pystr) (videos : list Video)
  : option (list Video) :=
  if str_eqb key (py "home") then Some videos
  else if str_eqb key (py "subs") then Some (take 12 videos)
  else if str_eqb key (py "library") then Some (rev videos)
  else if str_eqb key (py "history") then Some (take 12 (drop 6 videos))
  else if str_eqb key (py "liked") then Some (take 12 (sorted_by_views videos))
  else None.

(** The keys the navigation offers: the six of the full side bar (both
    files) and the five of the collapsed one (gui_concept.py). *)
Definition nav_keys : list pystr :=
  List.map py ["home"; "scenes"; "subs"; "library"; "history"; "liked"]%string.

Definition collapsed_nav_keys : list pystr :=
  List.map py ["home"; "subs"; "library"; "history"; "liked"]%string.

(** The timers of the toolkit's event loop: [after] registers a callback
    under a fresh identifier, [after_cancel] withdraws it, and a timer that
    fires is withdrawn before its callback runs. *)
Record Tk := { timers : list nat; next_timer : nat }.

Definition after (tk : Tk) : nat * Tk :=
  (next_timer tk,
   {| timers := timers tk ++ [next_timer tk];
      next_timer := S (next_timer tk) |}).

Definition after_cancel (job : nat) (tk : Tk) : Tk :=
  {| timers := List.filter (fun t => negb (t =? job)%nat) (timers tk);
     next_timer := next_timer tk |}.

(** ** gui_concept.py *)
Module Gui.

Definition _titles : list pystr := titles_with [8212%N].

Section Catalog.
Context {G : Type} `{RandomSource G}.
Local Open Scope rand_scope.

(** [for i in range(count): MOCK_VIDEOS.append(Video(...))], [videos] being
    the list so far. *)
Fixpoint append_videos (videos : list Video) (indices : list Z)
  : Rand G (list Video) :=
  match indices with
  | [] => rret videos
  | i :: rest =>
      sample v := draw_video _titles i in
      append_videos (videos ++ [v]) rest
  end.

Definition generate (count : nat) : Rand G (list Video) :=
  append_videos [] (range count).
End Catalog.

(** The module-level statements [MOCK_VIDEOS = []],
    [_random = random.Random(seed)] and the loop, run where both names may
    already be bound; [None] when the loop does not complete. *)
Definition build_catalog (seed : Z) (count : nat) (env : globals)
  : option globals :=
  let env := {| _random := _random env; MOCK_VIDEOS := [] |} in
  let env := {| _random := MT.seed seed; MOCK_VIDEOS := MOCK_VIDEOS env |} in
  match append_videos (MOCK_VIDEOS env) (range count) (_random env) with
  | Some (videos, g) => Some {| _random := g; MOCK_VIDEOS := videos |}
  | None => None
  end.

(** [fmt_views]: three guarded returns. *)
Definition fmt_views (v : Z) : result pystr :=
  if v >=? 1000000 then
    rbind (int_truediv v 1000000) (fun q => Ok (format_1f q ++ py "M views"))
  else if v >=? 1000 then
    rbind (int_truediv v 1000) (fun q => Ok (format_1f q ++ py "K views"))
  else Ok (str_int v ++ py " views").

Definition fmt_age (days : Z) : pystr :=
  if days =? 0 then py "today"
  else if days =? 1 then py "1 day ago"
  else if days <? 30 then str_int days ++ py " days ago"
  else
    let months := days / 30 in
    if months <? 12 then str_int months ++ py " months ago"
    else
      let years := months / 12 in
      str_int years ++ py " years ago".

Section Thumb.
Context `{Platform}.

(** [make_thumb(text, color, size)].  The drawing handle [draw] is taken
    on the first image, before [img] is rebound to the composite. *)
Definition make_thumb (text : pystr) (color : rgb) (size : Z * Z) : Py nat :=
  let key := (text, color, size) in
  let* hit := cache_get key in
  match hit with
  | Some cached => ret cached
  | None =>
      let* img := Image_new RGB size (InkRGB color) in
      let draw := ImageDraw_Draw img in
      let* overlay := Image_new RGBA size (InkRGBA (0, 0, 0) 0) in
      let od := ImageDraw_Draw overlay in
      let* tri_w := lift (int_scaled (fst size) (float_lit 16 100)) in
      let* tri_h := lift (int_scaled (snd size) (float_lit 20 100)) in
      let cx := fst size / 2 in
      let cy := snd size / 2 in
      let points := [ (cx - tri_w / 3, cy - tri_h / 2);
                      (cx - tri_w / 3, cy + tri_h / 2);
                      (cx + tri_w, cy) ] in
      do Draw_polygon od points (InkRGBA (255, 255, 255) 150) then
      let* img_rgba := Image_convert img RGBA in
      let* composed := Image_alpha_composite img_rgba overlay in
      let* img := Image_convert composed RGB in
      let font := load_font (py "DejaVuSans.ttf") 28 in
      let wrapped := wrap text 24 in
      let '(x0, y0, x1, y1) := textbbox font wrapped in
      let w := x1 - x0 in
      let h := y1 - y0 in
      let x := 16 in
      let y := snd size - h - 16 in
      do Draw_multiline_text draw (x + 2, y + 2) wrapped font
           (InkRGB (0, 0, 0)) then
      do Draw_multiline_text draw (x, y) wrapped font
           (InkRGB (255, 255, 255)) then
      let return_img := img in
      do cache_set key return_img then
      ret return_img
  end.
End Thumb.

Section Views.
Context `{Platform}.

(** [str.lower], whose table belongs to the interpreter. *)
Variable lower : pystr -> pystr.

(** A card of the grid: its video, the image on its button, its two
    captions, and the cell [card.grid(row=..., column=...)] gave it. *)
Record Card := {
  video : Video;
  thumb_img : nat;
  badge : pystr;
  meta : pystr;
  cell : option (Z * Z)
}.

Definition bullet : pystr := [8226%N].

(** [VideoCard.__init__] *)
Definition VideoCard (v : Video) : Py Card :=
  let* img := make_thumb (title v) (color v) (480, 270) in
  let* views_text := lift (fmt_views (views v)) in
  ret {| video := v;
         thumb_img := img;
         badge := duration v;
         meta := channel v ++ py " " ++ bullet ++ py " " ++ views_text
                 ++ py " " ++ bullet ++ py " " ++ fmt_age (age_days v);
         cell := None |}.

Definition grid_at (card : Card) (row column : Z) : Card :=
  {| video := video card;
     thumb_img := thumb_img card;
     badge := badge card;
     meta := meta card;
     cell := Some (row, column) |}.

(** The loop of [VideoGrid.populate] over [enumerate(videos)], from index
    [i] on; [cards] is [self.cards]. *)
Fixpoint populate_from (i : Z) (videos : list Video) (cards : list Card)
  : Py (list Card) :=
  match videos with
  | [] => ret cards
  | v :: rest =>
      let* card := VideoCard v in
      let col := i mod 4 in
      let row := i / 4 in
      populate_from (i + 1) rest (cards ++ [grid_at card row col])
  end.

(** [VideoGrid.populate]: the old cards are destroyed and the list is
    cleared first. *)
Definition populate (videos : list Video) (cards : list Card)
  : Py (list Card) :=
  populate_from 0 videos [].

(** [VideoGrid.filter] *)
Definition filter (env : globals) (query : pystr) (cards : list Card)
  : Py (list Card) :=
  let q := lower query in
  let visible :=
    List.filter (fun v => contains (lower (title v)) q
                          || contains (lower (channel v)) q)
                (MOCK_VIDEOS env) in
  populate visible cards.

(** [HomeView.__init__] and [HomeView.search] *)
Definition HomeView (env : globals) : Py (list Card) :=
  populate (MOCK_VIDEOS env) [].

Definition search (env : globals) (query : pystr) (cards : list Card)
  : Py (list Card) :=
  filter env query cards.

(** [App._on_search], and the search as the header bar starts it, on the
    stripped text of the entry. *)
Definition _on_search (env : globals) (query : pystr) (cards : list Card)
  : Py (list Card) :=
  search env query cards.

Definition submit_search (env : globals) (entry : pystr) (cards : list Card)
  : Py (list Card) :=
  _on_search env (strip entry) cards.

(** [App._on_nav] *)
Definition _on_nav (env : globals) (key : pystr) (cards : list Card)
  : Py (list Card) :=
  match nav_selection key (MOCK_VIDEOS env) with
  | Some videos => populate videos cards
  | None => ret cards
  end.

(** The recommendations of [PlayerOverlay.__init__]: for each video the
    light and the dark image of its thumbnail. *)
Fixpoint recommendations (recs : list Video) : Py (list (nat * nat)) :=
  match recs with
  | [] => ret []
  | rv :: rest =>
      let* light := make_thumb (title rv) (color rv) (320, 180) in
      let* dark := make_thumb (title rv) (color rv) (320, 180) in
      let* views_text := lift (fmt_views (views rv)) in
      let* others := recommendations rest in
      ret ((light, dark) :: others)
  end.

(** [PlayerOverlay.__init__]: the large image and the recommendations. *)
Definition PlayerOverlay (env : globals) (v : Video)
  : Py (nat * list (nat * nat)) :=
  let* img := make_thumb (title v) (color v) (1280, 720) in
  let* views_text := lift (fmt_views (views v)) in
  let* thumbs := recommendations (take 12 (MOCK_VIDEOS env)) in
  ret (img, thumbs).
End Views.

End Gui.

(** ** better_gui_concept.py *)
Module Better.

Definition _titles : list pystr := titles_with [8218%N; 196%N; 238%N].

Section Catalog.
Context {G : Type} `{RandomSource G}.
Local Open Scope rand_scope.

(** [[Video(...) for i in range(count)]] *)
Fixpoint comprehension (indices : list Z) : Rand G (list Video) :=
  match indices with
  | [] => rret []
  | i :: rest =>
      sample v := draw_video _titles i in
      sample vs := comprehension rest in
      rret (v :: vs)
  end.

Definition generate (count : nat) : Rand G (list Video) :=
  comprehension (range count).
End Catalog.

(** The module-level statements [_random = random.Random(seed)] and
    [MOCK_VIDEOS = [...]], run where both names may already be bound;
    [None] when the comprehension does not complete. *)
Definition build_catalog (seed : Z) (count : nat) (env : globals)
  : option globals :=
  let env := {| _random := MT.seed seed; MOCK_VIDEOS := MOCK_VIDEOS env |} in
  match comprehension (range count) (_random env) with
  | Some (videos, g) => Some {| _random := g; MOCK_VIDEOS := videos |}
  | None => None
  end.

(** [fmt_views]: one nested conditional expression. *)
Definition fmt_views (v : Z) : result pystr :=
  if v >=? 1000000
  then rmap (fun q => format_1f q ++ py "M views") (int_truediv v 1000000)
  else (if v >=? 1000
        then rmap (fun q => format_1f q ++ py "K views") (int_truediv v 1000)
        else Ok (str_int v ++ py " views")).

Definition fmt_age (days : Z) : pystr :=
  if days =? 0 then py "today"
  else if days =? 1 then py "1 day ago"
  else if days <? 30 then str_int days ++ py " days ago"
  else
    let m := days / 30 in
    if m <? 12 then str_int m ++ py " months ago"
    else str_int (m / 12) ++ py " years ago".

(** [_rounded_shadow_rgba(size, radius, shadow)]; the blur radius is the
    constant 10. *)
Definition _rounded_shadow_rgba (size : Z * Z) (radius shadow : Z) : Py nat :=
  let '(w, h) := size in
  let* canvas := Image_new RGBA (w + shadow * 2, h + shadow * 2)
                   (InkRGBA (0, 0, 0) 0) in
  let* mask := Image_new L (w, h) (InkL 0) in
  do Draw_rounded_rectangle (ImageDraw_Draw mask) (0, 0, w, h) radius
       (InkL 255) then
  let* shadow_img := Image_new RGBA (w, h) (InkRGBA (0, 0, 0) 140) in
  do Image_paste canvas shadow_img (shadow, shadow) mask then
  let* canvas := Image_filter_GaussianBlur canvas 10 in
  ret canvas.

(** [_apply_rounded(img, radius)] *)
Definition _apply_rounded (img : nat) (radius : Z) : Py nat :=
  let* size := Image_size img in
  let* mask := Image_new L size (InkL 0) in
  do Draw_rounded_rectangle (ImageDraw_Draw mask)
       (0, 0, fst size, snd size) radius (InkL 255) then
  let* img := Image_convert img RGBA in
  do Image_putalpha img mask then
  ret img.

Section Thumb.
Context `{Platform}.

(** [make_thumb(text, color, size)] *)
Definition make_thumb (text : pystr) (color : rgb) (size : Z * Z) : Py nat :=
  let key := (text, color, size) in
  let* hit := cache_get key in
  match hit with
  | Some cached => ret cached
  | None =>
      let '(base_w, base_h) := size in
      let W := base_w * 2 in
      let H := base_h * 2 in
      let* img := Image_new RGB (W, H) (InkRGB color) in
      let* overlay := Image_new RGBA (W, H) (InkRGBA (0, 0, 0) 0) in
      let od := ImageDraw_Draw overlay in
      let* tri_w := lift (int_scaled W (float_lit 16 100)) in
      let* tri_h := lift (int_scaled H (float_lit 20 100)) in
      let cx := W / 2 in
      let cy := H / 2 in
      let points := [ (cx - tri_w / 3, cy - tri_h / 2);
                      (cx - tri_w / 3, cy + tri_h / 2);
                      (cx + tri_w, cy) ] in
      do Draw_polygon od points (InkRGBA (255, 255, 255) 150) then
      let* img_rgba := Image_convert img RGBA in
      let* composed := Image_alpha_composite img_rgba overlay in
      let* img := Image_convert composed RGB in
      let draw := ImageDraw_Draw img in
      let font := load_font (py "DejaVuSans.ttf") 56 in
      let wrapped := wrap text 42 in
      let '(x0, y0, x1, y1) := textbbox font wrapped in
      let w := x1 - x0 in
      let h := y1 - y0 in
      let x := 32 in
      let y := H - h - 32 in
      do Draw_multiline_text draw (x + 4, y + 4) wrapped font
           (InkRGB (0, 0, 0)) then
      do Draw_multiline_text draw (x, y) wrapped font
           (InkRGB (255, 255, 255)) then
      let* img := _apply_rounded img 36 in
      let* shadow := _rounded_shadow_rgba (W, H) 36 16 in
      let* shadow_size := Image_size shadow in
      let* canvas := Image_new RGBA shadow_size (InkRGBA (0, 0, 0) 0) in
      do Image_alpha_composite_at canvas shadow (0, 0) then
      do Image_alpha_composite_at canvas img (16, 16) then
      let* canvas := Image_resize canvas (base_w, base_h) in
      do cache_set key canvas then
      ret canvas
  end.

(** The three frames of a video card ([VideoCard.__init__]). *)
Definition card_frames (video : Video) : Py (list nat) :=
  let* base := make_thumb (title video) (color video) (480, 270) in
  let* c1 := lift (alt1_color (color video)) in
  let* alt1 := make_thumb (title video) c1 (480, 270) in
  let* c2 := lift (alt2_color (color video)) in
  let* alt2 := make_thumb (title video) c2 (480, 270) in
  ret [base; alt1; alt2].
End Thumb.

(** The hover button of a card ([HoverThumb]): its frames, whether the
    pointer is over it, the frame index, the pending timer and the image it
    shows, enlarged or not. *)
Record HoverThumb := {
  _frames : list nat;
  _hover : bool;
  _idx : nat;
  _cycle_job : option nat;
  image : bool * nat
}.

(** [frames[i]] *)
Definition frame_at (frames : list nat) (i : nat) : result nat :=
  match frames !! i with
  | Some im => Ok im
  | None => Raise IndexError
  end.

(** [HoverThumb.__init__] *)
Definition HoverThumb_init (images : list nat) : result HoverThumb :=
  rbind (frame_at images 0) (fun im =>
  Ok {| _frames := images; _hover := false; _idx := 0%nat;
        _cycle_job := None; image := (false, im) |}).

(** [HoverThumb._start_cycle] *)
Definition _start_cycle (w : HoverThumb * Tk) : HoverThumb * Tk :=
  let '(b, tk) := w in
  match _cycle_job b with
  | Some _ => (b, tk)
  | None =>
      let '(job, tk) := after tk in
      ({| _frames := _frames b; _hover := _hover b; _idx := _idx b;
          _cycle_job := Some job; image := image b |}, tk)
  end.

(** [HoverThumb._enter] *)
Definition _enter (w : HoverThumb * Tk) : result (HoverThumb * Tk) :=
  let '(b, tk) := w in
  rbind (frame_at (_frames b) (_idx b)) (fun im =>
  Ok (_start_cycle
        ({| _frames := _frames b; _hover := true; _idx := _idx b;
            _cycle_job := _cycle_job b; image := (true, im) |}, tk))).

(** [HoverThumb._leave] *)
Definition _leave (w : HoverThumb * Tk) : result (HoverThumb * Tk) :=
  let '(b, tk) := w in
  rbind (frame_at (_frames b) (_idx b)) (fun im =>
  Ok match _cycle_job b with
     | Some job =>
         ({| _frames := _frames b; _hover := false; _idx := _idx b;
             _cycle_job := None; image := (false, im) |},
          after_cancel job tk)
     | None =>
         ({| _frames := _frames b; _hover := false; _idx := _idx b;
             _cycle_job := None; image := (false, im) |}, tk)
     end).

(** The callback [tick] of [_start_cycle]. *)
Definition tick (w : HoverThumb * Tk) : result (HoverThumb * Tk) :=
  let '(b, tk) := w in
  match length (_frames b) with
  | O => Raise ZeroDivisionError
  | S _ =>
      let idx := (S (_idx b) mod length (_frames b))%nat in
      rbind (frame_at (_frames b) idx) (fun im =>
      let '(job, tk) := after tk in
      Ok ({| _frames := _frames b; _hover := _hover b; _idx := idx;
             _cycle_job := Some job; image := (_hover b, im) |}, tk))
  end.

(** What the event loop delivers to the button. *)
Inductive event :=
  | Enter
  | Leave
  | Timer (job : nat).

Definition deliver (e : event) (w : HoverThumb * Tk)
  : result (HoverThumb * Tk) :=
  match e with
  | Enter => _enter w
  | Leave => _leave w
  | Timer job =>
      if existsb (Nat.eqb job) (timers (snd w))
      then tick (fst w, after_cancel job (snd w))
      else Ok w
  end.

Fixpoint deliver_all (events : list event) (w : HoverThumb * Tk)
  : result (HoverThumb * Tk) :=
  match events with
  | [] => Ok w
  | e :: rest => rbind (deliver e w) (deliver_all rest)
  end.

(** The progress animation ([AnimatedProgressBar.start]).  [x + y] and
    [x <= y] on doubles, and the literals [1.0] and [0.0]. *)
Definition float_add (x y : float) : float := SFadd fprec femax x y.

Definition float_le (x y : float) : bool := SFleb x y.

Definition float_one : float := S754_finite false 4503599627370496 (-52).

Definition float_zero : float := S754_zero false.

(** One call [anim(val, direction)]: the value it sets, which is also the
    first argument of the call it schedules, and the direction of that
    call. *)
Definition anim (val : float) (direction : Z) : result (float * Z) :=
  rbind (int_mul_float direction (float_lit 1 100)) (fun d =>
  let v := float_add val d in
  let '(v, direction) :=
    if float_le float_one v then (float_one, -1) else (v, direction) in
  let '(v, direction) :=
    if float_le v float_zero then (float_zero, 1) else (v, direction) in
  Ok (v, direction)).

(** The arguments of the call after [n] calls, the first being [anim()],
    that is [anim(0.0, 1)]. *)
Fixpoint anim_after (n : nat) : result (float * Z) :=
  match n with
  | O => Ok (float_zero, 1)
  | S n' => rbind (anim_after n') (fun a => anim (fst a) (snd a))
  end.

Section Views.
Context `{Platform}.

(** [str.lower], whose table belongs to the interpreter. *)
Variable lower : pystr -> pystr.

(** A card of the grid: its video, its hover button, its two captions, and
    the cell [card.grid(row=..., column=...)] gave it. *)
Record Card := {
  video : Video;
  thumb_btn : HoverThumb;
  badge : pystr;
  meta : pystr;
  cell : option (Z * Z)
}.

(** What the file has for the bullet between the parts of a caption. *)
Definition bullet : pystr := [8218%N; 196%N; 162%N].

(** [VideoCard.__init__] *)
Definition VideoCard (v : Video) : Py Card :=
  let* images := card_frames v in
  let* button := lift (HoverThumb_init images) in
  let* views_text := lift (fmt_views (views v)) in
  ret {| video := v;
         thumb_btn := button;
         badge := duration v;
         meta := channel v ++ py " " ++ bullet ++ py " " ++ views_text
                 ++ py " " ++ bullet ++ py " " ++ fmt_age (age_days v);
         cell := None |}.

Definition grid_at (card : Card) (row column : Z) : Card :=
  {| video := video card;
     thumb_btn := thumb_btn card;
     badge := badge card;
     meta := meta card;
     cell := Some (row, column) |}.

(** The loop of [VideoGrid.populate] over [enumerate(videos)], from index
    [i] on; [cards] is [self.cards]. *)
Fixpoint populate_from (i : Z) (videos : list Video) (cards : list Card)
  : Py (list Card) :=
  match videos with
  | [] => ret cards
  | v :: rest =>
      let* card := VideoCard v in
      let col := i mod 4 in
      let row := i / 4 in
      populate_from (i + 1) rest (cards ++ [grid_at card row col])
  end.

(** [VideoGrid.populate]: the old cards are destroyed and the list is
    cleared first. *)
Definition populate (videos : list Video) (cards : list Card)
  : Py (list Card) :=
  populate_from 0 videos [].

(** [VideoGrid.filter] *)
Definition filter (env : globals) (query : pystr) (cards : list Card)
  : Py (list Card) :=
  let q := lower query in
  let visible :=
    List.filter (fun v => contains (lower (title v)) q
                          || contains (lower (channel v)) q)
                (MOCK_VIDEOS env) in
  populate visible cards.

(** [HomeView.__init__] and [HomeView.search] *)
Definition HomeView (env : globals) : Py (list Card) :=
  populate (MOCK_VIDEOS env) [].

Definition search (env : globals) (query : pystr) (cards : list Card)
  : Py (list Card) :=
  filter env query cards.

(** [App._on_search], and the search as the header bar starts it, on the
    stripped text of the entry. *)
Definition _on_search (env : globals) (query : pystr) (cards : list Card)
  : Py (list Card) :=
  search env query cards.

Definition submit_search (env : globals) (entry : pystr) (cards : list Card)
  : Py (list Card) :=
  _on_search env (strip entry) cards.

(** [App._on_nav] *)
Definition _on_nav (env : globals) (key : pystr) (cards : list Card)
  : Py (list Card) :=
  match nav_selection key (MOCK_VIDEOS env) with
  | Some videos => populate videos cards
  | None => ret cards
  end.

(** The recommendations of [PlayerOverlay.__init__]: for each video the
    light and the dark image of its thumbnail. *)
Fixpoint recommendations (recs : list Video) : Py (list (nat * nat)) :=
  match recs with
  | [] => ret []
  | rv :: rest =>
      let* light := make_thumb (title rv) (color rv) (480, 270) in
      let* dark := make_thumb (title rv) (color rv) (480, 270) in
      let* views_text := lift (fmt_views (views rv)) in
      let* others := recommendations rest in
      ret ((light, dark) :: others)
  end.

(** [PlayerOverlay.__init__]: the large image and the recommendations. *)
Definition PlayerOverlay (env : globals) (v : Video)
  : Py (nat * list (nat * nat)) :=
  let* big_img := make_thumb (title v) (color v) (1280, 720) in
  let* views_text := lift (fmt_views (views v)) in
  let* thumbs := recommendations (take 12 (MOCK_VIDEOS env)) in
  ret (big_img, thumbs).
End Views.

End Better.

(** ** The formatters as the specification words them *)





Definition channel_in_range (c : Z) : Prop := 0 <= c <= 255.

(** One channel of both variants agrees with the specification's
    multiply, clamp, floor, and stays a channel. *)
Definition variant_channel_ok (c : Z) : bool :=
  match brighter_channel c, darker_channel c with
  | Ok hi, Ok lo =>
      (hi =? brighten_channel 105 100 c) && (lo =? brighten_channel 92 100 c)
      && (0 <=? hi) && (hi <=? 255) && (0 <=? lo) && (lo <=? 255)
  | _, _ => false
  end.

(** ** Vocabulary for the catalog's properties *)

(** An environment in which neither name is bound to anything useful. *)
Definition blank_globals : globals :=
  {| _random := {| MT.mt := []; MT.index := 0 |}; MOCK_VIDEOS := [] |}.

(** The record the first [Video(...)] call yields on the recording source:
    each field shows the position of the draw it came from. *)
Definition first_logged_video (titles : list pystr) : option Video :=
  option_map fst (draw_video (G := list Z) titles 0 []).

(** ** Vocabulary for the factory's properties *)

(** A platform without the outline font that measures a text as one row of
    6 by 11 cells; the closed examples run on it. *)
Definition headless : Platform :=
  {| truetype_loads := fun _ => false;
     textbbox := fun _ s => (0, 0, 6 * len s, 11) |}.

(** What becomes of a request that misses the cache, by its target size. *)
Inductive verdict :=
  | Rejected (e : exn)
  | Accepted.

Definition gui_verdict (size : Z * Z) : verdict :=
  let '(w, h) := size in
  if (w <? 0) || (h <? 0) then Rejected ValueError
  else if (INT_MAX <? w) || (INT_MAX <? h) then Rejected OverflowError
  else Accepted.

Definition better_verdict (size : Z * Z) : verdict :=
  let '(w, h) := size in
  if (w <? 0) || (h <? 0) then Rejected ValueError
  else if (INT_MAX <? w * 2 + 32) || (INT_MAX <? h * 2 + 32)
  then Rejected OverflowError
  else if (w <? 1) || (h <? 1) then Rejected ValueError
  else Accepted.

(** The image object [r] of a state is a bitmap of mode [m] and size
    [size]. *)
Definition bitmap_at (st : state) (r : nat) (m : mode) (size : Z * Z) : Prop :=
  exists p, heap st !! r = Some p /\ pic_mode p = m /\ pic_size p = size.

(** Every cached entry is a live bitmap of mode [m] and of the size in its
    key. *)
Definition cache_wf (m : mode) (st : state) : Prop :=
  forall text color size r,
    ASSET_CACHE st !! (text, color, size) = Some r ->
    (r < next_id st)%nat /\ bitmap_at st r m size.

(** The objects that existed in [st] are untouched in [st']. *)
Definition preserves (st st' : state) : Prop :=
  (next_id st <= next_id st')%nat
  /\ forall r, (r < next_id st)%nat -> heap st' !! r = heap st !! r.

(** ** Vocabulary for the wrapper's further properties *)

(** What may stand as a line of the wrapped text under a budget: a text
    within one character of the budget, a single word of the input, or
    nothing. *)
Definition line_within (max_chars : Z) (t : pystr) (l : pystr) : Prop :=
  len l <= max_chars + 1 \/ In l (split t) \/ l = [].

(** A word: at least one code point, none of them a space. *)
Definition is_word (w : pystr) : Prop := w <> [] /\ no_space w.

(** ** Vocabulary for the formatters' and the variants' further properties *)

(** How one channel moves under the two tints: never up under the darker
    one, never down under the brighter one, and exactly which channels stay
    put. *)
Definition variant_direction_ok (c : Z) : bool :=
  match brighter_channel c, darker_channel c with
  | Ok hi, Ok lo =>
      (lo <=? c) && (c <=? hi)
      && Bool.eqb (hi =? c) ((c <? 20) || (c =? 255))
      && Bool.eqb (lo =? c) (c =? 0)
  | _, _ => false
  end.

(** ** Vocabulary for the factory's further properties *)

(** One call of [multiline_text]: where, what, in which font and colour. *)
Abbreviation text_layer := ((Z * Z) * pystr * font * ink)%type.



(** No image object is cached under two keys. *)
Definition cache_inj (st : state) : Prop :=
  forall k1 k2 r,
    ASSET_CACHE st !! k1 = Some r -> ASSET_CACHE st !! k2 = Some r -> k1 = k2.

(** Every cached reference names an object of the store. *)
Definition cache_live (st : state) : Prop :=
  forall k r, ASSET_CACHE st !! k = Some r -> (r < next_id st)%nat.

(** [st'] keeps every cache entry of [st], under the same object. *)
Definition cache_grows (st st' : state) : Prop :=
  forall k r, ASSET_CACHE st !! k = Some r -> ASSET_CACHE st' !! k = Some r.

(** The invariant of the cache: well formed, and no object under two
    keys. *)
Definition cache_ok (m : mode) (st : state) : Prop :=
  cache_wf m st /\ cache_inj st.

(** The states a program reaches that touches images and the cache through
    the factory [call] only. *)
Inductive reached (call : pystr -> rgb -> Z * Z -> Py nat) : state -> Prop :=
  | reached_initial : reached call initial_state
  | reached_call text color size st :
      reached call st -> reached call (snd (call text color size st)).

(** ** Vocabulary for the views' properties *)

(** A video the views can show: colour channels in range and a view count
    a double can hold. *)
Definition video_ok (v : Video) : Prop :=
  let '(r, g, b) := color v in
  channel_in_range r /\ channel_in_range g /\ channel_in_range b
  /\ 0 <= views v < 2 ^ 1022.

(** The cells of the cards of a grid are those of a row-major layout in
    four columns. *)
Definition row_major (cells : list (option (Z * Z))) : Prop :=
  forall (i : nat) c, cells !! i = Some c ->
    c = Some (Z.of_nat i / 4, Z.of_nat i mod 4).

(** The three frames of a video's card are in the cache
    (better_gui_concept.py), or its one image is (gui_concept.py). *)
Definition frames_cached (st : state) (v : Video) : Prop :=
  exists c1 c2,
    alt1_color (color v) = Ok c1 /\ alt2_color (color v) = Ok c2
    /\ is_Some (ASSET_CACHE st !! (title v, color v, (480, 270)))
    /\ is_Some (ASSET_CACHE st !! (title v, c1, (480, 270)))
    /\ is_Some (ASSET_CACHE st !! (title v, c2, (480, 270))).

Definition image_cached (st : state) (v : Video) : Prop :=
  is_Some (ASSET_CACHE st !! (title v, color v, (480, 270))).

(** A channel the brighter tint leaves as it is. *)
Definition tint_fixed (c : Z) : Prop := c < 20 \/ c = 255.

(** A list of videos by falling number of views: no video has more views
    than one before it. *)
Fixpoint falling_views (l : list Video) : Prop :=
  match l with
  | [] => True
  | x :: rest => Forall (fun y => views y <= views x) rest /\ falling_views rest
  end.

(** What holds of a hover button and its timers between two events: the
    frames are those it was made with, the index is a position in them, the
    image shown is the frame at the index, enlarged exactly while the
    pointer is over the button, and a timer is pending exactly then, the
    one the button remembers. *)
Definition hover_inv (images : list nat) (w : Better.HoverThumb * Tk) : Prop :=
  let b := fst w in
  Better._frames b = images
  /\ (exists im, images !! Better._idx b = Some im
                 /\ Better.image b = (Better._hover b, im))
  /\ timers (snd w) = match Better._cycle_job b with
                      | Some job => [job]
                      | None => []
                      end
  /\ (Better._hover b = true <-> is_Some (Better._cycle_job b)).

(** A value of the progress bar: a double from 0 to 1. *)
Definition unit_interval (r : result (float * Z)) : bool :=
  match r with
  | Ok (v, d) =>
      Better.float_le Better.float_zero v && Better.float_le v Better.float_one
      && ((d =? 1) || (d =? -1))
  | Raise _ => false
  end.

(** The argument pairs of [n] successive calls of the animation, from the
    pair [a] on. *)
Fixpoint anim_trace (n : nat) (a : result (float * Z))
  : list (result (float * Z)) :=
  match n with
  | O => []
  | S n' =>
      a :: anim_trace n' (rbind a (fun a => Better.anim (fst a) (snd a)))
  end.

(** A catalog of one record and the state its home view leaves
    (better_gui_concept.py, on the platform without the outline font), for
    the closed examples. *)
Definition demo_video : Video :=
  {| id := py "vid_0"; title := py "Learn PIL in 15 Minutes";
     channel := py "UI Nerd"; views := 1500; age_days := 45;
     duration := py "1:07:59"; color := (0, 191, 255) |}.





(** ** Vocabulary for the catalog's further properties *)

(** The fields of a record are what the generator may draw: a title of the
    pool, one of the six channels, 1,000 to 2,500,000 views, an age of 0 to
    900 days, a duration of seven characters (h:mm:ss) and a colour of the
    palette. *)
Definition video_in_range (titles : list pystr) (v : Video) : Prop :=
  In (title v) titles /\ In (channel v) _channels
  /\ 1000 <= views v <= 2500000
  /\ 0 <= age_days v <= 900
  /\ len (duration v) = 7
  /\ In (color v) _palette.

(** A generator state whose words are not negative. *)
Definition mt_ok (g : MT.Random) : Prop := Forall (fun w => 0 <= w) (MT.mt g).

(** The duration strings have seven characters. *)
Definition duration_ok (n : Z) : bool := len (format_02d n) =? 2.

(** A title of gui_concept.py as better_gui_concept.py has it: the dash of
    the third and of the tenth title is the three characters its bytes were
    misread as. *)
Definition mistitled (t : pystr) : pystr :=
  match List.find (fun p => str_eqb (fst p) t)
                  (List.combine Gui._titles Better._titles) with
  | Some p => snd p
  | None => t
  end.

Definition mistitled_video (v : Video) : Video :=
  {| id := id v; title := mistitled (title v); channel := channel v;
     views := views v; age_days := age_days v; duration := duration v;
     color := color v |}.

(** ** Vocabulary for the accuracy of the doubles *)

(** A shift record locates the quotient [N/D] of two integers: its mantissa
    is the integer part, its round bit says whether the fractional part is
    at least one half, its sticky bit whether it is neither zero nor one
    half. *)
Definition locates (N D : Z) (r : shr_record) : Prop :=
  shr_m r = N / D
  /\ shr_r r = (D <=? 2 * (N mod D))
  /\ shr_s r = negb (N mod D =? 0) && negb (2 * (N mod D) =? D).

(** The divisor and the suffix [fmt_views] uses from a thousand views on. *)
Definition views_scale (v : Z) : Z :=
  if 1000000 <=? v then 1000000 else 1000.

Definition views_suffix (v : Z) : pystr :=
  if 1000000 <=? v then py "M views" else py "K views".

(** * Properties *)


(** ** The word wrapper *)

Section WrapFacts.

Lemma linebreak_is_space c : is_linebreak c = true -> isspace c = true.
Proof.
  unfold is_linebreak, isspace. intros Hc.
  repeat match type of Hc with
         | (_ || _)%bool = true => apply orb_true_iff in Hc as [Hc | Hc]
         | (_ && _)%bool = true => apply andb_true_iff in Hc as [? ?]
         end;
  repeat match goal with
         | E : (_ <=? _)%N = true |- _ => apply N.leb_le in E
         | E : (_ =? _)%N = true |- _ => apply N.eqb_eq in E
         end;
  repeat rewrite orb_true_iff; repeat rewrite andb_true_iff;
  repeat rewrite N.leb_le; repeat rewrite N.eqb_eq; lia.
Qed.

Lemma split_from_no_space t : forall cur,
  no_space cur -> Forall no_space (split_from cur t).
Proof.
  induction t as [|c t IH]; intros cur Hcur; simpl.
  - destruct cur; constructor; auto.
  - destruct (isspace c) eqn:Hc.
    + destruct cur.
      * apply IH. constructor.
      * constructor; [exact Hcur | apply IH; constructor].
    + apply IH. apply Forall_app. split; [exact Hcur | repeat constructor; exact Hc].
Qed.

Lemma split_no_space t : Forall no_space (split t).
Proof. apply split_from_no_space. constructor. Qed.

Lemma split_from_nonempty t : forall cur,
  Forall (fun w => w <> []) (split_from cur t).
Proof.
  induction t as [|c t IH]; intros cur; simpl.
  - destruct cur; repeat constructor; discriminate.
  - destruct (isspace c).
    + destruct cur; [apply IH | constructor; [discriminate | apply IH]].
    + apply IH.
Qed.

Lemma sum_len_from (buf : list pystr) : forall a,
  fold_left (fun acc x => acc + len x) buf a
  = a + fold_right (fun x acc => len x + acc) 0 buf.
Proof.
  induction buf as [|x buf IH]; intros a; simpl; [lia |].
  rewrite IH. lia.
Qed.

Lemma fits_wrap_step m buf w :
  fits m buf w = negb (sum_len buf + len buf - 1 + len w >? m).
Proof.
  unfold fits, sum_len. rewrite sum_len_from.
  destruct (Z.leb_spec (fold_right (fun x acc => len x + acc) 0 buf
                        + (len buf - 1) + len w) m);
    destruct (Z.gtb_spec (0 + fold_right (fun x acc => len x + acc) 0 buf
                          + len buf - 1 + len w) m); simpl; auto; lia.
Qed.

Lemma wrap_lines_flush t m :
  wrap_lines t m = flush (fold_left (wrap_step m) (split t) ([], [])).
Proof.
  unfold wrap_lines, flush.
  destruct (fold_left (wrap_step m) (split t) ([], [])) as [lines buf].
  reflexivity.
Qed.

Lemma loop_is_greedy m words : forall lines buf,
  buf <> [] \/ words <> [] ->
  flush (fold_left (wrap_step m) words (lines, buf))
  = lines ++ List.map (join [SP]) (greedy m buf words).
Proof.
  induction words as [|w rest IH]; intros lines buf Hne; simpl.
  - destruct Hne as [Hb | Hw]; [| congruence].
    unfold flush; simpl. destruct buf; [congruence | reflexivity].
  - rewrite fits_wrap_step.
    destruct (sum_len buf + len buf - 1 + len w >? m); simpl.
    + rewrite IH by (left; discriminate).
      rewrite <- app_assoc. reflexivity.
    + apply IH. left. destruct buf; discriminate.
Qed.

Lemma wrap_lines_greedy t m :
  split t <> [] ->
  wrap_lines t m = List.map (join [SP]) (greedy m [] (split t)).
Proof.
  intros Hne. rewrite wrap_lines_flush.
  rewrite loop_is_greedy by (right; exact Hne). reflexivity.
Qed.

Lemma wrap_lines_empty t m : split t = [] -> wrap_lines t m = [].
Proof. intros E. unfold wrap_lines. rewrite E. reflexivity. Qed.

Lemma wrap_greedy_wrap t m : wrap t m = greedy_wrap t m.
Proof.
  unfold wrap, greedy_wrap.
  destruct (split t) as [|w rest] eqn:E.
  - rewrite wrap_lines_empty by exact E. reflexivity.
  - rewrite wrap_lines_greedy by (rewrite E; discriminate).
    rewrite E. reflexivity.
Qed.

Lemma greedy_words (P : pystr -> Prop) m words : forall line,
  Forall P line -> Forall P words -> Forall (Forall P) (greedy m line words).
Proof.
  induction words as [|w rest IH]; intros line Hl Hw; simpl.
  - repeat constructor; exact Hl.
  - inversion Hw; subst.
    destruct (fits m line w).
    + apply IH; [apply Forall_app; split; [exact Hl | repeat constructor; assumption] | assumption].
    + constructor; [exact Hl | apply IH; [repeat constructor; assumption | assumption]].
Qed.

Lemma count_linebreaks_app a b :
  count_linebreaks (a ++ b) = (count_linebreaks a + count_linebreaks b)%nat.
Proof. induction a as [|c a IH]; simpl; [reflexivity | rewrite IH; lia]. Qed.

Lemma no_space_no_linebreak w : no_space w -> count_linebreaks w = 0%nat.
Proof.
  induction 1 as [|c w Hc _ IH]; simpl; [reflexivity |].
  destruct (is_linebreak c) eqn:E; [| exact IH].
  apply linebreak_is_space in E. congruence.
Qed.

Lemma join_space_no_linebreak line :
  Forall no_space line -> count_linebreaks (join [SP] line) = 0%nat.
Proof.
  induction 1 as [|w line Hw Hline IH]; simpl; [reflexivity |].
  destruct line as [|w' line'].
  - apply no_space_no_linebreak; exact Hw.
  - rewrite count_linebreaks_app, (no_space_no_linebreak w Hw).
    simpl in *. exact IH.
Qed.

Lemma wrap_lines_no_linebreak t m :
  Forall (fun l => count_linebreaks l = 0%nat) (wrap_lines t m).
Proof.
  destruct (split t) as [|w rest] eqn:E.
  - rewrite wrap_lines_empty by exact E. constructor.
  - rewrite wrap_lines_greedy by (rewrite E; discriminate).
    apply Forall_map.
    eapply Forall_impl; [| intros l Hl; apply join_space_no_linebreak; exact Hl].
    apply greedy_words; [constructor | apply split_no_space].
Qed.

Lemma lines_from_length s : forall cur,
  (length (lines_from cur s) <= S (count_linebreaks s))%nat.
Proof.
  induction s as [|c s IH]; intros cur; simpl; [lia |].
  destruct (N.eqb_spec c NL) as [-> | Hc].
  - simpl. specialize (IH []). lia.
  - specialize (IH (cur ++ [c])). destruct (is_linebreak c); lia.
Qed.

Lemma lines_from_plain s : forall cur,
  Forall (fun c => c <> NL) s -> lines_from cur s = [cur ++ s].
Proof.
  induction s as [|c s IH]; intros cur Hs; simpl.
  - rewrite app_nil_r. reflexivity.
  - inversion Hs; subst.
    destruct (N.eqb_spec c NL); [contradiction |].
    rewrite IH by assumption. rewrite <- app_assoc. reflexivity.
Qed.

Lemma no_space_no_NL w : no_space w -> Forall (fun c => c <> NL) w.
Proof.
  intros Hw. eapply Forall_impl; [exact Hw |].
  intros c Hc ->. vm_compute in Hc. discriminate.
Qed.

End WrapFacts.

(** C3. Whatever the input string and the character budget, the wrapped text
    holds at most one line-break character, hence at most two lines. *)
Theorem wrap_at_most_two_lines (t : pystr) (max_chars : Z) :
  (count_linebreaks (wrap t max_chars) <= 1)%nat
  /\ (length (lines_of (wrap t max_chars)) <= 2)%nat.
Proof.
  assert (Hcount : (count_linebreaks (wrap t max_chars) <= 1)%nat).
  { unfold wrap, first2.
    pose proof (wrap_lines_no_linebreak t max_chars) as Hall.
    destruct (wrap_lines t max_chars) as [|l1 [|l2 rest]]; simpl.
    - lia.
    - inversion Hall; subst. lia.
    - inversion Hall as [|? ? H1 Hrest]; subst.
      inversion Hrest as [|? ? H2 _]; subst.
      rewrite count_linebreaks_app. simpl.
      change (is_linebreak NL) with true. lia. }
  split; [exact Hcount |].
  pose proof (lines_from_length (wrap t max_chars) []) as Hlen.
  unfold lines_of. lia.
Qed.

(** C4. The wrapper is the greedy algorithm of the specification: the words
    of the input, each joining the current line exactly when the lengths of
    the words on it, the separators between them and its own length stay
    within the budget, otherwise opening a new line; the first two lines are
    kept and joined by a line break. *)
Theorem wrap_is_greedy (t : pystr) (max_chars : Z) :
  wrap t max_chars
  = join [NL] (first2 (List.map (join [SP]) (greedy max_chars [] (split t))))
  /\ (forall line w,
        fits max_chars line w = true
        <-> fold_right Z.add 0 (List.map len line) + (len line - 1) + len w
            <= max_chars).
Proof.
  split.
  - apply wrap_greedy_wrap.
  - intros line w. unfold fits. rewrite Z.leb_le.
    replace (fold_right (fun x acc => len x + acc) 0 line)
      with (fold_right Z.add 0 (List.map len line)); [reflexivity |].
    induction line as [|x line IH]; simpl; [reflexivity | rewrite IH; reflexivity].
Qed.

(** C10. A first word longer than the budget plus one is never split: the
    output is an empty first line followed by that word, whole, as the
    second line. *)
Theorem wrap_overlong_first_word (t : pystr) (max_chars : Z) (w : pystr)
  (rest : list pystr) :
  split t = w :: rest ->
  len w > max_chars + 1 ->
  wrap t max_chars = [NL] ++ w
  /\ lines_of (wrap t max_chars) = [[]; w].
Proof.
  intros Hsplit Hlong.
  assert (Hwrap : wrap t max_chars = [NL] ++ w).
  { unfold wrap. rewrite wrap_lines_greedy by (rewrite Hsplit; discriminate).
    rewrite Hsplit. simpl.
    assert (Hfirst : fits max_chars [] w = false).
    { unfold fits. simpl. apply Z.leb_gt. unfold len at 1. simpl. lia. }
    rewrite Hfirst.
    destruct rest as [|w2 rest']; simpl; [reflexivity |].
    assert (Hnext : fits max_chars [w] w2 = false).
    { unfold fits. simpl. apply Z.leb_gt. unfold len at 2. simpl.
      unfold len in *. lia. }
    rewrite Hnext. simpl. reflexivity. }
  split; [exact Hwrap |].
  rewrite Hwrap. unfold lines_of. simpl.
  rewrite lines_from_plain; [reflexivity |].
  apply no_space_no_NL.
  pose proof (split_no_space t) as Hall. rewrite Hsplit in Hall.
  inversion Hall; assumption.
Qed.

Lemma wrap_overlong_first_word_witness :
  wrap (py "Supercalifragilistic b c") 5 = [NL] ++ py "Supercalifragilistic"
  /\ lines_of (wrap (py "Supercalifragilistic b c") 5)
     = [[]; py "Supercalifragilistic"].
Proof.
  apply (wrap_overlong_first_word (py "Supercalifragilistic b c") 5
           (py "Supercalifragilistic") [py "b"; py "c"]).
  - vm_compute. reflexivity.
  - vm_compute. reflexivity.
Defined.


(** ** Doubles: when a quotient of integers stays finite *)

Section FloatFacts.

Lemma digits2_pos_size p : digits2_pos p = Pos.size p.
Proof. induction p as [p IH | p IH |]; simpl; congruence. Qed.

Lemma Zdigits2_le m k : 0 <= m -> 0 <= k -> m < 2 ^ k -> Zdigits2 m <= k.
Proof.
  intros Hm Hk Hlt. destruct m as [|p|p]; simpl; [lia | | lia].
  rewrite digits2_pos_size.
  pose proof (Pos.size_le p) as Hsz.
  assert (H2 : 2 ^ Zpos (Pos.size p) <= 2 * Zpos p).
  { change (2 * Zpos p) with (Zpos p~0).
    rewrite <- Pos2Z.inj_pow. apply Pos2Z.pos_le_pos. exact Hsz. }
  destruct (Z_le_gt_dec (Zpos (Pos.size p)) k) as [Hle | Hgt]; [exact Hle |].
  exfalso.
  assert (2 ^ (k + 1) <= 2 ^ Zpos (Pos.size p))
    by (apply Z.pow_le_mono_r; lia).
  rewrite Z.pow_add_r in H by lia. lia.
Qed.

Lemma Zdigits2_gt m : 0 <= m -> m < 2 ^ Zdigits2 m.
Proof.
  intros Hm. destruct m as [|p|p]; simpl; [reflexivity | | lia].
  rewrite digits2_pos_size. rewrite <- Pos2Z.inj_pow.
  apply Pos2Z.pos_lt_pos. apply Pos.size_gt.
Qed.

Lemma Zdigits2_nonneg m : 0 <= Zdigits2 m.
Proof. destruct m; simpl; lia. Qed.

Lemma shr_1_m r : 0 <= shr_m r -> shr_m (shr_1 r) = shr_m r / 2.
Proof.
  destruct r as [m rb sb]; simpl. intros Hm.
  destruct m as [|[p|p|]|p]; simpl; try lia; try reflexivity.
  - rewrite Pos2Z.inj_xI. apply Z.div_unique with 1; lia.
  - rewrite Pos2Z.inj_xO. apply Z.div_unique with 0; lia.
Qed.

Lemma iter_shr_1_m p : forall r,
  0 <= shr_m r -> shr_m (SpecFloat.iter_pos shr_1 p r) = shr_m r / 2 ^ Zpos p.
Proof.
  induction p as [p IH | p IH |]; intros r Hr; cbn [SpecFloat.iter_pos].
  - assert (H1 : 0 <= shr_m (shr_1 r))
      by (rewrite shr_1_m by exact Hr; apply Z.div_pos; lia).
    assert (H2 : 0 <= shr_m (SpecFloat.iter_pos shr_1 p (shr_1 r)))
      by (rewrite IH by exact H1; apply Z.div_pos; lia).
    rewrite IH by exact H2. rewrite IH by exact H1. rewrite shr_1_m by exact Hr.
    rewrite !Z.div_div by lia.
    rewrite (Pos2Z.inj_xI p).
    replace (2 * Zpos p + 1) with (1 + Zpos p + Zpos p) by lia.
    rewrite !Z.pow_add_r by lia. rewrite Z.pow_1_r.
    f_equal. lia.
  - assert (H1 : 0 <= shr_m (SpecFloat.iter_pos shr_1 p r))
      by (rewrite IH by exact Hr; apply Z.div_pos; lia).
    rewrite IH by exact H1. rewrite IH by exact Hr.
    rewrite Z.div_div by lia.
    rewrite (Pos2Z.inj_xO p).
    replace (2 * Zpos p) with (Zpos p + Zpos p) by lia.
    rewrite Z.pow_add_r by lia. reflexivity.
  - rewrite shr_1_m by exact Hr. reflexivity.
Qed.

Lemma shr_record_of_loc_m m l : shr_m (shr_record_of_loc m l) = m.
Proof. destruct l as [|[]]; reflexivity. Qed.

Lemma round_nearest_even_range m l :
  m <= round_nearest_even m l <= m + 1.
Proof.
  unfold round_nearest_even. destruct l as [|[]]; try lia.
  destruct (Z.even m); lia.
Qed.

(** What [shr_fexp] leaves: a mantissa no longer than before, and an
    exponent that is the old one or the canonical one. *)
Lemma shr_fexp_bounds m e l k :
  0 <= m -> 0 <= k -> m < 2 ^ k ->
  let '(r, e') := shr_fexp fprec femax m e l in
  0 <= shr_m r
  /\ e' = Z.max e (fexp fprec femax (Zdigits2 m + e))
  /\ shr_m r < 2 ^ Z.max 0 (k - (e' - e)).
Proof.
  intros Hm Hk Hlt. unfold shr_fexp, shr.
  destruct (fexp fprec femax (Zdigits2 m + e) - e) as [|p|p] eqn:E.
  - rewrite shr_record_of_loc_m. repeat split; try lia.
    replace (Z.max 0 (k - (e - e))) with k by lia. exact Hlt.
  - rewrite iter_shr_1_m by (rewrite shr_record_of_loc_m; exact Hm).
    rewrite shr_record_of_loc_m.
    assert (Hpow : 0 < 2 ^ Zpos p) by (apply Z.pow_pos_nonneg; lia).
    split; [apply Z.div_pos; lia |].
    split; [lia |].
    replace (e + Zpos p - e) with (Zpos p) by lia.
    destruct (Z_le_gt_dec (Zpos p) k) as [Hle | Hgt].
    + rewrite Z.max_r by lia.
      apply Z.div_lt_upper_bound; [exact Hpow |].
      rewrite <- Z.pow_add_r by lia.
      replace (Zpos p + (k - Zpos p)) with k by lia. exact Hlt.
    + rewrite Z.max_l by lia. simpl.
      assert (m / 2 ^ Zpos p = 0).
      { apply Z.div_small. split; [exact Hm |].
        eapply Z.lt_le_trans; [exact Hlt |].
        apply Z.pow_le_mono_r; lia. }
      lia.
  - rewrite shr_record_of_loc_m. repeat split; try lia.
    replace (Z.max 0 (k - (e - e))) with k by lia. exact Hlt.
Qed.

Lemma fexp_le k n : k <= n -> -1074 <= n - 53 -> fexp fprec femax k <= n - 53.
Proof. unfold fexp, emin, fprec, femax. lia. Qed.

(** Rounding a non-negative mantissa whose value lies below [2^1022] gives
    a zero or a finite double no more than one binade higher. *)
Lemma binary_round_aux_shape sx mx ex lx :
  0 <= mx -> Zdigits2 mx + ex <= 1022 -> ex <= 969 ->
  binary_round_aux fprec femax sx mx ex lx = S754_zero sx
  \/ exists m e,
       binary_round_aux fprec femax sx mx ex lx = S754_finite sx m e
       /\ Zdigits2 (Zpos m) + e <= Z.max (Zdigits2 mx + ex) (-1074) + 1.
Proof.
  intros Hm Hk He. unfold binary_round_aux.
  pose proof (shr_fexp_bounds mx ex lx (Zdigits2 mx) Hm (Zdigits2_nonneg mx)
                (Zdigits2_gt mx Hm)) as H1.
  destruct (shr_fexp fprec femax mx ex lx) as [r1 e1].
  destruct H1 as (Hr1 & He1 & Hlt1).
  set (m1 := round_nearest_even (shr_m r1) (loc_of_shr_record r1)).
  pose proof (round_nearest_even_range (shr_m r1) (loc_of_shr_record r1)) as Hrange.
  fold m1 in Hrange.
  set (k1 := Z.max 0 (Zdigits2 mx - (e1 - ex))) in *.
  assert (Hk1 : 0 <= k1) by lia.
  assert (Hm1 : 0 <= m1) by lia.
  assert (Hm1lt : m1 < 2 ^ (k1 + 1)).
  { rewrite Z.pow_add_r by lia. lia. }
  pose proof (shr_fexp_bounds m1 e1 loc_Exact (k1 + 1) Hm1 ltac:(lia) Hm1lt) as H2.
  destruct (shr_fexp fprec femax m1 e1 loc_Exact) as [r2 e2].
  destruct H2 as (Hr2 & He2 & Hlt2).
  assert (Hd1 : Zdigits2 m1 <= k1 + 1) by (apply Zdigits2_le; lia).
  pose proof (Zdigits2_nonneg mx) as Hdm.
  assert (Hf1 : fexp fprec femax (Zdigits2 mx + ex)
                = Z.max (Zdigits2 mx + ex - 53) (-1074)) by reflexivity.
  assert (Hf2 : fexp fprec femax (Zdigits2 m1 + e1)
                = Z.max (Zdigits2 m1 + e1 - 53) (-1074)) by reflexivity.
  assert (He2b : e2 <= 971) by lia.
  destruct (shr_m r2) as [|m|m] eqn:Em; [left; reflexivity | | lia].
  right. exists m, e2.
  unfold femax, fprec.
  destruct (Z.leb_spec e2 (1024 - 53)); [| lia].
  split; [reflexivity |].
  assert (Hdig : Zdigits2 (Zpos m) <= Z.max 0 (k1 + 1 - (e2 - e1)))
    by (apply Zdigits2_le; lia).
  assert (1 <= Zdigits2 (Zpos m)) by (simpl; lia).
  lia.
Qed.

Lemma binary_round_aux_finite sx mx ex lx :
  0 <= mx -> Zdigits2 mx + ex <= 1022 -> ex <= 969 ->
  forall s, binary_round_aux fprec femax sx mx ex lx <> S754_infinity s.
Proof.
  intros Hm Hk He s.
  destruct (binary_round_aux_shape sx mx ex lx Hm Hk He) as [E | (m & e & E & _)];
    rewrite E; discriminate.
Qed.

Lemma digits2_pos_shift mx d :
  Zpos (digits2_pos (Pos.iter xO mx d)) = Zpos (digits2_pos mx) + Zpos d.
Proof.
  induction d as [|d IH] using Pos.peano_ind.
  - simpl. lia.
  - rewrite Pos.iter_succ. simpl digits2_pos. lia.
Qed.

Lemma shl_align_digits mx ex ex' :
  let '(mz, ez) := shl_align mx ex ex' in
  Zdigits2 (Zpos mz) + ez = Zdigits2 (Zpos mx) + ex /\ ez <= ex.
Proof.
  unfold shl_align. destruct (ex' - ex) as [|d|d] eqn:E; try (split; lia).
  simpl Zdigits2. rewrite digits2_pos_shift. lia.
Qed.

(** [float(n)] for a non-negative [int] below [2^1021]. *)
Lemma float_of_int_shape n :
  0 <= n < 2 ^ 1021 ->
  float_of_int n = Ok (S754_zero false)
  \/ exists m e,
       float_of_int n = Ok (S754_finite false m e)
       /\ Zdigits2 (Zpos m) + e <= Zdigits2 n + 1.
Proof.
  intros [Hn0 Hn]. unfold float_of_int, binary_normalize.
  destruct n as [|p|p]; [left; reflexivity | | lia].
  unfold binary_round.
  pose proof (shl_align_digits p 0 (fexp fprec femax (Zpos (digits2_pos p) + 0)))
    as Hal.
  destruct (shl_align p 0 (fexp fprec femax (Zpos (digits2_pos p) + 0)))
    as [mz ez].
  destruct Hal as [Hdig Hez].
  assert (Hd : Zdigits2 (Zpos p) <= 1021) by (apply Zdigits2_le; lia).
  assert (1 <= Zdigits2 (Zpos p)) by (simpl; lia).
  destruct (binary_round_aux_shape false (Zpos mz) ez loc_Exact)
    as [E | (m & e & E & Hb)]; try lia.
  - left. rewrite E. reflexivity.
  - right. exists m, e. rewrite E. split; [reflexivity | lia].
Qed.

(** [int(n * lit)] returns for every size the library accepts, [lit] being a
    positive double below 1. *)
Lemma int_scaled_total n ml el :
  0 <= n <= INT_MAX ->
  Zdigits2 (Zpos ml) + el <= 0 ->
  exists z, int_scaled n (S754_finite false ml el) = Ok z.
Proof.
  intros Hn Hlit. unfold int_scaled, int_mul_float.
  assert (Hn' : 0 <= n < 2 ^ 1021).
  { split; [lia |]. apply Z.le_lt_trans with INT_MAX; [lia |].
    apply Z.lt_trans with (2 ^ 32); [reflexivity |].
    apply Z.pow_lt_mono_r; lia. }
  assert (Hdn : Zdigits2 n <= 32).
  { apply Zdigits2_le; [lia | lia |].
    apply Z.le_lt_trans with INT_MAX; [lia | reflexivity]. }
  destruct (float_of_int_shape n Hn') as [E | (m & e & E & Hb)]; rewrite E.
  - exists 0. reflexivity.
  - cbn [rbind]. unfold float_mul, SFmul.
    assert (Hprod : Zdigits2 (Zpos (m * ml))
                    <= Zdigits2 (Zpos m) + Zdigits2 (Zpos ml)).
    { pose proof (Zdigits2_gt (Zpos m) ltac:(lia)).
      pose proof (Zdigits2_gt (Zpos ml) ltac:(lia)).
      pose proof (Zdigits2_nonneg (Zpos m)).
      pose proof (Zdigits2_nonneg (Zpos ml)).
      apply Zdigits2_le; [lia | lia |].
      rewrite Z.pow_add_r by lia. rewrite Pos2Z.inj_mul. nia. }
    assert (1 <= Zdigits2 (Zpos m)) by (simpl; lia).
    assert (1 <= Zdigits2 (Zpos ml)) by (simpl; lia).
    destruct (binary_round_aux_shape (xorb false false) (Zpos (m * ml))
                (e + el) loc_Exact) as [E2 | (m2 & e2 & E2 & _)];
      try lia; rewrite E2.
    + exists 0. reflexivity.
    + eexists. reflexivity.
Qed.

(** The quotient of a count below [2^1022] by a positive divisor is a
    double: the division does not overflow. *)
Lemma int_truediv_finite (v d : Z) :
  0 <= v < 2 ^ 1022 -> 0 < d ->
  int_truediv v d = Ok (SFdiv fprec femax (exact_int v) (exact_int d)).
Proof.
  intros [Hv0 Hv] Hd. unfold int_truediv.
  destruct (Z.eqb_spec d 0); [lia |].
  destruct v as [|pv|pv]; [destruct d; try lia; reflexivity | | lia].
  destruct d as [|pd|pd]; try lia.
  unfold exact_int, SFdiv, SFdiv_core_binary.
  set (e' := Z.min _ _).
  assert (He' : e' <= 0) by (subst e'; lia).
  replace (0 - 0 - e') with (- e') by lia.
  set (m' := match - e' with Z0 => Zpos pv | Zpos _ => Z.shiftl (Zpos pv) (- e')
             | Zneg _ => 0 end).
  assert (Hm' : m' = Zpos pv * 2 ^ (- e')).
  { subst m'. destruct (- e') eqn:E; try lia.
    rewrite Z.shiftl_mul_pow2 by lia. reflexivity. }
  pose proof (Z_div_mod m' (Zpos pd) ltac:(lia)) as Hdm.
  destruct (Z.div_eucl m' (Zpos pd)) as [q r] eqn:Eqr.
  destruct Hdm as [Hq Hr].
  assert (Hpow : 0 < 2 ^ (- e')) by (apply Z.pow_pos_nonneg; lia).
  assert (Hq0 : 0 <= q) by nia.
  assert (Hqle : q <= m') by nia.
  assert (Hqlt : q < 2 ^ (1022 - e')).
  { replace (1022 - e') with (1022 + - e') by lia.
    rewrite Z.pow_add_r by lia. nia. }
  assert (Hdig : Zdigits2 q <= 1022 - e') by (apply Zdigits2_le; lia).
  unfold check_finite.
  pose proof (binary_round_aux_finite (xorb false false) q e'
                (new_location (Zpos pd) r) Hq0 ltac:(lia) ltac:(lia)) as Hfin.
  destruct (binary_round_aux fprec femax (xorb false false) q e'
              (new_location (Zpos pd) r)) eqn:E; try reflexivity.
  exfalso. eapply Hfin. reflexivity.
Qed.

End FloatFacts.


(** ** The metadata formatters *)






(** ** Colour variants *)

Lemma range_covers (f : Z -> bool) (n : nat) :
  forallb f (range n) = true ->
  forall c, 0 <= c < Z.of_nat n -> f c = true.
Proof.
  intros Hall c Hc. rewrite forallb_forall in Hall. apply Hall.
  unfold range. apply in_map_iff. exists (Z.to_nat c). split; [lia |].
  apply in_seq. lia.
Qed.

Lemma variant_channel_all c : channel_in_range c -> variant_channel_ok c = true.
Proof.
  intros Hc. apply (range_covers variant_channel_ok 256).
  - vm_compute. reflexivity.
  - unfold channel_in_range in Hc. lia.
Qed.

Lemma variant_channel_facts c :
  channel_in_range c ->
  brighter_channel c = Ok (brighten_channel 105 100 c)
  /\ darker_channel c = Ok (brighten_channel 92 100 c)
  /\ channel_in_range (brighten_channel 105 100 c)
  /\ channel_in_range (brighten_channel 92 100 c).
Proof.
  intros Hc. pose proof (variant_channel_all c Hc) as Hok.
  unfold variant_channel_ok in Hok.
  destruct (brighter_channel c) as [hi |]; [| discriminate].
  destruct (darker_channel c) as [lo |]; [| discriminate].
  repeat (apply andb_true_iff in Hok as [Hok ?]).
  unfold channel_in_range.
  assert (hi = brighten_channel 105 100 c) by lia.
  assert (lo = brighten_channel 92 100 c) by lia.
  subst. repeat split; try reflexivity; lia.
Qed.

(** C8. For a base colour with channels in [0, 255], every channel of the
    brighter (x1.05) and of the darker (x0.92) variant is the channel
    multiplied by the factor, clamped to [0, 255] and floored, and so lies
    in [0, 255]; brightening (250, 250, 250) gives (255, 255, 255). *)
Theorem variants_clamped (r g b : Z) :
  channel_in_range r -> channel_in_range g -> channel_in_range b ->
  alt1_color (r, g, b)
  = Ok (brighten_channel 105 100 r, brighten_channel 105 100 g,
        brighten_channel 105 100 b)
  /\ alt2_color (r, g, b)
     = Ok (brighten_channel 92 100 r, brighten_channel 92 100 g,
           brighten_channel 92 100 b)
  /\ Forall channel_in_range
       [ brighten_channel 105 100 r; brighten_channel 105 100 g;
         brighten_channel 105 100 b; brighten_channel 92 100 r;
         brighten_channel 92 100 g; brighten_channel 92 100 b ]
  /\ alt1_color (250, 250, 250) = Ok (255, 255, 255).
Proof.
  intros Hr Hg Hb.
  destruct (variant_channel_facts r Hr) as (Hr1 & Hr2 & Hr3 & Hr4).
  destruct (variant_channel_facts g Hg) as (Hg1 & Hg2 & Hg3 & Hg4).
  destruct (variant_channel_facts b Hb) as (Hb1 & Hb2 & Hb3 & Hb4).
  split; [| split; [| split]].
  - unfold alt1_color, map_channels. rewrite Hr1, Hg1, Hb1. reflexivity.
  - unfold alt2_color, map_channels. rewrite Hr2, Hg2, Hb2. reflexivity.
  - repeat (apply List.Forall_cons; [assumption |]). apply List.Forall_nil.
  - vm_compute. reflexivity.
Qed.

Lemma variants_clamped_witness :
  alt1_color (220, 20, 60) = Ok (231, 21, 63)
  /\ alt2_color (220, 20, 60) = Ok (202, 18, 55).
Proof.
  destruct (variants_clamped 220 20 60) as (H1 & H2 & _);
    [unfold channel_in_range; lia .. |].
  split; [exact H1 | exact H2].
Defined.


(** ** The thumbnail factory *)

Lemma float_lit_16 : float_lit 16 100 = S754_finite false 0x147ae147ae147b (-55).
Proof. vm_compute. reflexivity. Qed.
Lemma float_lit_20 : float_lit 20 100 = S754_finite false 0x1999999999999a (-55).
Proof. vm_compute. reflexivity. Qed.

Lemma int_scaled_16 n : 0 <= n <= INT_MAX -> exists z, int_scaled n (float_lit 16 100) = Ok z.
Proof. intros Hn. rewrite float_lit_16. apply int_scaled_total; [exact Hn | vm_compute; discriminate]. Qed.
Lemma int_scaled_20 n : 0 <= n <= INT_MAX -> exists z, int_scaled n (float_lit 20 100) = Ok z.
Proof. intros Hn. rewrite float_lit_20. apply int_scaled_total; [exact Hn | vm_compute; discriminate]. Qed.

Lemma heap_lookup_eq (m : gmap nat picture) i x : <[i := x]> m !! i = Some x.
Proof. apply lookup_insert_eq. Qed.

Lemma heap_lookup_ne (m : gmap nat picture) i j x :
  i <> j -> <[i := x]> m !! j = m !! j.
Proof. apply lookup_insert_ne. Qed.

Lemma orb_ltb_false a b c d :
  a <= b -> c <= d -> (b <? a) || (d <? c) = false.
Proof. intros. apply orb_false_iff; split; apply Z.ltb_ge; assumption. Qed.

(** Symbolic execution of the factory inside a hypothesis: unfold the
    library calls, then alternate reduction, store lookups and the facts
    known about the size checks. *)
Ltac py_unfold_in H :=
  unfold Image_new, Image_convert, Image_alpha_composite, ImageDraw_Draw,
    Draw_polygon, Draw_rounded_rectangle, Draw_multiline_text,
    Image_putalpha, Image_paste, Image_filter_GaussianBlur,
    Image_alpha_composite_at, Image_resize, Image_size,
    bind, ret, raise, lift, alloc, deref, mutate, cache_get, cache_set,
    size_eqb in H.

Ltac py_lookup_in H :=
  repeat (rewrite heap_lookup_eq in H
          || rewrite heap_lookup_ne in H by (clear; lia)).

Ltac py_facts_in H :=
  repeat match goal with
         | E : ?c = true |- _ => rewrite E in H
         | E : ?c = false |- _ => rewrite E in H
         | E : ?c = Ok _ |- _ => rewrite E in H
         | E : ?c = None |- _ => rewrite E in H
         | E : textbbox _ _ = _ |- _ => rewrite E in H
         end.

Ltac py_step_in H :=
  cbn [heap next_id ASSET_CACHE fst snd pic_mode pic_size mode_eqb andb] in H;
  py_lookup_in H;
  rewrite ?Z.eqb_refl in H;
  py_facts_in H;
  change ((0 <? 0) || (0 <? 0)) with false in H;
  change ((16 <? 0) || (16 <? 0)) with false in H.

Ltac py_exec_in H := repeat (progress (py_step_in H)).

Ltac py_frame :=
  split; [cbn [next_id]; lia |];
  intros r Hr; cbn [heap next_id] in *;
  repeat (rewrite heap_lookup_ne by (clear - Hr; lia)); reflexivity.

Ltac py_bitmap :=
  eexists; split;
  [ cbn [heap];
    repeat (rewrite heap_lookup_eq || rewrite heap_lookup_ne by (clear; lia));
    reflexivity
  | split; reflexivity ].

Lemma gui_make_thumb_miss `{Platform} text color w h st :
  ASSET_CACHE st !! (text, color, (w, h)) = None ->
  exists st',
    preserves st st'
    /\ match gui_verdict (w, h) with
       | Rejected e =>
           Gui.make_thumb text color (w, h) st = (Raise e, st')
           /\ st' = st
       | Accepted =>
           Gui.make_thumb text color (w, h) st = (Ok (4 + next_id st)%nat, st')
           /\ bitmap_at st' (4 + next_id st) RGB (w, h)
           /\ ASSET_CACHE st'
              = <[(text, color, (w, h)) := (4 + next_id st)%nat]> (ASSET_CACHE st)
           /\ next_id st' = (5 + next_id st)%nat
       end.
Proof.
  intros Hmiss. destruct st as [hp n c]. cbn [ASSET_CACHE next_id] in *.
  remember (Gui.make_thumb text color (w, h)
              {| heap := hp; next_id := n; ASSET_CACHE := c |}) as out eqn:Hout.
  unfold Gui.make_thumb in Hout. py_unfold_in Hout.
  unfold gui_verdict.
  destruct ((w <? 0) || (h <? 0)) eqn:Eneg.
  { py_exec_in Hout. subst out. eexists. split; [| split; reflexivity].
    split; [lia | reflexivity]. }
  destruct ((INT_MAX <? w) || (INT_MAX <? h)) eqn:Ebig.
  { py_exec_in Hout. subst out. eexists. split; [| split; reflexivity].
    split; [lia | reflexivity]. }
  apply orb_false_iff in Eneg as Hneg. destruct Hneg as [Hw0%Z.ltb_ge Hh0%Z.ltb_ge].
  apply orb_false_iff in Ebig as Hbig. destruct Hbig as [Hw1%Z.ltb_ge Hh1%Z.ltb_ge].
  destruct (int_scaled_16 w ltac:(lia)) as [tw Etw].
  destruct (int_scaled_20 h ltac:(lia)) as [th Eth].
  destruct (textbbox (load_font (py "DejaVuSans.ttf") 28) (wrap text 24))
    as [[[x0 y0] x1] y1] eqn:Ebox.
  py_exec_in Hout. subst out.
  eexists. split; [| split; [reflexivity | split; [| split; reflexivity]]].
  - py_frame.
  - py_bitmap.
Qed.

Lemma better_make_thumb_miss `{Platform} text color w h st :
  ASSET_CACHE st !! (text, color, (w, h)) = None ->
  exists st',
    preserves st st'
    /\ match better_verdict (w, h) with
       | Rejected e =>
           Better.make_thumb text color (w, h) st = (Raise e, st')
           /\ ASSET_CACHE st' = ASSET_CACHE st
           /\ ((w <? 0) || (h <? 0) = true -> st' = st)
       | Accepted =>
           Better.make_thumb text color (w, h) st = (Ok (12 + next_id st)%nat, st')
           /\ bitmap_at st' (12 + next_id st) RGBA (w, h)
           /\ ASSET_CACHE st'
              = <[(text, color, (w, h)) := (12 + next_id st)%nat]> (ASSET_CACHE st)
           /\ next_id st' = (13 + next_id st)%nat
       end.
Proof.
  intros Hmiss. destruct st as [hp n c]. cbn [ASSET_CACHE next_id] in *.
  remember (Better.make_thumb text color (w, h)
              {| heap := hp; next_id := n; ASSET_CACHE := c |}) as out eqn:Hout.
  unfold Better.make_thumb, Better._apply_rounded, Better._rounded_shadow_rgba
    in Hout.
  py_unfold_in Hout.
  unfold better_verdict.
  change (w * 2 + 32) with (w * 2 + 16 * 2).
  change (h * 2 + 32) with (h * 2 + 16 * 2).
  destruct ((w <? 0) || (h <? 0)) eqn:Eneg.
  { assert (E2 : (w * 2 <? 0) || (h * 2 <? 0) = true).
    { apply orb_true_iff in Eneg as [Hc%Z.ltb_lt | Hc%Z.ltb_lt];
        apply orb_true_iff; [left | right]; apply Z.ltb_lt; lia. }
    clear Eneg. py_exec_in Hout. subst out.
    eexists. split; [| split; [reflexivity | split; reflexivity]].
    split; [lia | reflexivity]. }
  apply orb_false_iff in Eneg as Hneg. destruct Hneg as [Hw0%Z.ltb_ge Hh0%Z.ltb_ge].
  clear Eneg.
  assert (E2 : (w * 2 <? 0) || (h * 2 <? 0) = false)
    by (apply orb_ltb_false; lia).
  destruct ((INT_MAX <? w * 2) || (INT_MAX <? h * 2)) eqn:Ebig.
  { assert (E3 : (INT_MAX <? w * 2 + 16 * 2) || (INT_MAX <? h * 2 + 16 * 2) = true).
    { apply orb_true_iff in Ebig as [Hc%Z.ltb_lt | Hc%Z.ltb_lt];
        apply orb_true_iff; [left | right]; apply Z.ltb_lt; lia. }
    rewrite E3. clear E3. py_exec_in Hout. subst out.
    eexists. split; [| split; [reflexivity | split; [reflexivity | discriminate]]].
    split; [lia | reflexivity]. }
  apply orb_false_iff in Ebig as Hbig. destruct Hbig as [Hw1%Z.ltb_ge Hh1%Z.ltb_ge].
  destruct (int_scaled_16 (w * 2) ltac:(lia)) as [tw Etw].
  destruct (int_scaled_20 (h * 2) ltac:(lia)) as [th Eth].
  destruct (textbbox (load_font (py "DejaVuSans.ttf") 56) (wrap text 42))
    as [[[x0 y0] x1] y1] eqn:Ebox.
  assert (E4 : (w * 2 + 16 * 2 <? 0) || (h * 2 + 16 * 2 <? 0) = false)
    by (apply orb_ltb_false; lia).
  py_exec_in Hout.
  destruct ((INT_MAX <? w * 2 + 16 * 2) || (INT_MAX <? h * 2 + 16 * 2)) eqn:E3.
  { py_exec_in Hout. subst out.
    eexists. split; [| split; [reflexivity | split; [reflexivity | discriminate]]].
    py_frame. }
  apply orb_false_iff in E3 as Hfit. destruct Hfit as [Hw2%Z.ltb_ge Hh2%Z.ltb_ge].
  assert (E5 : (INT_MAX <? w) || (INT_MAX <? h) = false)
    by (apply orb_ltb_false; lia).
  py_exec_in Hout.
  destruct ((w <? 1) || (h <? 1)) eqn:E1.
  - py_exec_in Hout. subst out.
    eexists. split; [| split; [reflexivity | split; [reflexivity | discriminate]]].
    py_frame.
  - py_exec_in Hout. subst out.
    eexists. split; [| split; [reflexivity | split; [| split; reflexivity]]].
    + py_frame.
    + py_bitmap.
Qed.

Lemma gui_make_thumb_hit `{Platform} text color size st r :
  ASSET_CACHE st !! (text, color, size) = Some r ->
  Gui.make_thumb text color size st = (Ok r, st).
Proof.
  intros Hhit. unfold Gui.make_thumb, bind, cache_get, ret.
  rewrite Hhit. reflexivity.
Qed.

Lemma better_make_thumb_hit `{Platform} text color size st r :
  ASSET_CACHE st !! (text, color, size) = Some r ->
  Better.make_thumb text color size st = (Ok r, st).
Proof.
  intros Hhit. unfold Better.make_thumb, bind, cache_get, ret.
  rewrite Hhit. reflexivity.
Qed.

Lemma initial_state_wf m : cache_wf m initial_state.
Proof. intros text color size r Hr. cbn in Hr. rewrite lookup_empty in Hr. discriminate. Qed.

Lemma bitmap_at_preserved st st' r m size :
  preserves st st' -> (r < next_id st)%nat ->
  bitmap_at st r m size -> bitmap_at st' r m size.
Proof.
  intros [_ Hsame] Hr (p & Hp & Hm & Hs). exists p.
  rewrite Hsame by exact Hr. auto.
Qed.

(** A request that is answered with a fresh bitmap keeps the cache well
    formed. *)
Lemma cache_wf_insert m st st' k r :
  cache_wf m st -> preserves st st' ->
  ASSET_CACHE st' = <[k := r]> (ASSET_CACHE st) ->
  (r < next_id st')%nat -> bitmap_at st' r m (snd k) ->
  cache_wf m st'.
Proof.
  intros Hwf Hpres Hcache Hr Hbit text color size r' Hlook.
  rewrite Hcache in Hlook.
  destruct (decide (k = (text, color, size))) as [-> | Hne].
  - rewrite lookup_insert_eq in Hlook. injection Hlook as <-.
    split; [exact Hr | exact Hbit].
  - rewrite lookup_insert_ne in Hlook by exact Hne.
    destruct (Hwf _ _ _ _ Hlook) as [Hlt Hb].
    split; [destruct Hpres; lia |].
    eapply bitmap_at_preserved; eassumption.
Qed.







(** C2. A second call with the same key returns what the first call
    returned and leaves the cache as the first call left it; when the first
    call returned a bitmap, that bitmap is the cache entry of the key, the
    second call hands out the same object and allocates nothing. *)
Theorem make_thumb_idempotent `{Platform} (text : pystr) (color : rgb)
  (size : Z * Z) (st : state) :
  (let '(r1, st1) := Gui.make_thumb text color size st in
   let '(r2, st2) := Gui.make_thumb text color size st1 in
   r2 = r1 /\ ASSET_CACHE st2 = ASSET_CACHE st1
   /\ match r1 with
      | Ok ref => st2 = st1 /\ ASSET_CACHE st1 !! (text, color, size) = Some ref
      | Raise _ => ASSET_CACHE st1 = ASSET_CACHE st
      end)
  /\ (let '(r1, st1) := Better.make_thumb text color size st in
      let '(r2, st2) := Better.make_thumb text color size st1 in
      r2 = r1 /\ ASSET_CACHE st2 = ASSET_CACHE st1
      /\ match r1 with
         | Ok ref => st2 = st1 /\ ASSET_CACHE st1 !! (text, color, size) = Some ref
         | Raise _ => ASSET_CACHE st1 = ASSET_CACHE st
         end).
Proof.
  destruct size as [w h]. split.
  - destruct (ASSET_CACHE st !! (text, color, (w, h))) as [r |] eqn:Hlook.
    + rewrite (gui_make_thumb_hit _ _ _ _ _ Hlook).
      rewrite (gui_make_thumb_hit _ _ _ _ _ Hlook). auto.
    + destruct (gui_make_thumb_miss text color w h st Hlook)
        as (st1 & _ & Hout).
      destruct (gui_verdict (w, h)) as [e |] eqn:Hv.
      * destruct Hout as [Hrun ->]. rewrite Hrun, Hrun. auto.
      * destruct Hout as (Hrun & _ & Hcache & _). rewrite Hrun.
        assert (Hhit : ASSET_CACHE st1 !! (text, color, (w, h))
                       = Some (4 + next_id st)%nat)
          by (rewrite Hcache; apply lookup_insert_eq).
        rewrite (gui_make_thumb_hit _ _ _ _ _ Hhit). auto.
  - destruct (ASSET_CACHE st !! (text, color, (w, h))) as [r |] eqn:Hlook.
    + rewrite (better_make_thumb_hit _ _ _ _ _ Hlook).
      rewrite (better_make_thumb_hit _ _ _ _ _ Hlook). auto.
    + destruct (better_make_thumb_miss text color w h st Hlook)
        as (st1 & _ & Hout).
      destruct (better_verdict (w, h)) as [e |] eqn:Hv.
      * destruct Hout as (Hrun & Hcache & _). rewrite Hrun.
        assert (Hmiss1 : ASSET_CACHE st1 !! (text, color, (w, h)) = None)
          by (rewrite Hcache; exact Hlook).
        destruct (better_make_thumb_miss text color w h st1 Hmiss1)
          as (st2 & _ & Hout2).
        rewrite Hv in Hout2. destruct Hout2 as (Hrun2 & Hcache2 & _).
        rewrite Hrun2. auto.
      * destruct Hout as (Hrun & _ & Hcache & _). rewrite Hrun.
        assert (Hhit : ASSET_CACHE st1 !! (text, color, (w, h))
                       = Some (12 + next_id st)%nat)
          by (rewrite Hcache; apply lookup_insert_eq).
        rewrite (better_make_thumb_hit _ _ _ _ _ Hhit). auto.
Qed.





(** ** The mock catalog *)

Section CatalogFacts.

Lemma choice_logged {A} (seq : list A) (log : list Z) :
  seq <> [] ->
  exists x, choice seq log = Some (x, log ++ [len seq]).
Proof.
  intros Hne. unfold choice.
  destruct seq as [|a seq']; [congruence |].
  set (seq := a :: seq') in *.
  unfold rthen, randbelow, request_log.
  assert (Hlen : 0 < len seq) by (unfold len, seq; simpl; lia).
  pose proof (Z.mod_pos_bound (len log) (len seq) Hlen) as Hmod.
  destruct (Z.ltb_spec (len log mod len seq) 0); [lia |].
  destruct (lookup_lt_is_Some_2 seq (Z.to_nat (len log mod len seq)))
    as [x Hx]; [unfold len in *; lia |].
  exists x. rewrite Hx. reflexivity.
Qed.

Lemma randint_logged (a b : Z) (log : list Z) :
  a <= b ->
  exists r, randint a b log = Some (a + r, log ++ [b + 1 - a]).
Proof.
  intros Hab. unfold randint.
  destruct (Z.gtb_spec (b + 1 - a) 0); [| lia].
  unfold rthen, randbelow, request_log, rret. eexists. reflexivity.
Qed.

Lemma draw_video_logged (dash : pystr) (i : Z) (log : list Z) :
  exists v,
    draw_video (titles_with dash) i log = Some (v, log ++ record_requests).
Proof.
  unfold draw_video, rthen.
  destruct (choice_logged (titles_with dash) log) as [t Ht]; [discriminate |].
  rewrite Ht.
  destruct (choice_logged _channels (log ++ [len (titles_with dash)]))
    as [c Hc]; [discriminate |].
  rewrite Hc.
  match goal with |- context [randint 1000 2500000 ?l] =>
    destruct (randint_logged 1000 2500000 l) as [r1 H1]; [lia |]; rewrite H1 end.
  match goal with |- context [randint 0 900 ?l] =>
    destruct (randint_logged 0 900 l) as [r2 H2]; [lia |]; rewrite H2 end.
  match goal with |- context [randint 1 2 ?l] =>
    destruct (randint_logged 1 2 l) as [r3 H3]; [lia |]; rewrite H3 end.
  match goal with |- context [randint 0 59 ?l] =>
    destruct (randint_logged 0 59 l) as [r4 H4]; [lia |]; rewrite H4 end.
  match goal with |- context [randint 0 59 ?l] =>
    destruct (randint_logged 0 59 l) as [r5 H5]; [lia |]; rewrite H5 end.
  match goal with |- context [choice _palette ?l] =>
    destruct (choice_logged _palette l) as [c6 H6]; [discriminate |];
    rewrite H6 end.
  eexists. unfold rret. rewrite <- !app_assoc. reflexivity.
Qed.

Lemma append_videos_logged (indices : list Z) : forall videos log,
  exists more,
    Gui.append_videos videos indices log
    = Some (videos ++ more,
            log ++ concat (repeat record_requests (length indices)))
    /\ length more = length indices.
Proof.
  induction indices as [|i rest IH]; intros videos log; simpl.
  - exists []. rewrite !app_nil_r. split; reflexivity.
  - unfold rthen, Gui._titles.
    destruct (draw_video_logged [8212%N] i log) as [v Hv]. rewrite Hv.
    destruct (IH (videos ++ [v]) (log ++ record_requests)) as (more & Hm & Hlen).
    exists (v :: more). rewrite Hm. rewrite <- !app_assoc. simpl.
    split; [reflexivity | lia].
Qed.

Lemma comprehension_logged (indices : list Z) : forall log,
  exists videos,
    Better.comprehension indices log
    = Some (videos, log ++ concat (repeat record_requests (length indices)))
    /\ length videos = length indices.
Proof.
  induction indices as [|i rest IH]; intros log; simpl.
  - exists []. rewrite app_nil_r. split; reflexivity.
  - unfold rthen, Better._titles.
    destruct (draw_video_logged [8218%N; 196%N; 238%N] i log) as [v Hv].
    rewrite Hv.
    destruct (IH (log ++ record_requests)) as (videos & Hm & Hlen).
    exists (v :: videos). rewrite Hm. unfold rret. rewrite <- !app_assoc.
    simpl. split; [reflexivity | lia].
Qed.

Lemma range_length n : length (range n) = n.
Proof. unfold range. rewrite length_map, length_seq. reflexivity. Qed.

End CatalogFacts.

(** C7. The catalog is a function of the seed and the count alone: whatever
    the module-level names were bound to before, building it twice with the
    same seed gives the same generator state and the same records in the
    same order, in both files.  Each record asks the source for its title,
    channel, views, age, hour, minute, second and colour in that order, and
    seed 42 with count 24 yields 24 records. *)
Theorem catalog_deterministic (seed : Z) (count : nat) (env1 env2 : globals) :
  Gui.build_catalog seed count env1 = Gui.build_catalog seed count env2
  /\ Better.build_catalog seed count env1 = Better.build_catalog seed count env2
  /\ option_map snd (Gui.generate (G := list Z) count [])
     = Some (concat (repeat record_requests count))
  /\ option_map snd (Better.generate (G := list Z) count [])
     = Some (concat (repeat record_requests count))
  /\ first_logged_video Gui._titles
     = Some {| id := py "vid_0";
               title := py "How to Build a Python GUI Like YouTube";
               channel := py "UI Nerd";
               views := 1002;
               age_days := 3;
               duration := py "1:05:06";
               color := (220, 20, 60) |}
  /\ option_map (fun env => length (MOCK_VIDEOS env))
       (Gui.build_catalog 42 24 env1) = Some 24%nat
  /\ option_map (fun env => length (MOCK_VIDEOS env))
       (Better.build_catalog 42 24 env1) = Some 24%nat.
Proof.
  split; [reflexivity |]. split; [reflexivity |].
  split; [| split; [| split; [| split]]].
  - unfold Gui.generate.
    destruct (append_videos_logged (range count) [] []) as (more & Hm & _).
    rewrite Hm, range_length. reflexivity.
  - unfold Better.generate.
    destruct (comprehension_logged (range count) []) as (videos & Hm & _).
    rewrite Hm, range_length. reflexivity.
  - vm_compute. reflexivity.
  - vm_compute. reflexivity.
  - vm_compute. reflexivity.
Qed.

(** ** The word wrapper, further *)

Section WrapMore.

Lemma split_from_app_space (a : pystr) (c : codepoint) (b : pystr) :
  isspace c = true ->
  forall cur, split_from cur (a ++ c :: b) = split_from cur a ++ split b.
Proof.
  intros Hc. induction a as [|x a IH]; intros cur; simpl.
  - rewrite Hc. destruct cur; reflexivity.
  - destruct (isspace x).
    + destruct cur; [apply IH | rewrite IH; reflexivity].
    + apply IH.
Qed.

Lemma split_from_word (w : pystr) : forall cur,
  no_space w -> cur ++ w <> [] -> split_from cur w = [cur ++ w].
Proof.
  induction w as [|x w IH]; intros cur Hw Hne; simpl.
  - rewrite app_nil_r in *. destruct cur; [congruence | reflexivity].
  - inversion Hw as [|? ? Hx Hw']; subst. rewrite Hx.
    rewrite IH; [| exact Hw' | destruct cur; discriminate].
    rewrite <- app_assoc. reflexivity.
Qed.

Lemma split_join_space (words : list pystr) :
  Forall is_word words -> split (join [SP] words) = words.
Proof.
  induction 1 as [|w ws [Hne Hw] Hws IH]; [reflexivity |].
  destruct ws as [|w' ws'].
  - simpl. unfold split. apply split_from_word; assumption.
  - change (join [SP] (w :: w' :: ws'))
      with (w ++ SP :: join [SP] (w' :: ws')).
    unfold split at 1. rewrite split_from_app_space by reflexivity.
    rewrite IH. rewrite split_from_word by assumption. reflexivity.
Qed.

Lemma split_join_lines (c : codepoint) (lines : list pystr) :
  isspace c = true ->
  split (join [c] lines) = concat (List.map split lines).
Proof.
  intros Hc. induction lines as [|l ls IH]; [reflexivity |].
  destruct ls as [|l' ls'].
  - simpl. rewrite app_nil_r. reflexivity.
  - change (join [c] (l :: l' :: ls')) with (l ++ c :: join [c] (l' :: ls')).
    unfold split at 1. rewrite split_from_app_space by exact Hc.
    rewrite IH. reflexivity.
Qed.

Lemma split_words (t : pystr) : Forall is_word (split t).
Proof.
  pose proof (split_no_space t) as Hs.
  pose proof (split_from_nonempty t []) as Hn. fold (split t) in Hn.
  induction (split t) as [|w ws IH]; constructor.
  - inversion Hs; inversion Hn; subst. split; assumption.
  - inversion Hs; inversion Hn; subst. apply IH; assumption.
Qed.

Lemma greedy_nonempty m words : forall line, greedy m line words <> [].
Proof.
  induction words as [|w rest IH]; intros line; simpl; [discriminate |].
  destruct (fits m line w); [apply IH | discriminate].
Qed.

Lemma greedy_concat m words : forall line,
  concat (greedy m line words) = line ++ words.
Proof.
  induction words as [|w rest IH]; intros line; simpl.
  - rewrite !app_nil_r. reflexivity.
  - destruct (fits m line w).
    + rewrite IH, <- app_assoc. reflexivity.
    + simpl. rewrite IH. reflexivity.
Qed.

(** The first lines of a greedy wrap are the greedy wrap of the words they
    hold. *)
Lemma greedy_take m words : forall line k,
  exists kept,
    concat (take (S k) (greedy m line words)) = line ++ kept
    /\ greedy m line kept = take (S k) (greedy m line words)
    /\ exists dropped, words = kept ++ dropped.
Proof.
  induction words as [|w rest IH]; intros line k.
  - exists []. simpl. rewrite take_nil. simpl. rewrite !app_nil_r.
    split; [reflexivity | split; [reflexivity | exists []; reflexivity]].
  - simpl greedy at 1 3. destruct (fits m line w) eqn:Hfit.
    + destruct (IH (line ++ [w]) k) as (kept & Hc & Hg & dropped & Hd).
      exists (w :: kept). rewrite Hc, <- app_assoc. simpl. rewrite Hfit.
      split; [reflexivity | split; [exact Hg |]].
      exists dropped. rewrite Hd. reflexivity.
    + destruct k as [|k].
      * exists []. simpl. rewrite !app_nil_r.
        split; [reflexivity | split; [reflexivity |]].
        exists (w :: rest). reflexivity.
      * destruct (IH [w] k) as (kept & Hc & Hg & dropped & Hd).
        exists (w :: kept).
        change (take (S (S k)) (line :: greedy m [w] rest))
          with (line :: take (S k) (greedy m [w] rest)).
        simpl concat. rewrite Hc. simpl. rewrite Hfit, Hg.
        split; [reflexivity | split; [reflexivity |]].
        exists dropped. rewrite Hd. reflexivity.
Qed.

Lemma join_space_split (line : list pystr) :
  Forall is_word line -> split (join [SP] line) = line.
Proof. apply split_join_space. Qed.

Lemma greedy_lines_words m words : forall line,
  Forall is_word line -> Forall is_word words ->
  Forall (Forall is_word) (greedy m line words).
Proof. intros line Hl Hw. apply greedy_words; assumption. Qed.

(** The words of the wrapped text, read back. *)
Lemma split_wrap (t : pystr) (m : Z) :
  split (wrap t m) = concat (first2 (greedy m [] (split t))).
Proof.
  rewrite wrap_greedy_wrap. unfold greedy_wrap.
  rewrite split_join_lines by reflexivity.
  pose proof (greedy_lines_words m (split t) [] (List.Forall_nil _)
                (split_words t)) as Hall.
  unfold first2.
  assert (Htake : Forall (Forall is_word) (take 2 (greedy m [] (split t))))
    by (apply Forall_take; exact Hall).
  assert (Hmap : take 2 (List.map (join [SP]) (greedy m [] (split t)))
                 = List.map (join [SP]) (take 2 (greedy m [] (split t)))).
  { destruct (greedy m [] (split t)) as [|a [|b l]]; reflexivity. }
  rewrite Hmap. clear Hmap Hall.
  induction Htake as [|l ls Hl _ IH]; [reflexivity |].
  simpl. rewrite split_join_space by exact Hl. rewrite IH. reflexivity.
Qed.

Lemma len_join_space (line : list pystr) :
  line <> [] ->
  len (join [SP] line)
  = fold_right (fun x acc => len x + acc) 0 line + (len line - 1).
Proof.
  induction line as [|w ws IH]; [congruence |]. intros _.
  destruct ws as [|w' ws'].
  - unfold len. simpl. lia.
  - change (join [SP] (w :: w' :: ws'))
      with (w ++ SP :: join [SP] (w' :: ws')).
    assert (Hne : w' :: ws' <> []) by discriminate.
    specialize (IH Hne). unfold len in *. rewrite length_app. simpl in *. lia.
Qed.

Lemma len_app_one (line : list pystr) (w : pystr) :
  fold_right (fun x acc => len x + acc) 0 (line ++ [w])
  = fold_right (fun x acc => len x + acc) 0 line + len w.
Proof. induction line as [|x l IH]; simpl; [lia | rewrite IH; lia]. Qed.

Lemma greedy_line_lengths m words : forall line,
  (len (join [SP] line) <= m + 1 \/ (length line <= 1)%nat) ->
  Forall (fun l => len (join [SP] l) <= m + 1 \/ (length l <= 1)%nat)
         (greedy m line words).
Proof.
  induction words as [|w rest IH]; intros line Hline; simpl.
  - constructor; [exact Hline | constructor].
  - destruct (fits m line w) eqn:Hfit.
    + apply IH. destruct line as [|x line'].
      * right. simpl. lia.
      * left. rewrite len_join_space by (destruct line'; discriminate).
        unfold fits in Hfit. apply Z.leb_le in Hfit.
        rewrite len_app_one. unfold len in *. rewrite length_app. simpl in *.
        lia.
    + constructor; [exact Hline |]. apply IH. right. simpl. lia.
Qed.

Lemma greedy_lines_from m words : forall line l,
  In l (greedy m line words) -> forall w, In w l -> In w (line ++ words).
Proof.
  intros line l Hl w Hw. rewrite <- (greedy_concat m words line).
  apply in_concat. exists l. split; assumption.
Qed.

Lemma lines_of_join (lines : list pystr) :
  lines <> [] -> Forall (fun l => Forall (fun c => c <> NL) l) lines ->
  lines_of (join [NL] lines) = lines.
Proof.
  intros Hne Hall. revert Hne.
  induction Hall as [|l ls Hl Hls IH]; intros Hne;
    [exfalso; apply Hne; reflexivity |].
  destruct ls as [|l' ls'].
  - simpl. unfold lines_of. rewrite lines_from_plain by exact Hl. reflexivity.
  - change (join [NL] (l :: l' :: ls')) with (l ++ NL :: join [NL] (l' :: ls')).
    assert (Hgen : forall cur s rest,
               Forall (fun c => c <> NL) s ->
               lines_from cur (s ++ NL :: rest) = (cur ++ s) :: lines_from [] rest).
    { intros cur s rest Hs. revert cur.
      induction Hs as [|c s Hc _ IHs]; intros cur; simpl.
      - rewrite app_nil_r. reflexivity.
      - destruct (N.eqb_spec c NL); [contradiction |].
        rewrite IHs, <- app_assoc. reflexivity. }
    unfold lines_of. rewrite Hgen by exact Hl.
    f_equal. apply IH. discriminate.
Qed.

End WrapMore.

(** X1. Every line of the wrapped text is at most one character longer than
    the budget, unless it is a single word of the input (which is never
    split) or the empty line put before an overlong first word. *)
Theorem wrap_line_length (t : pystr) (max_chars : Z) :
  Forall (line_within max_chars t) (lines_of (wrap t max_chars)).
Proof.
  destruct (split t) as [|w0 rest0] eqn:Esplit.
  - unfold wrap. rewrite wrap_lines_empty by exact Esplit.
    constructor; [right; right; reflexivity | constructor].
  - assert (Hlines : wrap_lines t max_chars
                     = List.map (join [SP]) (greedy max_chars [] (split t)))
      by (apply wrap_lines_greedy; rewrite Esplit; discriminate).
    pose proof (greedy_line_lengths max_chars (split t) []
                  (or_intror (Nat.le_0_l 1))) as Hlen.
    pose proof (greedy_lines_words max_chars (split t) [] (List.Forall_nil _)
                  (split_words t)) as Hwords.
    assert (Hall : Forall (fun l => line_within max_chars t l
                                    /\ Forall (fun c => c <> NL) l)
                          (wrap_lines t max_chars)).
    { rewrite Hlines. apply Forall_map.
      rewrite List.Forall_forall. intros l Hin.
      rewrite List.Forall_forall in Hlen, Hwords.
      specialize (Hlen l Hin). specialize (Hwords l Hin).
      split.
      - destruct Hlen as [Hle | Hone]; [left; exact Hle |].
        destruct l as [|w [|w' l']]; simpl in Hone; try lia.
        + right. right. reflexivity.
        + right. left. simpl.
          apply (greedy_lines_from max_chars (split t) [] [w]);
            [exact Hin | left; reflexivity].
      - clear - Hwords.
        induction Hwords as [|w l [_ Hw] _ IH]; [constructor |].
        destruct l as [|w' l'].
        + simpl. apply no_space_no_NL. exact Hw.
        + change (join [SP] (w :: w' :: l'))
            with (w ++ SP :: join [SP] (w' :: l')).
          apply Forall_app. split; [apply no_space_no_NL; exact Hw |].
          constructor; [discriminate | exact IH]. }
    unfold wrap.
    assert (Hne : first2 (wrap_lines t max_chars) <> []).
    { rewrite Hlines.
      pose proof (greedy_nonempty max_chars (split t) []) as Hg.
      destruct (greedy max_chars [] (split t)); [congruence | discriminate]. }
    assert (Htake : Forall (fun l => line_within max_chars t l
                                     /\ Forall (fun c => c <> NL) l)
                           (first2 (wrap_lines t max_chars)))
      by (apply Forall_take; exact Hall).
    rewrite lines_of_join; [| exact Hne |].
    + eapply Forall_impl; [exact Htake |]. intros l [Hl _]. exact Hl.
    + eapply Forall_impl; [exact Htake |]. intros l [_ Hl]. exact Hl.
Qed.

(** X2. The wrapper never alters, reorders or splits a word: the words of
    the input are the words of the wrapped text followed by the words of the
    lines cut off after the second one. *)
Theorem wrap_keeps_words (t : pystr) (max_chars : Z) :
  split t = split (wrap t max_chars)
            ++ concat (List.map split (drop 2 (wrap_lines t max_chars))).
Proof.
  rewrite split_wrap.
  destruct (split t) as [|w rest] eqn:Esplit.
  - rewrite wrap_lines_empty by exact Esplit. reflexivity.
  - rewrite wrap_lines_greedy by (rewrite Esplit; discriminate).
    pose proof (greedy_lines_words max_chars (split t) [] (List.Forall_nil _)
                  (split_words t)) as Hall.
    rewrite Esplit in *.
    assert (Hback : forall g, Forall (Forall is_word) g ->
                      concat (List.map split (List.map (join [SP]) g))
                      = concat g).
    { induction 1 as [|l g Hl _ IH]; [reflexivity |].
      simpl. rewrite split_join_space by exact Hl. rewrite IH. reflexivity. }
    rewrite skipn_map, Hback by (apply Forall_drop; exact Hall).
    unfold first2. rewrite <- concat_app, take_drop.
    symmetry. apply (greedy_concat max_chars (w :: rest) []).
Qed.

(** X3. The wrapped text is empty exactly when the input holds no word (it
    is empty or all spaces). *)
Theorem wrap_empty_iff (t : pystr) (max_chars : Z) :
  wrap t max_chars = [] <-> split t = [].
Proof.
  split.
  - intros Hw. pose proof (split_wrap t max_chars) as Hs.
    rewrite Hw in Hs. change (split []) with (@nil pystr) in Hs.
    destruct (split t) as [|w rest] eqn:Esplit; [reflexivity |].
    exfalso.
    simpl in Hs. unfold first2 in Hs.
    destruct (fits max_chars [] w) eqn:Hfit.
    + destruct (greedy_take max_chars rest [w] 1) as (kept & Hc & _).
      simpl app in Hc. rewrite Hc in Hs. discriminate.
    + destruct (greedy_take max_chars rest [w] 0) as (kept & Hc & _).
      change (take 2 ([] :: greedy max_chars [w] rest))
        with ([] :: take 1 (greedy max_chars [w] rest)) in Hs.
      simpl concat in Hs. rewrite Hc in Hs. discriminate.
  - intros Hs. unfold wrap. rewrite wrap_lines_empty by exact Hs. reflexivity.
Qed.

(** X4. Wrapping is idempotent: wrapping the wrapped text again under the
    same budget changes nothing. *)
Theorem wrap_idempotent (t : pystr) (max_chars : Z) :
  wrap (wrap t max_chars) max_chars = wrap t max_chars.
Proof.
  rewrite (wrap_greedy_wrap (wrap t max_chars)). unfold greedy_wrap.
  rewrite split_wrap.
  destruct (greedy_take max_chars (split t) [] 1) as (kept & Hc & Hg & _).
  unfold first2 at 2. rewrite Hc. simpl app. rewrite Hg.
  rewrite wrap_greedy_wrap. unfold greedy_wrap, first2.
  f_equal.
  destruct (greedy max_chars [] (split t)) as [|a [|b l]]; reflexivity.
Qed.

(** ** The metadata formatters, further *)



(** ** Colour variants, further *)

Lemma variant_direction_all c :
  channel_in_range c -> variant_direction_ok c = true.
Proof.
  intros Hc. apply (range_covers variant_direction_ok 256).
  - vm_compute. reflexivity.
  - unfold channel_in_range in Hc. lia.
Qed.

(** X6. For a channel in [0, 255] the darker tint never raises it and the
    brighter tint never lowers it; the brighter tint leaves it unchanged
    exactly when it is below 20 or already 255, the darker tint exactly when
    it is 0. *)
Theorem variant_direction (c : Z) :
  channel_in_range c ->
  exists hi lo,
    brighter_channel c = Ok hi /\ darker_channel c = Ok lo
    /\ lo <= c <= hi
    /\ (hi = c <-> c < 20 \/ c = 255)
    /\ (lo = c <-> c = 0).
Proof.
  intros Hc. pose proof (variant_direction_all c Hc) as Hok.
  unfold variant_direction_ok in Hok.
  destruct (brighter_channel c) as [hi |]; [| discriminate].
  destruct (darker_channel c) as [lo |]; [| discriminate].
  exists hi, lo.
  repeat (apply andb_true_iff in Hok as [Hok ?]).
  apply Z.leb_le in Hok.
  repeat match goal with
         | E : (_ <=? _) = true |- _ => apply Z.leb_le in E
         | E : Bool.eqb _ _ = true |- _ => apply Bool.eqb_prop in E
         end.
  split; [reflexivity | split; [reflexivity | split; [lia |]]].
  split.
  - destruct (Z.eqb_spec hi c); destruct (Z.ltb_spec c 20);
      destruct (Z.eqb_spec c 255); simpl in *; try discriminate;
      split; intros; lia.
  - destruct (Z.eqb_spec lo c); destruct (Z.eqb_spec c 0);
      simpl in *; try discriminate; split; intros; lia.
Qed.

Lemma variant_direction_witness :
  exists hi lo,
    brighter_channel 220 = Ok hi /\ darker_channel 220 = Ok lo
    /\ lo <= 220 <= hi
    /\ (hi = 220 <-> 220 < 20 \/ 220 = 255)
    /\ (lo = 220 <-> 220 = 0).
Proof. apply (variant_direction 220). unfold channel_in_range. lia. Defined.

(** ** The thumbnail factory, further *)



Lemma cache_ok_initial m : cache_ok m initial_state.
Proof.
  split; [apply initial_state_wf |].
  intros k1 k2 r Hr. cbn in Hr. rewrite lookup_empty in Hr. discriminate.
Qed.

Lemma cache_grows_refl st : cache_grows st st.
Proof. intros k r Hr. exact Hr. Qed.

Lemma preserves_refl st : preserves st st.
Proof. split; [lia | reflexivity]. Qed.

(** An answer with a fresh object under a key that was free. *)
Lemma cache_ok_insert m st st' k r :
  cache_ok m st -> preserves st st' ->
  ASSET_CACHE st' = <[k := r]> (ASSET_CACHE st) ->
  ASSET_CACHE st !! k = None ->
  (next_id st <= r < next_id st')%nat -> bitmap_at st' r m (snd k) ->
  cache_ok m st' /\ cache_grows st st'.
Proof.
  intros [Hwf Hinj] Hpres Hcache Hfree Hr Hbit. split; [split |].
  - eapply cache_wf_insert; try eassumption. lia.
  - intros k1 k2 r' H1 H2. rewrite Hcache in H1, H2.
    destruct (decide (k = k1)) as [<- | N1];
      destruct (decide (k = k2)) as [<- | N2]; [reflexivity | | |].
    + rewrite lookup_insert_eq in H1. injection H1 as <-.
      rewrite lookup_insert_ne in H2 by exact N2.
      destruct k2 as [[t c] s]. destruct (Hwf _ _ _ _ H2). lia.
    + rewrite lookup_insert_eq in H2. injection H2 as <-.
      rewrite lookup_insert_ne in H1 by exact N1.
      destruct k1 as [[t c] s]. destruct (Hwf _ _ _ _ H1). lia.
    + rewrite lookup_insert_ne in H1 by exact N1.
      rewrite lookup_insert_ne in H2 by exact N2.
      exact (Hinj _ _ _ H1 H2).
  - intros k' r' Hk'. rewrite Hcache.
    destruct (decide (k = k')) as [<- | N]; [congruence |].
    rewrite lookup_insert_ne by exact N. exact Hk'.
Qed.

(** A call that leaves the cache alone and the old objects untouched. *)
Lemma cache_ok_frame m st st' :
  cache_ok m st -> preserves st st' -> ASSET_CACHE st' = ASSET_CACHE st ->
  cache_ok m st' /\ cache_grows st st'.
Proof.
  intros [Hwf Hinj] Hpres Hcache. split; [split |].
  - intros text color size r Hr. rewrite Hcache in Hr.
    destruct (Hwf _ _ _ _ Hr) as [Hlt Hb].
    split; [destruct Hpres; lia | eapply bitmap_at_preserved; eassumption].
  - intros k1 k2 r H1 H2. rewrite Hcache in H1, H2. exact (Hinj _ _ _ H1 H2).
  - intros k r Hr. rewrite Hcache. exact Hr.
Qed.

(** What one call of either factory does to a state that satisfies the
    invariant. *)
Lemma gui_call_step `{Platform} text color size st :
  cache_ok RGB st ->
  let st' := snd (Gui.make_thumb text color size st) in
  cache_ok RGB st' /\ cache_grows st st' /\ preserves st st'
  /\ forall k, k <> (text, color, size) ->
               ASSET_CACHE st' !! k = ASSET_CACHE st !! k.
Proof.
  intros Hok. destruct size as [w h].
  destruct (ASSET_CACHE st !! (text, color, (w, h))) as [r |] eqn:Hlook.
  - rewrite (gui_make_thumb_hit _ _ _ _ _ Hlook). cbn [snd].
    split; [exact Hok | split; [apply cache_grows_refl |]].
    split; [apply preserves_refl | reflexivity].
  - destruct (gui_make_thumb_miss text color w h st Hlook) as (st1 & Hpres & Hout).
    destruct (gui_verdict (w, h)).
    + destruct Hout as [Hrun ->]. rewrite Hrun. cbn [snd].
      split; [exact Hok | split; [apply cache_grows_refl |]].
      split; [apply preserves_refl | reflexivity].
    + destruct Hout as (Hrun & Hbit & Hcache & Hnext). rewrite Hrun. cbn [snd].
      destruct (cache_ok_insert RGB st st1 (text, color, (w, h))
                  (4 + next_id st)%nat Hok Hpres Hcache Hlook ltac:(lia) Hbit)
        as [Hok' Hgrow].
      split; [exact Hok' | split; [exact Hgrow | split; [exact Hpres |]]].
      intros k Hk. rewrite Hcache. apply lookup_insert_ne. congruence.
Qed.

Lemma better_call_step `{Platform} text color size st :
  cache_ok RGBA st ->
  let st' := snd (Better.make_thumb text color size st) in
  cache_ok RGBA st' /\ cache_grows st st' /\ preserves st st'
  /\ forall k, k <> (text, color, size) ->
               ASSET_CACHE st' !! k = ASSET_CACHE st !! k.
Proof.
  intros Hok. destruct size as [w h].
  destruct (ASSET_CACHE st !! (text, color, (w, h))) as [r |] eqn:Hlook.
  - rewrite (better_make_thumb_hit _ _ _ _ _ Hlook). cbn [snd].
    split; [exact Hok | split; [apply cache_grows_refl |]].
    split; [apply preserves_refl | reflexivity].
  - destruct (better_make_thumb_miss text color w h st Hlook)
      as (st1 & Hpres & Hout).
    destruct (better_verdict (w, h)).
    + destruct Hout as (Hrun & Hcache & _). rewrite Hrun. cbn [snd].
      destruct (cache_ok_frame RGBA st st1 Hok Hpres Hcache) as [Hok' Hgrow].
      split; [exact Hok' | split; [exact Hgrow | split; [exact Hpres |]]].
      intros k _. rewrite Hcache. reflexivity.
    + destruct Hout as (Hrun & Hbit & Hcache & Hnext). rewrite Hrun. cbn [snd].
      destruct (cache_ok_insert RGBA st st1 (text, color, (w, h))
                  (12 + next_id st)%nat Hok Hpres Hcache Hlook ltac:(lia) Hbit)
        as [Hok' Hgrow].
      split; [exact Hok' | split; [exact Hgrow | split; [exact Hpres |]]].
      intros k Hk. rewrite Hcache. apply lookup_insert_ne. congruence.
Qed.

Lemma gui_reached_ok `{Platform} st : reached Gui.make_thumb st -> cache_ok RGB st.
Proof.
  induction 1 as [| text color size st _ IH]; [apply cache_ok_initial |].
  apply (gui_call_step text color size st IH).
Qed.

Lemma better_reached_ok `{Platform} st :
  reached Better.make_thumb st -> cache_ok RGBA st.
Proof.
  induction 1 as [| text color size st _ IH]; [apply cache_ok_initial |].
  apply (better_call_step text color size st IH).
Qed.





(** X9. A call of [make_thumb], in either file and whatever its outcome,
    never evicts or replaces a cache entry, never touches an image object
    that existed before, and changes no entry but that of its own key. *)
Theorem make_thumb_never_evicts `{Platform} (text : pystr) (color : rgb)
  (size : Z * Z) (gui_state better_state : state) :
  cache_ok RGB gui_state -> cache_ok RGBA better_state ->
  let gui_after := snd (Gui.make_thumb text color size gui_state) in
  let better_after := snd (Better.make_thumb text color size better_state) in
  (cache_grows gui_state gui_after /\ preserves gui_state gui_after
   /\ forall k, k <> (text, color, size) ->
                ASSET_CACHE gui_after !! k = ASSET_CACHE gui_state !! k)
  /\ (cache_grows better_state better_after
      /\ preserves better_state better_after
      /\ forall k, k <> (text, color, size) ->
                   ASSET_CACHE better_after !! k
                   = ASSET_CACHE better_state !! k).
Proof.
  intros Hg Hb. split.
  - apply (gui_call_step text color size gui_state Hg).
  - apply (better_call_step text color size better_state Hb).
Qed.

Lemma make_thumb_never_evicts_witness :
  let gui_after :=
    snd (Gui.make_thumb (H := headless) (py "Night Drive") (30, 144, 255)
           (480, 270) initial_state) in
  let better_after :=
    snd (Better.make_thumb (H := headless) (py "Night Drive") (30, 144, 255)
           (480, 270) initial_state) in
  (cache_grows initial_state gui_after /\ preserves initial_state gui_after
   /\ forall k, k <> (py "Night Drive", (30, 144, 255), (480, 270)) ->
                ASSET_CACHE gui_after !! k = ASSET_CACHE initial_state !! k)
  /\ (cache_grows initial_state better_after
      /\ preserves initial_state better_after
      /\ forall k, k <> (py "Night Drive", (30, 144, 255), (480, 270)) ->
                   ASSET_CACHE better_after !! k
                   = ASSET_CACHE initial_state !! k).
Proof.
  apply (make_thumb_never_evicts (H := headless) (py "Night Drive")
           (30, 144, 255) (480, 270) initial_state initial_state);
    apply cache_ok_initial.
Defined.

(** X10. In every state reached through the factory of either file, each
    cache entry is a live bitmap of the size in its key (RGB in
    gui_concept.py, RGBA in better_gui_concept.py) and no bitmap is cached
    under two different keys. *)
Theorem cache_invariant `{Platform} (gui_state better_state : state) :
  reached Gui.make_thumb gui_state -> reached Better.make_thumb better_state ->
  (cache_wf RGB gui_state /\ cache_inj gui_state)
  /\ (cache_wf RGBA better_state /\ cache_inj better_state).
Proof.
  intros Hg Hb. split.
  - apply gui_reached_ok. exact Hg.
  - apply better_reached_ok. exact Hb.
Qed.

Lemma cache_invariant_witness :
  (cache_wf RGB
     (snd (Gui.make_thumb (H := headless) (py "Night Drive") (30, 144, 255)
             (480, 270) initial_state))
   /\ cache_inj
        (snd (Gui.make_thumb (H := headless) (py "Night Drive") (30, 144, 255)
                (480, 270) initial_state)))
  /\ (cache_wf RGBA
        (snd (Better.make_thumb (H := headless) (py "Night Drive")
                (30, 144, 255) (480, 270) initial_state))
      /\ cache_inj
           (snd (Better.make_thumb (H := headless) (py "Night Drive")
                   (30, 144, 255) (480, 270) initial_state))).
Proof.
  apply (cache_invariant (H := headless)); apply reached_call, reached_initial.
Defined.

(** ** The two helpers of the factory *)



(** ** The cards and the views *)

Lemma better_call_ok `{Platform} text color w h st :
  cache_ok RGBA st -> better_verdict (w, h) = Accepted ->
  exists r st',
    Better.make_thumb text color (w, h) st = (Ok r, st')
    /\ cache_ok RGBA st' /\ cache_grows st st' /\ preserves st st'
    /\ ASSET_CACHE st' !! (text, color, (w, h)) = Some r
    /\ bitmap_at st' r RGBA (w, h)
    /\ (is_Some (ASSET_CACHE st !! (text, color, (w, h))) -> st' = st).
Proof.
  intros Hok Hacc.
  destruct (ASSET_CACHE st !! (text, color, (w, h))) as [r |] eqn:Hlook.
  - exists r, st. rewrite (better_make_thumb_hit _ _ _ _ _ Hlook).
    destruct Hok as [Hwf Hinj].
    split; [reflexivity | split; [split; assumption |]].
    split; [apply cache_grows_refl | split; [apply preserves_refl |]].
    split; [exact Hlook | split; [apply (Hwf _ _ _ _ Hlook) | reflexivity]].
  - destruct (better_make_thumb_miss text color w h st Hlook)
      as (st1 & Hpres & Hout).
    rewrite Hacc in Hout. destruct Hout as (Hrun & Hbit & Hcache & Hnext).
    destruct (cache_ok_insert RGBA st st1 (text, color, (w, h))
                (12 + next_id st)%nat Hok Hpres Hcache Hlook ltac:(lia) Hbit)
      as [Hok' Hgrow].
    exists (12 + next_id st)%nat, st1.
    split; [exact Hrun | split; [exact Hok' | split; [exact Hgrow |]]].
    split; [exact Hpres | split; [| split; [exact Hbit |]]].
    + rewrite Hcache. apply lookup_insert_eq.
    + intros [x Hx]. discriminate.
Qed.

Lemma gui_call_ok `{Platform} text color w h st :
  cache_ok RGB st -> gui_verdict (w, h) = Accepted ->
  exists r st',
    Gui.make_thumb text color (w, h) st = (Ok r, st')
    /\ cache_ok RGB st' /\ cache_grows st st' /\ preserves st st'
    /\ ASSET_CACHE st' !! (text, color, (w, h)) = Some r
    /\ bitmap_at st' r RGB (w, h)
    /\ (is_Some (ASSET_CACHE st !! (text, color, (w, h))) -> st' = st).
Proof.
  intros Hok Hacc.
  destruct (ASSET_CACHE st !! (text, color, (w, h))) as [r |] eqn:Hlook.
  - exists r, st. rewrite (gui_make_thumb_hit _ _ _ _ _ Hlook).
    destruct Hok as [Hwf Hinj].
    split; [reflexivity | split; [split; assumption |]].
    split; [apply cache_grows_refl | split; [apply preserves_refl |]].
    split; [exact Hlook | split; [apply (Hwf _ _ _ _ Hlook) | reflexivity]].
  - destruct (gui_make_thumb_miss text color w h st Hlook)
      as (st1 & Hpres & Hout).
    rewrite Hacc in Hout. destruct Hout as (Hrun & Hbit & Hcache & Hnext).
    destruct (cache_ok_insert RGB st st1 (text, color, (w, h))
                (4 + next_id st)%nat Hok Hpres Hcache Hlook ltac:(lia) Hbit)
      as [Hok' Hgrow].
    exists (4 + next_id st)%nat, st1.
    split; [exact Hrun | split; [exact Hok' | split; [exact Hgrow |]]].
    split; [exact Hpres | split; [| split; [exact Hbit |]]].
    + rewrite Hcache. apply lookup_insert_eq.
    + intros [x Hx]. discriminate.
Qed.

Lemma cache_grows_trans a b c :
  cache_grows a b -> cache_grows b c -> cache_grows a c.
Proof. intros Hab Hbc k r Hr. apply Hbc, Hab, Hr. Qed.

Lemma preserves_trans a b c : preserves a b -> preserves b c -> preserves a c.
Proof.
  intros [Hn1 H1] [Hn2 H2]. split; [lia |].
  intros r Hr. rewrite H2 by lia. apply H1. exact Hr.
Qed.

Lemma card_size_accepted : better_verdict (480, 270) = Accepted.
Proof. reflexivity. Qed.

(** The frames of a card, by the state of the cache. *)
Lemma card_frames_ok `{Platform} (v : Video) (st : state) :
  cache_ok RGBA st -> video_ok v ->
  exists c1 c2 base alt1 alt2 st',
    alt1_color (color v) = Ok c1 /\ alt2_color (color v) = Ok c2
    /\ Better.card_frames v st = (Ok [base; alt1; alt2], st')
    /\ cache_ok RGBA st' /\ cache_grows st st' /\ preserves st st'
    /\ ASSET_CACHE st' !! (title v, color v, (480, 270)) = Some base
    /\ ASSET_CACHE st' !! (title v, c1, (480, 270)) = Some alt1
    /\ ASSET_CACHE st' !! (title v, c2, (480, 270)) = Some alt2
    /\ (is_Some (ASSET_CACHE st !! (title v, color v, (480, 270))) ->
        is_Some (ASSET_CACHE st !! (title v, c1, (480, 270))) ->
        is_Some (ASSET_CACHE st !! (title v, c2, (480, 270))) -> st' = st).
Proof.
  intros Hok Hv. unfold video_ok in Hv.
  destruct (color v) as [[r g] b] eqn:Ecolor.
  destruct Hv as (Hr & Hg & Hb & Hviews).
  destruct (variant_channel_facts r Hr) as (Hr1 & Hr2 & _).
  destruct (variant_channel_facts g Hg) as (Hg1 & Hg2 & _).
  destruct (variant_channel_facts b Hb) as (Hb1 & Hb2 & _).
  assert (E1 : alt1_color (r, g, b)
               = Ok (brighten_channel 105 100 r, brighten_channel 105 100 g,
                     brighten_channel 105 100 b))
    by (unfold alt1_color, map_channels; rewrite Hr1, Hg1, Hb1; reflexivity).
  assert (E2 : alt2_color (r, g, b)
               = Ok (brighten_channel 92 100 r, brighten_channel 92 100 g,
                     brighten_channel 92 100 b))
    by (unfold alt2_color, map_channels; rewrite Hr2, Hg2, Hb2; reflexivity).
  set (c1 := (brighten_channel 105 100 r, brighten_channel 105 100 g,
              brighten_channel 105 100 b)) in *.
  set (c2 := (brighten_channel 92 100 r, brighten_channel 92 100 g,
              brighten_channel 92 100 b)) in *.
  destruct (better_call_ok (title v) (r, g, b) 480 270 st Hok card_size_accepted)
    as (base & st1 & Hrun1 & Hok1 & Hgrow1 & Hpres1 & Hin1 & _ & Hsame1).
  destruct (better_call_ok (title v) c1 480 270 st1 Hok1 card_size_accepted)
    as (alt1 & st2 & Hrun2 & Hok2 & Hgrow2 & Hpres2 & Hin2 & _ & Hsame2).
  destruct (better_call_ok (title v) c2 480 270 st2 Hok2 card_size_accepted)
    as (alt2 & st3 & Hrun3 & Hok3 & Hgrow3 & Hpres3 & Hin3 & _ & Hsame3).
  exists c1, c2, base, alt1, alt2, st3.
  split; [exact E1 | split; [exact E2 |]].
  split.
  { unfold Better.card_frames, bind, lift, ret. rewrite Ecolor.
    rewrite Hrun1, E1, Hrun2, E2, Hrun3. reflexivity. }
  split; [exact Hok3 |].
  split; [eapply cache_grows_trans; [| exact Hgrow3];
          eapply cache_grows_trans; eassumption |].
  split; [eapply preserves_trans; [| exact Hpres3];
          eapply preserves_trans; eassumption |].
  split; [apply Hgrow3, Hgrow2, Hin1 |].
  split; [apply Hgrow3, Hin2 |].
  split; [exact Hin3 |].
  intros A B C.
  pose proof (Hsame1 A) as ->. pose proof (Hsame2 B) as ->.
  exact (Hsame3 C).
Qed.

Lemma variant_direction_facts c :
  channel_in_range c ->
  brighten_channel 92 100 c <= c <= brighten_channel 105 100 c
  /\ (brighten_channel 105 100 c = c <-> tint_fixed c)
  /\ (brighten_channel 92 100 c = c <-> c = 0).
Proof.
  intros Hc. pose proof (variant_direction_all c Hc) as Hok.
  destruct (variant_channel_facts c Hc) as (Hhi & Hlo & _).
  unfold variant_direction_ok in Hok. rewrite Hhi, Hlo in Hok.
  repeat (apply andb_true_iff in Hok as [Hok ?]).
  repeat match goal with
         | E : (_ <=? _) = true |- _ => apply Z.leb_le in E
         | E : Bool.eqb _ _ = true |- _ => apply Bool.eqb_prop in E
         end.
  unfold tint_fixed. split; [lia | split].
  - destruct (Z.eqb_spec (brighten_channel 105 100 c) c);
      destruct (Z.ltb_spec c 20); destruct (Z.eqb_spec c 255);
      simpl in *; try discriminate; split; intros; lia.
  - destruct (Z.eqb_spec (brighten_channel 92 100 c) c);
      destruct (Z.eqb_spec c 0); simpl in *; try discriminate;
      split; intros; lia.
Qed.

Lemma fmt_views_total (v : Z) :
  0 <= v < 2 ^ 1022 ->
  exists s, Gui.fmt_views v = Ok s /\ Better.fmt_views v = Ok s.
Proof.
  intros Hv. unfold Gui.fmt_views, Better.fmt_views, rmap.
  destruct (v >=? 1000000).
  - rewrite int_truediv_finite by lia. eexists. split; reflexivity.
  - destruct (v >=? 1000).
    + rewrite int_truediv_finite by lia. eexists. split; reflexivity.
    + eexists. split; reflexivity.
Qed.

(** X12. The three frames of a video card (better_gui_concept.py), for a
    colour with channels in [0, 255]: three RGBA bitmaps of 480 by 270,
    made on the first request and taken from the cache on every later one.
    The darker frame is the base frame itself only for black, the brighter
    frame only when the tint leaves every channel in place (below 20, or
    255). *)
Theorem card_frames_shape `{Platform} (v : Video) (st : state) :
  cache_ok RGBA st -> video_ok v ->
  exists base alt1 alt2 st',
    Better.card_frames v st = (Ok [base; alt1; alt2], st')
    /\ Forall (fun r => bitmap_at st' r RGBA (480, 270)) [base; alt1; alt2]
    /\ cache_ok RGBA st'
    /\ Better.card_frames v st' = (Ok [base; alt1; alt2], st')
    /\ (base = alt1 <->
        let '(r, g, b) := color v in
        tint_fixed r /\ tint_fixed g /\ tint_fixed b)
    /\ (base = alt2 <-> color v = (0, 0, 0))
    /\ (alt1 = alt2 <-> color v = (0, 0, 0)).
Proof.
  intros Hok Hv.
  destruct (card_frames_ok v st Hok Hv)
    as (c1 & c2 & base & alt1 & alt2 & st' & E1 & E2 & Hrun & Hok' & Hgrow
        & Hpres & Hb & Ha1 & Ha2 & _).
  exists base, alt1, alt2, st'.
  split; [exact Hrun |].
  destruct Hok' as [Hwf Hinj].
  split.
  { repeat (apply List.Forall_cons;
            [eapply Hwf; eassumption |]). apply List.Forall_nil. }
  split; [split; assumption |].
  split.
  { destruct (card_frames_ok v st' (conj Hwf Hinj) Hv)
      as (c1' & c2' & base' & alt1' & alt2' & st'' & E1' & E2' & Hrun' & _
          & Hgrow' & _ & Hb' & Ha1' & Ha2' & Hsame).
    assert (c1' = c1) by congruence. assert (c2' = c2) by congruence. subst.
    assert (st'' = st') as -> by (apply Hsame; eexists; eassumption).
    rewrite Hrun'. repeat f_equal; congruence. }
  unfold video_ok in Hv. destruct (color v) as [[r g] b] eqn:Ecolor.
  destruct Hv as (Hr & Hg & Hbl & _).
  destruct (variant_channel_facts r Hr) as (Hr1 & Hr2 & _).
  destruct (variant_channel_facts g Hg) as (Hg1 & Hg2 & _).
  destruct (variant_channel_facts b Hbl) as (Hb1 & Hb2 & _).
  unfold alt1_color, alt2_color, map_channels in E1, E2.
  rewrite Hr1, Hg1, Hb1 in E1. rewrite Hr2, Hg2, Hb2 in E2.
  cbn [rbind] in E1, E2. injection E1 as <-. injection E2 as <-.
  destruct (variant_direction_facts r Hr) as (Or & Fr & Zr).
  destruct (variant_direction_facts g Hg) as (Og & Fg & Zg).
  destruct (variant_direction_facts b Hbl) as (Ob & Fb & Zb).
  split; [| split].
  - split.
    + intros <-. pose proof (Hinj _ _ _ Hb Ha1) as Hk.
      injection Hk as Kr Kg Kb.
      split; [apply Fr; congruence | split; [apply Fg | apply Fb]; congruence].
    + intros (Tr & Tg & Tb).
      apply Fr in Tr. apply Fg in Tg. apply Fb in Tb.
      rewrite Tr, Tg, Tb in Ha1. congruence.
  - split.
    + intros <-. pose proof (Hinj _ _ _ Hb Ha2) as Hk.
      injection Hk as Kr Kg Kb.
      f_equal; [f_equal |]; [apply Zr | apply Zg | apply Zb]; congruence.
    + intros Hk. injection Hk as -> -> ->.
      change (brighten_channel 92 100 0) with 0 in Ha2. congruence.
  - split.
    + intros <-. pose proof (Hinj _ _ _ Ha1 Ha2) as Hk.
      injection Hk as Kr Kg Kb.
      f_equal; [f_equal |]; [apply Zr | apply Zg | apply Zb]; lia.
    + intros Hk. injection Hk as -> -> ->.
      change (brighten_channel 92 100 0) with 0 in Ha2.
      change (brighten_channel 105 100 0) with 0 in Ha1. congruence.
Qed.

Lemma demo_video_ok : video_ok demo_video.
Proof. unfold video_ok, channel_in_range. cbn [color views demo_video]. repeat split; lia. Qed.

Lemma card_frames_shape_witness :
  exists base alt1 alt2 st',
    Better.card_frames (H := headless) demo_video initial_state
    = (Ok [base; alt1; alt2], st')
    /\ Forall (fun r => bitmap_at st' r RGBA (480, 270)) [base; alt1; alt2]
    /\ cache_ok RGBA st'
    /\ Better.card_frames (H := headless) demo_video st'
       = (Ok [base; alt1; alt2], st')
    /\ (base = alt1 <-> tint_fixed 0 /\ tint_fixed 191 /\ tint_fixed 255)
    /\ (base = alt2 <-> (0, 191, 255) = (0, 0, 0))
    /\ (alt1 = alt2 <-> (0, 191, 255) = (0, 0, 0)).
Proof.
  apply (card_frames_shape (H := headless) demo_video initial_state).
  - apply cache_ok_initial.
  - apply demo_video_ok.
Defined.

Lemma frames_cached_grows st st' v :
  cache_grows st st' -> frames_cached st v -> frames_cached st' v.
Proof.
  intros Hgrow (c1 & c2 & E1 & E2 & [a Ha] & [b Hb] & [c Hc]).
  exists c1, c2. split; [exact E1 | split; [exact E2 |]].
  split; [| split]; eexists; apply Hgrow; eassumption.
Qed.

Lemma image_cached_grows st st' v :
  cache_grows st st' -> image_cached st v -> image_cached st' v.
Proof. intros Hgrow [a Ha]. eexists. apply Hgrow. eassumption. Qed.

Lemma better_card_ok `{Platform} (v : Video) (st : state) :
  cache_ok RGBA st -> video_ok v ->
  exists card st',
    Better.VideoCard v st = (Ok card, st')
    /\ Better.video card = v /\ Better.cell card = None
    /\ cache_ok RGBA st' /\ cache_grows st st' /\ preserves st st'
    /\ frames_cached st' v
    /\ (frames_cached st v -> st' = st).
Proof.
  intros Hok Hv.
  destruct (card_frames_ok v st Hok Hv)
    as (c1 & c2 & base & alt1 & alt2 & st' & E1 & E2 & Hrun & Hok' & Hgrow
        & Hpres & Hb & Ha1 & Ha2 & Hsame).
  assert (Hviews : 0 <= views v < 2 ^ 1022).
  { unfold video_ok in Hv. destruct (color v) as [[r g] b]. tauto. }
  destruct (fmt_views_total (views v) Hviews) as (s & _ & Hs).
  eexists. exists st'.
  split.
  { unfold Better.VideoCard, bind, lift, ret. rewrite Hrun.
    cbn [Better.HoverThumb_init Better.frame_at lookup rbind].
    rewrite Hs. reflexivity. }
  split; [reflexivity | split; [reflexivity |]].
  split; [exact Hok' | split; [exact Hgrow | split; [exact Hpres |]]].
  split.
  - exists c1, c2. split; [exact E1 | split; [exact E2 |]].
    split; [| split]; eexists; eassumption.
  - intros (c1' & c2' & E1' & E2' & A & B & C).
    assert (c1' = c1) by congruence. assert (c2' = c2) by congruence. subst.
    apply Hsame; assumption.
Qed.

Lemma gui_card_ok `{Platform} (v : Video) (st : state) :
  cache_ok RGB st -> video_ok v ->
  exists card st',
    Gui.VideoCard v st = (Ok card, st')
    /\ Gui.video card = v /\ Gui.cell card = None
    /\ cache_ok RGB st' /\ cache_grows st st' /\ preserves st st'
    /\ image_cached st' v
    /\ (image_cached st v -> st' = st).
Proof.
  intros Hok Hv.
  destruct (gui_call_ok (title v) (color v) 480 270 st Hok eq_refl)
    as (img & st' & Hrun & Hok' & Hgrow & Hpres & Hin & _ & Hsame).
  assert (Hviews : 0 <= views v < 2 ^ 1022).
  { unfold video_ok in Hv. destruct (color v) as [[r g] b]. tauto. }
  destruct (fmt_views_total (views v) Hviews) as (s & Hs & _).
  eexists. exists st'.
  split.
  { unfold Gui.VideoCard, bind, lift, ret. rewrite Hrun, Hs. reflexivity. }
  split; [reflexivity | split; [reflexivity |]].
  split; [exact Hok' | split; [exact Hgrow | split; [exact Hpres |]]].
  split; [eexists; exact Hin | exact Hsame].
Qed.

Lemma better_populate_from_ok `{Platform} (videos : list Video) :
  forall (i : Z) (cards : list Better.Card) (st : state),
    cache_ok RGBA st -> Forall video_ok videos ->
    exists new st',
      Better.populate_from i videos cards st = (Ok (cards ++ new), st')
      /\ List.map Better.video new = videos
      /\ (forall (j : nat) c, new !! j = Some c ->
            Better.cell c = Some ((i + Z.of_nat j) / 4, (i + Z.of_nat j) mod 4))
      /\ cache_ok RGBA st' /\ cache_grows st st' /\ preserves st st'
      /\ Forall (frames_cached st') videos
      /\ (Forall (frames_cached st) videos -> st' = st).
Proof.
  induction videos as [|v rest IH]; intros i cards st Hok Hall.
  - exists [], st. rewrite app_nil_r.
    split; [reflexivity | split; [reflexivity |]].
    split; [intros j c Hj; destruct j; discriminate |].
    split; [exact Hok | split; [apply cache_grows_refl |]].
    split; [apply preserves_refl | split; [constructor | reflexivity]].
  - inversion Hall as [|? ? Hv Hrest]; subst.
    destruct (better_card_ok v st Hok Hv)
      as (card & st1 & Hrun & Hvid & Hcell & Hok1 & Hgrow1 & Hpres1 & Hc1
          & Hsame1).
    destruct (IH (i + 1) (cards ++ [Better.grid_at card (i / 4) (i mod 4)])
                st1 Hok1 Hrest)
      as (new & st2 & Hrun2 & Hvids & Hcells & Hok2 & Hgrow2 & Hpres2 & Hc2
          & Hsame2).
    exists (Better.grid_at card (i / 4) (i mod 4) :: new), st2.
    split.
    { cbn [Better.populate_from]. unfold bind at 1. rewrite Hrun.
      rewrite Hrun2, <- app_assoc. reflexivity. }
    split; [cbn [List.map Better.grid_at Better.video]; congruence |].
    split.
    { intros j c Hj. destruct j as [|j].
      - injection Hj as <-. cbn [Better.grid_at Better.cell].
        rewrite Z.add_0_r. reflexivity.
      - cbn [lookup list_lookup] in Hj. rewrite (Hcells j c Hj).
        replace (i + 1 + Z.of_nat j) with (i + Z.of_nat (S j)) by lia.
        reflexivity. }
    split; [exact Hok2 |].
    split; [eapply cache_grows_trans; eassumption |].
    split; [eapply preserves_trans; eassumption |].
    split.
    { constructor; [eapply frames_cached_grows; eassumption | exact Hc2]. }
    intros Hcached. inversion Hcached as [|? ? Hcv Hcrest]; subst.
    pose proof (Hsame1 Hcv) as ->. apply Hsame2. exact Hcrest.
Qed.

Lemma gui_populate_from_ok `{Platform} (videos : list Video) :
  forall (i : Z) (cards : list Gui.Card) (st : state),
    cache_ok RGB st -> Forall video_ok videos ->
    exists new st',
      Gui.populate_from i videos cards st = (Ok (cards ++ new), st')
      /\ List.map Gui.video new = videos
      /\ (forall (j : nat) c, new !! j = Some c ->
            Gui.cell c = Some ((i + Z.of_nat j) / 4, (i + Z.of_nat j) mod 4))
      /\ cache_ok RGB st' /\ cache_grows st st' /\ preserves st st'
      /\ Forall (image_cached st') videos
      /\ (Forall (image_cached st) videos -> st' = st).
Proof.
  induction videos as [|v rest IH]; intros i cards st Hok Hall.
  - exists [], st. rewrite app_nil_r.
    split; [reflexivity | split; [reflexivity |]].
    split; [intros j c Hj; destruct j; discriminate |].
    split; [exact Hok | split; [apply cache_grows_refl |]].
    split; [apply preserves_refl | split; [constructor | reflexivity]].
  - inversion Hall as [|? ? Hv Hrest]; subst.
    destruct (gui_card_ok v st Hok Hv)
      as (card & st1 & Hrun & Hvid & Hcell & Hok1 & Hgrow1 & Hpres1 & Hc1
          & Hsame1).
    destruct (IH (i + 1) (cards ++ [Gui.grid_at card (i / 4) (i mod 4)])
                st1 Hok1 Hrest)
      as (new & st2 & Hrun2 & Hvids & Hcells & Hok2 & Hgrow2 & Hpres2 & Hc2
          & Hsame2).
    exists (Gui.grid_at card (i / 4) (i mod 4) :: new), st2.
    split.
    { cbn [Gui.populate_from]. unfold bind at 1. rewrite Hrun.
      rewrite Hrun2, <- app_assoc. reflexivity. }
    split; [cbn [List.map Gui.grid_at Gui.video]; congruence |].
    split.
    { intros j c Hj. destruct j as [|j].
      - injection Hj as <-. cbn [Gui.grid_at Gui.cell].
        rewrite Z.add_0_r. reflexivity.
      - cbn [lookup list_lookup] in Hj. rewrite (Hcells j c Hj).
        replace (i + 1 + Z.of_nat j) with (i + Z.of_nat (S j)) by lia.
        reflexivity. }
    split; [exact Hok2 |].
    split; [eapply cache_grows_trans; eassumption |].
    split; [eapply preserves_trans; eassumption |].
    split.
    { constructor; [eapply image_cached_grows; eassumption | exact Hc2]. }
    intros Hcached. inversion Hcached as [|? ? Hcv Hcrest]; subst.
    pose proof (Hsame1 Hcv) as ->. apply Hsame2. exact Hcrest.
Qed.

Lemma row_major_cells {Card} (cell : Card -> option (Z * Z)) (cards : list Card) :
  (forall (j : nat) c, cards !! j = Some c ->
     cell c = Some ((0 + Z.of_nat j) / 4, (0 + Z.of_nat j) mod 4)) ->
  row_major (List.map cell cards).
Proof.
  intros Hcells i c Hi.
  change (List.map cell cards) with (cell <$> cards) in Hi.
  rewrite list_lookup_fmap in Hi.
  destruct (cards !! i) as [card |] eqn:Hcard; [| discriminate].
  injection Hi as <-. apply (Hcells i card Hcard).
Qed.

(** The videos a selection shows are videos of the catalog. *)
Lemma insert_by_views_forall (P : Video -> Prop) v sorted :
  P v -> Forall P sorted -> Forall P (insert_by_views v sorted).
Proof.
  intros Hv Hs. induction Hs as [|x rest Hx Hrest IH]; simpl.
  - repeat constructor. exact Hv.
  - destruct (views x <=? views v); repeat constructor; assumption.
Qed.

Lemma sorted_by_views_forall (P : Video -> Prop) videos :
  Forall P videos -> Forall P (sorted_by_views videos).
Proof.
  induction 1 as [|v rest Hv Hrest IH]; simpl; [constructor |].
  apply insert_by_views_forall; assumption.
Qed.

Lemma nav_selection_forall (P : Video -> Prop) key videos shown :
  Forall P videos -> nav_selection key videos = Some shown -> Forall P shown.
Proof.
  intros Hall. unfold nav_selection.
  repeat match goal with
         | |- context [if ?c then _ else _] => destruct c
         end; intros E; try discriminate; injection E as <-.
  - exact Hall.
  - apply Forall_take. exact Hall.
  - apply Forall_rev. exact Hall.
  - apply Forall_take, Forall_drop. exact Hall.
  - apply Forall_take, sorted_by_views_forall. exact Hall.
Qed.













(** The sort by falling views. *)
Lemma insert_by_views_perm v sorted :
  Permutation (v :: sorted) (insert_by_views v sorted).
Proof.
  induction sorted as [|x rest IH]; simpl; [reflexivity |].
  destruct (views x <=? views v); [reflexivity |].
  rewrite perm_swap. constructor. exact IH.
Qed.

Lemma sorted_by_views_perm videos : Permutation videos (sorted_by_views videos).
Proof.
  induction videos as [|v rest IH]; simpl; [reflexivity |].
  rewrite <- insert_by_views_perm. constructor. exact IH.
Qed.

Lemma insert_by_views_sorted v sorted :
  falling_views sorted -> falling_views (insert_by_views v sorted).
Proof.
  induction sorted as [|x rest IH]; simpl; intros Hs.
  - split; [constructor | exact I].
  - destruct Hs as [Hx Hrest].
    destruct (Z.leb_spec (views x) (views v)) as [Hle | Hgt]; simpl.
    + split; [| split; assumption].
      constructor; [exact Hle |].
      eapply Forall_impl; [exact Hx |]. intros y Hy. simpl in Hy. lia.
    + split; [| apply IH; exact Hrest].
      rewrite <- insert_by_views_perm. constructor; [lia | exact Hx].
Qed.

Lemma sorted_by_views_sorted videos : falling_views (sorted_by_views videos).
Proof.
  induction videos as [|v rest IH]; simpl; [exact I |].
  apply insert_by_views_sorted. exact IH.
Qed.

Lemma falling_views_split (n : nat) (l : list Video) :
  falling_views l ->
  falling_views (take n l)
  /\ forall x y, In x (take n l) -> In y (drop n l) -> views y <= views x.
Proof.
  revert n. induction l as [|a l IH]; intros n Hs.
  - rewrite take_nil. split; [exact I | intros x y []].
  - destruct n as [|n]; [split; [exact I | intros x y []] |].
    destruct Hs as [Ha Hl].
    destruct (IH n Hl) as [Hsorted Hcross]. cbn [take drop firstn skipn]. split.
    + split; [apply Forall_take; exact Ha | exact Hsorted].
    + intros x y [<- | Hx] Hy.
      * rewrite List.Forall_forall in Ha. apply Ha.
        rewrite <- (take_drop n l). apply in_or_app. right. exact Hy.
      * apply Hcross; assumption.
Qed.

(** X14. The "Liked" view shows the most viewed videos: at most 12 of them,
    by falling number of views, and no video left out has more views than
    one that is shown; shown and hidden videos together are the catalog. *)
Theorem liked_shows_most_viewed (videos : list Video) :
  exists shown hidden,
    nav_selection (py "liked") videos = Some shown
    /\ Permutation videos (shown ++ hidden)
    /\ length shown = Nat.min 12 (length videos)
    /\ falling_views shown
    /\ forall x y, In x shown -> In y hidden -> views y <= views x.
Proof.
  exists (take 12 (sorted_by_views videos)), (drop 12 (sorted_by_views videos)).
  destruct (falling_views_split 12 _ (sorted_by_views_sorted videos))
    as [Hsorted Hcross].
  split; [reflexivity | split; [| split; [| split]]].
  - rewrite take_drop. apply sorted_by_views_perm.
  - rewrite length_take, <- (Permutation_length (sorted_by_views_perm videos)).
    lia.
  - exact Hsorted.
  - exact Hcross.
Qed.

(** X15. Of the six keys the side bar offers, "scenes" alone has no branch
    in [_on_nav]: choosing it leaves the grid as it is, in both files.
    The collapsed side bar of gui_concept.py offers the other five, and
    every selection consists of videos of the catalog. *)
Theorem nav_keys_and_branches `{Platform} (env : globals) (key : pystr)
  (gui_cards : list Gui.Card) (better_cards : list Better.Card) (st : state) :
  In key nav_keys ->
  (nav_selection key (MOCK_VIDEOS env) = None <-> key = py "scenes")
  /\ (In key collapsed_nav_keys <-> key <> py "scenes")
  /\ Gui._on_nav env (py "scenes") gui_cards st = (Ok gui_cards, st)
  /\ Better._on_nav env (py "scenes") better_cards st = (Ok better_cards, st)
  /\ forall shown,
       nav_selection key (MOCK_VIDEOS env) = Some shown ->
       forall v, In v shown -> In v (MOCK_VIDEOS env).
Proof.
  intros Hkey. split; [| split; [| split; [| split]]].
  - simpl in Hkey.
    destruct Hkey as [<- | [<- | [<- | [<- | [<- | [<- | []]]]]]];
      (split; [intros E | intros E]); try reflexivity;
      try (vm_compute in E; discriminate); discriminate.
  - simpl in Hkey.
    destruct Hkey as [<- | [<- | [<- | [<- | [<- | [<- | []]]]]]];
      (split; [intros E | intros E]);
      try (vm_compute; discriminate);
      try (simpl; tauto);
      try (exfalso; apply E; reflexivity).
    simpl in E.
    destruct E as [E | [E | [E | [E | [E | []]]]]]; vm_compute in E; discriminate.
  - reflexivity.
  - reflexivity.
  - intros shown Hshown v Hv.
    assert (Hall : Forall (fun x => In x (MOCK_VIDEOS env)) (MOCK_VIDEOS env))
      by (apply List.Forall_forall; auto).
    pose proof (nav_selection_forall _ _ _ _ Hall Hshown) as Hsub.
    rewrite List.Forall_forall in Hsub. apply Hsub. exact Hv.
Qed.

Lemma nav_keys_and_branches_witness :
  (nav_selection (py "history") [] = None <-> py "history" = py "scenes")
  /\ (In (py "history") collapsed_nav_keys <-> py "history" <> py "scenes").
Proof.
  destruct (nav_keys_and_branches (H := headless) blank_globals (py "history")
              [] [] initial_state) as (H1 & H2 & _).
  - simpl. tauto.
  - split; [exact H1 | exact H2].
Defined.









Lemma bitmap_at_grows st st' r m size :
  preserves st st' -> cache_wf m st ->
  forall text color, ASSET_CACHE st !! (text, color, size) = Some r ->
  bitmap_at st' r m size.
Proof.
  intros Hpres Hwf text color Hr. destruct (Hwf _ _ _ _ Hr) as [Hlt Hb].
  eapply bitmap_at_preserved; eassumption.
Qed.





(** ** The hover button *)

Lemma hover_inv_init (first : nat) (rest : list nat) (n : nat) :
  exists b,
    Better.HoverThumb_init (first :: rest) = Ok b
    /\ hover_inv (first :: rest) (b, {| timers := []; next_timer := n |}).
Proof.
  eexists. split; [reflexivity |].
  split; [reflexivity | split; [| split]].
  - exists first. split; reflexivity.
  - reflexivity.
  - cbn. split; [discriminate | intros [x Hx]; discriminate].
Qed.

Lemma cancel_only (job next : nat) :
  after_cancel job {| timers := [job]; next_timer := next |}
  = {| timers := []; next_timer := next |}.
Proof. unfold after_cancel. cbn. rewrite Nat.eqb_refl. reflexivity. Qed.

Lemma hover_inv_step (images : list nat) (e : Better.event)
  (w : Better.HoverThumb * Tk) :
  hover_inv images w ->
  exists w', Better.deliver e w = Ok w' /\ hover_inv images w'.
Proof.
  destruct w as [[frames hover idx job shown] [pending next]].
  intros (Hframes & (im & Him & Himage) & Htimers & Hhover).
  cbn [fst snd Better._frames Better._idx Better.image Better._hover
       Better._cycle_job timers] in *.
  subst frames.
  destruct e as [| | fired].
  - (* the pointer enters *)
    cbn [Better.deliver Better._enter Better._frames Better._idx].
    unfold Better.frame_at. rewrite Him. cbn [rbind].
    destruct job as [j |].
    + eexists. split; [reflexivity |].
      split; [reflexivity | split; [| split]].
      * exists im. split; [exact Him | reflexivity].
      * exact Htimers.
      * cbn. split; [eexists; reflexivity | reflexivity].
    + eexists. split; [reflexivity |]. subst pending.
      split; [reflexivity | split; [| split]].
      * exists im. split; [exact Him | reflexivity].
      * reflexivity.
      * cbn. split; [eexists; reflexivity | reflexivity].
  - (* the pointer leaves *)
    cbn [Better.deliver Better._leave Better._frames Better._idx
         Better._cycle_job].
    unfold Better.frame_at. rewrite Him. cbn [rbind].
    destruct job as [j |].
    + eexists. split; [reflexivity |]. subst pending. rewrite cancel_only.
      split; [reflexivity | split; [| split]].
      * exists im. split; [exact Him | reflexivity].
      * reflexivity.
      * cbn. split; [discriminate | intros [x Hx]; discriminate].
    + eexists. split; [reflexivity |].
      split; [reflexivity | split; [| split]].
      * exists im. split; [exact Him | reflexivity].
      * exact Htimers.
      * cbn. split; [discriminate | intros [x Hx]; discriminate].
  - (* a timer fires *)
    cbn [Better.deliver snd fst timers].
    destruct (existsb (Nat.eqb fired) pending) eqn:Hfired.
    + destruct job as [j |]; subst pending; [| discriminate].
      cbn in Hfired. rewrite orb_false_r in Hfired.
      apply Nat.eqb_eq in Hfired. subst fired. rewrite cancel_only.
      assert (Hlen : (idx < length images)%nat)
        by (apply lookup_lt_is_Some; eexists; exact Him).
      unfold Better.tick. cbn [Better._frames Better._idx Better._hover].
      destruct (length images) as [|n] eqn:Elen; [lia |].
      assert (Hnext : (S idx mod S n < length images)%nat)
        by (rewrite Elen; apply Nat.mod_upper_bound; lia).
      destruct (lookup_lt_is_Some_2 images _ Hnext) as [im' Him'].
      unfold Better.frame_at. rewrite Him'. cbn [rbind after next_timer timers].
      eexists. split; [reflexivity |].
      split; [reflexivity | split; [| split]].
      * exists im'. split; [exact Him' | reflexivity].
      * reflexivity.
      * cbn. split; [eexists; reflexivity |].
        intros _. apply Hhover. eexists. reflexivity.
    + eexists. split; [reflexivity |].
      split; [reflexivity | split; [| split]].
      * exists im. split; [exact Him | exact Himage].
      * exact Htimers.
      * exact Hhover.
Qed.

(** X19. Whatever the sequence of events (pointer in, pointer out, timers
    firing, in any order and number), a hover button made with at least one
    frame never raises, keeps its index within its frames, shows the frame
    at its index, enlarged exactly while the pointer is over it, and has a
    timer pending exactly while the pointer is over it, never more than
    one. *)
Theorem hover_thumb_invariant (first : nat) (rest : list nat)
  (events : list Better.event) (clock : nat) :
  exists b w,
    Better.HoverThumb_init (first :: rest) = Ok b
    /\ Better.deliver_all events (b, {| timers := []; next_timer := clock |})
       = Ok w
    /\ hover_inv (first :: rest) w
    /\ (length (timers (snd w)) <= 1)%nat
    /\ (Better._idx (fst w) < length (first :: rest))%nat.
Proof.
  destruct (hover_inv_init first rest clock) as (b & Hb & Hinv).
  exists b.
  assert (Hrun : forall w0, hover_inv (first :: rest) w0 ->
            exists w, Better.deliver_all events w0 = Ok w
                      /\ hover_inv (first :: rest) w).
  { induction events as [|e events IH]; intros w0 H0.
    - exists w0. split; [reflexivity | exact H0].
    - destruct (hover_inv_step _ e w0 H0) as (w1 & Hstep & H1).
      destruct (IH w1 H1) as (w & Hrest & Hw).
      exists w. split; [| exact Hw].
      cbn [Better.deliver_all]. rewrite Hstep. exact Hrest. }
  destruct (Hrun _ Hinv) as (w & Hw & Hinvw).
  exists w. split; [exact Hb | split; [exact Hw | split; [exact Hinvw |]]].
  destruct Hinvw as (_ & (im & Him & _) & Htimers & _).
  split.
  - rewrite Htimers. destruct (Better._cycle_job (fst w)); simpl; lia.
  - apply lookup_lt_is_Some. eexists. exact Him.
Qed.

Lemma ticks_advance (images : list nat) (k : nat) :
  forall (b : Better.HoverThumb) (job : nat),
    hover_inv images (b, {| timers := [job]; next_timer := S job |}) ->
    exists b',
      Better.deliver_all (List.map Better.Timer (seq job k))
        (b, {| timers := [job]; next_timer := S job |})
      = Ok (b', {| timers := [(job + k)%nat]; next_timer := S (job + k) |})
      /\ hover_inv images
           (b', {| timers := [(job + k)%nat]; next_timer := S (job + k) |})
      /\ Better._idx b' = ((Better._idx b + k) mod length images)%nat
      /\ Better._hover b' = Better._hover b.
Proof.
  induction k as [|k IH]; intros b job Hinv.
  - exists b. rewrite !Nat.add_0_r. split; [reflexivity |].
    split; [exact Hinv | split; [| reflexivity]].
    destruct Hinv as (_ & (im & Him & _) & _).
    symmetry. apply Nat.mod_small. apply lookup_lt_is_Some. eexists. exact Him.
  - destruct b as [frames hover idx cjob shown].
    pose proof Hinv as (Hframes & (im & Him & Himage) & Htimers & Hhover).
    cbn [fst snd Better._frames Better._idx Better.image Better._hover
         Better._cycle_job timers] in *.
    subst frames. destruct cjob as [j |]; [| discriminate].
    injection Htimers as <-.
    assert (Hlen : (idx < length images)%nat)
      by (apply lookup_lt_is_Some; eexists; exact Him).
    destruct (length images) as [|n] eqn:Elen; [lia |].
    assert (Hnext : (S idx mod S n < length images)%nat)
      by (rewrite Elen; apply Nat.mod_upper_bound; lia).
    destruct (lookup_lt_is_Some_2 images _ Hnext) as [im' Him'].
    set (b1 := {| Better._frames := images; Better._hover := hover;
                  Better._idx := (S idx mod S n)%nat;
                  Better._cycle_job := Some (S job);
                  Better.image := (hover, im') |}).
    assert (Hstep : Better.deliver (Better.Timer job)
                      ({| Better._frames := images; Better._hover := hover;
                          Better._idx := idx; Better._cycle_job := Some job;
                          Better.image := shown |},
                       {| timers := [job]; next_timer := S job |})
                    = Ok (b1, {| timers := [S job]; next_timer := S (S job) |})).
    { cbn [Better.deliver snd fst timers existsb]. rewrite Nat.eqb_refl.
      cbn [orb]. rewrite cancel_only.
      unfold Better.tick. cbn [Better._frames Better._idx Better._hover].
      rewrite Elen. unfold Better.frame_at. rewrite Him'. reflexivity. }
    assert (Hinv1 : hover_inv images
                      (b1, {| timers := [S job]; next_timer := S (S job) |})).
    { split; [reflexivity | split; [| split]].
      - exists im'. split; [exact Him' | reflexivity].
      - reflexivity.
      - cbn. split; [eexists; reflexivity |].
        intros _. apply Hhover. eexists. reflexivity. }
    destruct (IH b1 (S job) Hinv1) as (b' & Hrun & Hinv' & Hidx & Hhov).
    exists b'.
    replace (job + S k)%nat with (S job + k)%nat by lia.
    split; [| split; [exact Hinv' | split; [| exact Hhov]]].
    + cbn [seq List.map Better.deliver_all]. rewrite Hstep. exact Hrun.
    + rewrite Hidx. cbn [Better._idx b1].
      rewrite Nat.Div0.add_mod_idemp_l. f_equal. lia.
Qed.

(** X20. While the pointer rests on a hover button its frames are shown in
    turn, one per tick: after [k] ticks it shows frame [k mod n] of its [n]
    frames, enlarged.  When the pointer leaves, the button keeps that frame
    in normal size (the index is not reset) and no timer stays pending. *)
Theorem hover_cycles_frames (first : nat) (rest : list nat)
  (clock k : nat) :
  let images := first :: rest in
  exists b0 b tk im,
    Better.HoverThumb_init images = Ok b0
    /\ Better.deliver_all
         (Better.Enter :: List.map Better.Timer (seq clock k) ++ [Better.Leave])
         (b0, {| timers := []; next_timer := clock |}) = Ok (b, tk)
    /\ Better._idx b = (k mod length images)%nat
    /\ images !! (k mod length images)%nat = Some im
    /\ Better.image b = (false, im)
    /\ Better._hover b = false /\ Better._cycle_job b = None
    /\ timers tk = [].
Proof.
  intros images.
  set (b1 := {| Better._frames := images; Better._hover := true;
                Better._idx := 0%nat; Better._cycle_job := Some clock;
                Better.image := (true, first) |}).
  assert (Hinv1 : hover_inv images
                    (b1, {| timers := [clock]; next_timer := S clock |})).
  { split; [reflexivity | split; [| split]].
    - exists first. split; reflexivity.
    - reflexivity.
    - cbn. split; [eexists; reflexivity | reflexivity]. }
  destruct (ticks_advance images k b1 clock Hinv1)
    as (b2 & Hrun & Hinv2 & Hidx & Hhov).
  cbn [Better._idx b1 Nat.add] in Hidx.
  destruct (hover_inv_step images Better.Leave _ Hinv2) as (w3 & Hleave & Hinv3).
  destruct b2 as [frames hover idx cjob shown].
  pose proof Hinv2 as (Hframes & (im & Him & Himage) & Htimers & Hhover).
  cbn [fst snd Better._frames Better._idx Better.image Better._hover
       Better._cycle_job timers] in *.
  subst frames idx. destruct cjob as [j |]; [| discriminate].
  injection Htimers as <-.
  eexists. exists {| Better._frames := images; Better._hover := false;
                     Better._idx := (k mod length images)%nat;
                     Better._cycle_job := None; Better.image := (false, im) |}.
  exists {| timers := []; next_timer := S (clock + k) |}, im.
  split; [reflexivity |].
  split.
  { cbn [Better.deliver_all]. 
    change (Better.deliver Better.Enter
              ({| Better._frames := images; Better._hover := false;
                  Better._idx := 0%nat; Better._cycle_job := None;
                  Better.image := (false, first) |},
               {| timers := []; next_timer := clock |}))
      with (Ok (b1, {| timers := [clock]; next_timer := S clock |})).
    cbn [rbind].
    assert (Happ : forall evs1 evs2 w w1,
               Better.deliver_all evs1 w = Ok w1 ->
               Better.deliver_all (evs1 ++ evs2) w = Better.deliver_all evs2 w1).
    { induction evs1 as [|e evs1 IHe]; intros evs2 w w1 Hw.
      - injection Hw as <-. reflexivity.
      - cbn [app Better.deliver_all] in *.
        destruct (Better.deliver e w) as [w' | err]; [| discriminate].
        cbn [rbind] in *. apply IHe. exact Hw. }
    rewrite (Happ _ _ _ _ Hrun).
    cbn [Better.deliver_all Better.deliver Better._leave Better._frames
         Better._idx Better._cycle_job].
    unfold Better.frame_at. rewrite Him. cbn [rbind]. rewrite cancel_only.
    reflexivity. }
  repeat split; try reflexivity. exact Him.
Qed.

(** ** The progress animation *)

Lemma anim_after_add (n m : nat) :
  Better.anim_after m = Ok (Better.float_zero, 1) ->
  Better.anim_after (n + m) = Better.anim_after n.
Proof.
  intros Hm. induction n as [|n IH]; [exact Hm |].
  cbn [Nat.add Better.anim_after]. rewrite IH. reflexivity.
Qed.

Lemma anim_period : Better.anim_after 200 = Ok (Better.float_zero, 1).
Proof. vm_compute. reflexivity. Qed.

Lemma anim_trace_covers (n : nat) : forall k m,
  (m < n)%nat ->
  In (Better.anim_after (k + m)) (anim_trace n (Better.anim_after k)).
Proof.
  induction n as [|n IH]; intros k m Hm; [lia |].
  cbn [anim_trace]. destruct m as [|m].
  - left. rewrite Nat.add_0_r. reflexivity.
  - right. replace (k + S m)%nat with (S k + m)%nat by lia.
    apply (IH (S k) m). lia.
Qed.

Lemma anim_first_period :
  forallb unit_interval (anim_trace 200 (Better.anim_after 0)) = true.
Proof. vm_compute. reflexivity. Qed.

(** X21. The progress animation is periodic: its value climbs from 0 in
    steps of 0.01, is exactly 1.0 after 100 calls, falls again, and after
    200 calls is exactly 0.0 with the direction up, as at the start, so
    that every 200 calls repeat; the value is always a double from 0 to 1
    and no call raises. *)
Theorem progress_animation_period (n : nat) :
  Better.anim_after (n + 200) = Better.anim_after n
  /\ Better.anim_after 100 = Ok (Better.float_one, -1)
  /\ Better.anim_after 200 = Ok (Better.float_zero, 1)
  /\ unit_interval (Better.anim_after n) = true.
Proof.
  split; [apply anim_after_add, anim_period |].
  split; [vm_compute; reflexivity | split; [apply anim_period |]].
  assert (Hred : forall q r, Better.anim_after (r + q * 200) = Better.anim_after r).
  { induction q as [|q IH]; intros r.
    - rewrite Nat.add_0_r. reflexivity.
    - replace (r + S q * 200)%nat with ((r + q * 200) + 200)%nat by lia.
      rewrite anim_after_add by apply anim_period. apply IH. }
  rewrite (Nat.div_mod_eq n 200).
  replace (200 * (n / 200) + n mod 200)%nat
    with (n mod 200 + (n / 200) * 200)%nat by lia.
  rewrite Hred.
  pose proof anim_first_period as Hall. rewrite forallb_forall in Hall.
  apply Hall. apply (anim_trace_covers 200 0 (n mod 200)).
  apply Nat.mod_upper_bound. lia.
Qed.

(** ** The mock catalog, further *)

Section SourceFacts.
Context {G : Type} `{RandomSource G}.
Variable inv : G -> Prop.
Hypothesis randbelow_in_range :
  forall n g z g', inv g -> randbelow n g = Some (z, g') -> 0 <= z < n /\ inv g'.

Lemma choice_in {A} (seq : list A) g x g' :
  inv g -> choice seq g = Some (x, g') -> In x seq /\ inv g'.
Proof.
  intros Hg. unfold choice, rthen.
  destruct seq as [|a seq']; [discriminate |].
  set (seq := a :: seq') in *.
  destruct (randbelow (len seq) g) as [[i g1] |] eqn:Hr; [| discriminate].
  destruct (randbelow_in_range _ _ _ _ Hg Hr) as [Hi Hg1].
  destruct (i <? 0); [discriminate |].
  destruct (seq !! Z.to_nat i) as [y |] eqn:Hy; [| discriminate].
  intros E. injection E as <- <-. split; [| exact Hg1].
  apply list_elem_of_In. eapply list_elem_of_lookup_2. exact Hy.
Qed.

Lemma randint_in (a b : Z) g z g' :
  inv g -> randint a b g = Some (z, g') -> a <= z <= b /\ inv g'.
Proof.
  intros Hg. unfold randint, rthen, rret.
  destruct (b + 1 - a >? 0); [| discriminate].
  destruct (randbelow (b + 1 - a) g) as [[r g1] |] eqn:Hr; [| discriminate].
  destruct (randbelow_in_range _ _ _ _ Hg Hr) as [Hi Hg1].
  intros E. injection E as <- <-. split; [lia | exact Hg1].
Qed.

Lemma format_02d_length n : 0 <= n <= 59 -> len (format_02d n) = 2.
Proof.
  intros Hn. apply Z.eqb_eq. apply (range_covers duration_ok 60).
  - vm_compute. reflexivity.
  - lia.
Qed.

Lemma draw_video_in (titles : list pystr) (i : Z) g v g' :
  inv g -> draw_video titles i g = Some (v, g') ->
  video_in_range titles v /\ id v = py "vid_" ++ str_int i /\ inv g'.
Proof.
  intros Hg. unfold draw_video, rthen, rret.
  destruct (choice titles g) as [[t g1] |] eqn:E1; [| discriminate].
  destruct (choice_in _ _ _ _ Hg E1) as [Ht Hg1].
  destruct (choice _channels g1) as [[c g2] |] eqn:E2; [| discriminate].
  destruct (choice_in _ _ _ _ Hg1 E2) as [Hc Hg2].
  destruct (randint 1000 2500000 g2) as [[vw g3] |] eqn:E3; [| discriminate].
  destruct (randint_in _ _ _ _ _ Hg2 E3) as [Hvw Hg3].
  destruct (randint 0 900 g3) as [[ag g4] |] eqn:E4; [| discriminate].
  destruct (randint_in _ _ _ _ _ Hg3 E4) as [Hag Hg4].
  destruct (randint 1 2 g4) as [[hh g5] |] eqn:E5; [| discriminate].
  destruct (randint_in _ _ _ _ _ Hg4 E5) as [Hhh Hg5].
  destruct (randint 0 59 g5) as [[mm g6] |] eqn:E6; [| discriminate].
  destruct (randint_in _ _ _ _ _ Hg5 E6) as [Hmm Hg6].
  destruct (randint 0 59 g6) as [[ss g7] |] eqn:E7; [| discriminate].
  destruct (randint_in _ _ _ _ _ Hg6 E7) as [Hss Hg7].
  destruct (choice _palette g7) as [[col g8] |] eqn:E8; [| discriminate].
  destruct (choice_in _ _ _ _ Hg7 E8) as [Hcol Hg8].
  intros E. injection E as <- <-.
  split; [| split; [reflexivity | exact Hg8]].
  unfold video_in_range. cbn [title channel views age_days duration color].
  split; [exact Ht | split; [exact Hc | split; [lia | split; [lia |]]]].
  split; [| exact Hcol].
  pose proof (format_02d_length mm Hmm) as Lm.
  pose proof (format_02d_length ss Hss) as Ls.
  assert (Lh : len (str_int hh) = 1).
  { assert (hh = 1 \/ hh = 2) as [-> | ->] by lia; reflexivity. }
  unfold len in *. repeat (rewrite length_app || cbn [length]). lia.
Qed.

Lemma append_videos_in (indices : list Z) : forall videos g result g',
  inv g -> Forall (video_in_range Gui._titles) videos ->
  Gui.append_videos videos indices g = Some (result, g') ->
  Forall (video_in_range Gui._titles) result
  /\ List.map id result
     = List.map id videos
       ++ List.map (fun i => py "vid_" ++ str_int i) indices
  /\ inv g'.
Proof.
  induction indices as [|i rest IH]; intros videos g result g' Hg Hvs.
  - cbn. unfold rret. intros E. injection E as <- <-.
    rewrite app_nil_r. auto.
  - cbn [Gui.append_videos]. unfold rthen at 1.
    destruct (draw_video Gui._titles i g) as [[v g1] |] eqn:Ev; [| discriminate].
    destruct (draw_video_in _ _ _ _ _ Hg Ev) as (Hv & Hid & Hg1).
    intros E.
    assert (Hvs' : Forall (video_in_range Gui._titles) (videos ++ [v])).
    { apply Forall_app. split; [exact Hvs |].
      constructor; [exact Hv | constructor]. }
    destruct (IH _ _ _ _ Hg1 Hvs' E) as (Hall & Hids & Hg').
    split; [exact Hall |]. split; [| exact Hg'].
    rewrite Hids, map_app, <- app_assoc. cbn [List.map app].
    rewrite Hid. reflexivity.
Qed.

Lemma comprehension_in (indices : list Z) : forall g result g',
  inv g ->
  Better.comprehension indices g = Some (result, g') ->
  Forall (video_in_range Better._titles) result
  /\ List.map id result = List.map (fun i => py "vid_" ++ str_int i) indices
  /\ inv g'.
Proof.
  induction indices as [|i rest IH]; intros g result g' Hg.
  - cbn. unfold rret. intros E. injection E as <- <-. auto.
  - cbn [Better.comprehension]. unfold rthen, rret.
    destruct (draw_video Better._titles i g) as [[v g1] |] eqn:Ev;
      [| discriminate].
    destruct (draw_video_in _ _ _ _ _ Hg Ev) as (Hv & Hid & Hg1).
    destruct (Better.comprehension rest g1) as [[vs g2] |] eqn:Evs;
      [| discriminate].
    destruct (IH _ _ _ Hg1 Evs) as (Hall & Hids & Hg2).
    intros E. injection E as <- <-.
    split; [constructor; assumption |]. split; [| exact Hg2].
    cbn [List.map]. rewrite Hid, Hids. reflexivity.
Qed.

End SourceFacts.

(** The Mersenne Twister never holds or yields a negative word. *)
Section TwisterFacts.

Lemma u32_nonneg x : 0 <= MT.u32 x.
Proof. unfold MT.u32. apply Z.mod_pos_bound. reflexivity. Qed.

Lemma word_nonneg st i : Forall (fun w => 0 <= w) st -> 0 <= MT.word st i.
Proof.
  intros Hst. unfold MT.word. revert i.
  induction Hst as [|w st Hw _ IH]; intros [|i]; simpl; try lia; auto.
Qed.

Lemma init_genrand_ok s : Forall (fun w => 0 <= w) (MT.init_genrand s).
Proof.
  unfold MT.init_genrand.
  generalize (seq 1 (MT.N - 1)).
  assert (H0 : Forall (fun w => 0 <= w) [MT.u32 s])
    by (repeat constructor; apply u32_nonneg).
  revert H0. generalize [MT.u32 s].
  intros st Hst l. revert st Hst.
  induction l as [|mti l IH]; intros st Hst; simpl; [exact Hst |].
  apply IH. apply Forall_app. split; [exact Hst |].
  repeat constructor. apply u32_nonneg.
Qed.

Lemma mix1_ok init_key acc n :
  Forall (fun w => 0 <= w) (fst (fst acc)) ->
  Forall (fun w => 0 <= w) (fst (fst (MT.mix1 init_key acc n))).
Proof.
  destruct acc as [[st i] j]. cbn [fst]. intros Hst. unfold MT.mix1.
  set (v := MT.u32 _).
  assert (Hins : Forall (fun w => 0 <= w) (<[i := v]> st))
    by (apply Forall_insert; [exact Hst | apply u32_nonneg]).
  destruct (MT.N <=? S i)%nat; cbn [fst].
  - destruct (length init_key <=? S j)%nat; cbn [fst];
      (apply Forall_insert; [exact Hins | apply word_nonneg; exact Hins]).
  - destruct (length init_key <=? S j)%nat; exact Hins.
Qed.

Lemma mix2_ok acc n :
  Forall (fun w => 0 <= w) (fst acc) ->
  Forall (fun w => 0 <= w) (fst (MT.mix2 acc n)).
Proof.
  destruct acc as [st i]. cbn [fst]. intros Hst. unfold MT.mix2.
  set (v := MT.u32 _).
  assert (Hins : Forall (fun w => 0 <= w) (<[i := v]> st))
    by (apply Forall_insert; [exact Hst | apply u32_nonneg]).
  destruct (MT.N <=? S i)%nat; cbn [fst]; [| exact Hins].
  apply Forall_insert; [exact Hins | apply word_nonneg; exact Hins].
Qed.

Lemma fold_ok {A B} (f : A -> B -> A) (P : A -> Prop) (l : list B) :
  (forall a b, P a -> P (f a b)) -> forall a, P a -> P (fold_left f l a).
Proof.
  intros Hf. induction l as [|b l IH]; intros a Ha; simpl; [exact Ha |].
  apply IH, Hf, Ha.
Qed.

Lemma init_by_array_ok init_key : mt_ok (MT.init_by_array init_key).
Proof.
  unfold MT.init_by_array, mt_ok.
  pose proof (fold_ok (MT.mix1 init_key)
                (fun acc => Forall (fun w => 0 <= w) (fst (fst acc)))
                (seq 0 (Nat.max MT.N (length init_key)))
                (fun a b => mix1_ok init_key a b)
                (MT.init_genrand 19650218, 1%nat, 0%nat)
                (init_genrand_ok _)) as H1.
  destruct (fold_left (MT.mix1 init_key) _ _) as [[st i] j]. cbn [fst] in H1.
  pose proof (fold_ok MT.mix2
                (fun acc => Forall (fun w => 0 <= w) (fst acc))
                (seq 0 (MT.N - 1)) mix2_ok (st, i) H1) as H2.
  destruct (fold_left MT.mix2 _ _) as [st' i']. cbn [fst MT.mt] in *.
  apply Forall_insert; [exact H2 | discriminate].
Qed.

Lemma seed_ok a : mt_ok (MT.seed a).
Proof. apply init_by_array_ok. Qed.

Lemma twist_word_ok st kk :
  Forall (fun w => 0 <= w) st -> Forall (fun w => 0 <= w) (MT.twist_word st kk).
Proof.
  intros Hst. unfold MT.twist_word.
  apply Forall_insert; [exact Hst |].
  apply Z.lxor_nonneg. split; intros _.
  - destruct (Z.odd _); [discriminate | lia].
  - apply Z.lxor_nonneg. split; intros _.
    + apply Z.shiftr_nonneg. apply Z.lor_nonneg. split.
      * apply Z.land_nonneg. left. apply word_nonneg. exact Hst.
      * apply Z.land_nonneg. left. apply word_nonneg. exact Hst.
    + apply word_nonneg. exact Hst.
Qed.

Lemma twist_ok st :
  Forall (fun w => 0 <= w) st -> Forall (fun w => 0 <= w) (MT.twist st).
Proof.
  unfold MT.twist. apply fold_ok. intros a b. apply twist_word_ok.
Qed.

Lemma temper_nonneg y : 0 <= y -> 0 <= MT.temper y.
Proof.
  intros Hy. unfold MT.temper.
  assert (Hx : forall a b, 0 <= a -> 0 <= b -> 0 <= Z.lxor a b)
    by (intros a b Ha Hb; apply Z.lxor_nonneg; tauto).
  assert (Hl : forall a b, 0 <= b -> 0 <= Z.land a b)
    by (intros a b Hb; apply Z.land_nonneg; right; exact Hb).
  assert (Hs : forall a n, 0 <= a -> 0 <= Z.shiftr a n)
    by (intros a n Ha; apply Z.shiftr_nonneg; exact Ha).
  cbv zeta. apply Hx; [| apply Hs].
  - apply Hx; [apply Hx; [apply Hx; [exact Hy | apply Hs; exact Hy] |
                          apply Hl; discriminate] | apply Hl; discriminate].
  - apply Hx; [apply Hx; [apply Hx; [exact Hy | apply Hs; exact Hy] |
                          apply Hl; discriminate] | apply Hl; discriminate].
Qed.

Lemma genrand_uint32_ok g :
  mt_ok g ->
  0 <= fst (MT.genrand_uint32 g) /\ mt_ok (snd (MT.genrand_uint32 g)).
Proof.
  intros Hg. unfold MT.genrand_uint32, mt_ok in *.
  destruct (MT.N <=? MT.index g)%nat; cbn [fst snd MT.mt].
  - split; [apply temper_nonneg, word_nonneg, twist_ok, Hg | apply twist_ok, Hg].
  - split; [apply temper_nonneg, word_nonneg, Hg | exact Hg].
Qed.

Lemma getrandbits_words_ok words : forall k g,
  mt_ok g ->
  0 <= fst (MT.getrandbits_words words k g)
  /\ mt_ok (snd (MT.getrandbits_words words k g)).
Proof.
  induction words as [|words IH]; intros k g Hg; cbn [MT.getrandbits_words].
  - split; [cbn; lia | exact Hg].
  - destruct (genrand_uint32_ok g Hg) as [Hr Hg1].
    destruct (MT.genrand_uint32 g) as [r g1]. cbn [fst snd] in *.
    destruct (IH (k - 32) g1 Hg1) as [Hhi Hg2].
    destruct (MT.getrandbits_words words (k - 32) g1) as [hi g2].
    cbn [fst snd] in *. split; [| exact Hg2].
    assert (0 <= (if k <? 32 then Z.shiftr r (32 - k) else r)).
    { destruct (k <? 32); [apply Z.shiftr_nonneg |]; exact Hr. }
    nia.
Qed.

Lemma getrandbits_ok k g :
  mt_ok g ->
  0 <= fst (MT.getrandbits k g) /\ mt_ok (snd (MT.getrandbits k g)).
Proof.
  intros Hg. unfold MT.getrandbits. destruct (k <=? 32).
  - destruct (genrand_uint32_ok g Hg) as [Hr Hg1].
    destruct (MT.genrand_uint32 g) as [r g1]. cbn [fst snd] in *.
    split; [apply Z.shiftr_nonneg; exact Hr | exact Hg1].
  - apply getrandbits_words_ok. exact Hg.
Qed.

Lemma reject_ok rounds : forall n k r g z g',
  mt_ok g -> 0 <= r ->
  MT.reject rounds n k r g = Some (z, g') -> 0 <= z < n /\ mt_ok g'.
Proof.
  induction rounds as [|rounds IH]; intros n k r g z g' Hg Hr;
    cbn [MT.reject]; destruct (Z.ltb_spec r n) as [Hlt | Hge].
  - intros E. injection E as <- <-. split; [lia | exact Hg].
  - discriminate.
  - intros E. injection E as <- <-. split; [lia | exact Hg].
  - destruct (getrandbits_ok k g Hg) as [Hr1 Hg1].
    destruct (MT.getrandbits k g) as [r1 g1]. cbn [fst snd] in *.
    apply IH; assumption.
Qed.

Lemma randbelow_ok n g z g' :
  mt_ok g -> randbelow n g = Some (z, g') -> 0 <= z < n /\ mt_ok g'.
Proof.
  intros Hg. unfold randbelow, mersenne_source, MT._randbelow.
  destruct (n <=? 0); [discriminate |].
  destruct (getrandbits_ok (MT.bit_length n) g Hg) as [Hr1 Hg1].
  destruct (MT.getrandbits (MT.bit_length n) g) as [r1 g1]. cbn [fst snd] in *.
  apply reject_ok; assumption.
Qed.

End TwisterFacts.

Lemma palette_ok (c : rgb) :
  In c _palette ->
  let '(r, g, b) := c in
  channel_in_range r /\ channel_in_range g /\ channel_in_range b.
Proof.
  unfold _palette, channel_in_range. simpl.
  intros [<- | [<- | [<- | [<- | [<- | [<- | [<- | []]]]]]]]; lia.
Qed.

Lemma video_in_range_ok titles v : video_in_range titles v -> video_ok v.
Proof.
  intros (_ & _ & Hviews & _ & _ & Hcol). unfold video_ok.
  pose proof (palette_ok _ Hcol) as Hc.
  destruct (color v) as [[r g] b]. destruct Hc as (Hr & Hg & Hb).
  split; [exact Hr | split; [exact Hg | split; [exact Hb |]]].
  split; [lia |].
  apply Z.le_lt_trans with 2500000; [lia | reflexivity].
Qed.

(** X22. Whatever the seed and the count, every record of a catalog that
    was built has a title of the pool, one of the six channels, between
    1,000 and 2,500,000 views, an age between 0 and 900 days, a duration of
    seven characters and a colour of the palette; the records are as many
    as asked for and their ids are "vid_0", "vid_1", ... in order.  This
    holds in both files. *)
Theorem catalog_in_range (seed : Z) (count : nat) (env gui better : globals) :
  Gui.build_catalog seed count env = Some gui ->
  Better.build_catalog seed count env = Some better ->
  Forall (video_in_range Gui._titles) (MOCK_VIDEOS gui)
  /\ Forall (video_in_range Better._titles) (MOCK_VIDEOS better)
  /\ List.map id (MOCK_VIDEOS gui)
     = List.map (fun i => py "vid_" ++ str_int i) (range count)
  /\ List.map id (MOCK_VIDEOS better)
     = List.map (fun i => py "vid_" ++ str_int i) (range count)
  /\ length (MOCK_VIDEOS gui) = count
  /\ length (MOCK_VIDEOS better) = count.
Proof.
  unfold Gui.build_catalog, Better.build_catalog. cbn [_random MOCK_VIDEOS].
  destruct (Gui.append_videos [] (range count) (MT.seed seed))
    as [[gv gg] |] eqn:Eg; [| discriminate].
  destruct (Better.comprehension (range count) (MT.seed seed))
    as [[bv bg] |] eqn:Eb; [| discriminate].
  intros E1 E2. injection E1 as <-. injection E2 as <-. cbn [MOCK_VIDEOS].
  destruct (append_videos_in mt_ok randbelow_ok _ _ _ _ _ (seed_ok seed)
              (List.Forall_nil _) Eg) as (Hg & Hgid & _).
  destruct (comprehension_in mt_ok randbelow_ok _ _ _ _ (seed_ok seed) Eb)
    as (Hb & Hbid & _).
  cbn [List.map app] in Hgid.
  split; [exact Hg | split; [exact Hb | split; [exact Hgid |]]].
  split; [exact Hbid |].
  split.
  - rewrite <- (length_map id), Hgid, length_map. apply range_length.
  - rewrite <- (length_map id), Hbid, length_map. apply range_length.
Qed.

Lemma catalog_in_range_witness :
  exists gui better,
    Gui.build_catalog 42 24 blank_globals = Some gui
    /\ Better.build_catalog 42 24 blank_globals = Some better
    /\ Forall (video_in_range Gui._titles) (MOCK_VIDEOS gui)
    /\ Forall (video_in_range Better._titles) (MOCK_VIDEOS better)
    /\ List.map id (MOCK_VIDEOS gui)
       = List.map (fun i => py "vid_" ++ str_int i) (range 24)
    /\ List.map id (MOCK_VIDEOS better)
       = List.map (fun i => py "vid_" ++ str_int i) (range 24)
    /\ length (MOCK_VIDEOS gui) = 24%nat
    /\ length (MOCK_VIDEOS better) = 24%nat.
Proof.
  destruct (Gui.build_catalog 42 24 blank_globals) as [gui |] eqn:Eg;
    [| vm_compute in Eg; discriminate].
  destruct (Better.build_catalog 42 24 blank_globals) as [better |] eqn:Eb;
    [| vm_compute in Eb; discriminate].
  exists gui, better.
  split; [reflexivity | split; [reflexivity |]].
  apply (catalog_in_range 42 24 blank_globals gui better Eg Eb).
Defined.

(** ** The two catalogs, side by side *)

Section Correspondence.
Context {G : Type} `{RandomSource G}.

Lemma mistitled_pool (i : nat) (t : pystr) :
  Gui._titles !! i = Some t -> Better._titles !! i = Some (mistitled t).
Proof.
  do 10 (destruct i as [|i]; [intros E; injection E as <-; reflexivity |]).
  discriminate.
Qed.

Lemma choice_titles g :
  choice Better._titles g
  = option_map (fun r => (mistitled (fst r), snd r)) (choice Gui._titles g).
Proof.
  unfold choice, rthen.
  change (len Better._titles) with (len Gui._titles).
  cbn [Gui._titles Better._titles titles_with].
  fold Gui._titles. fold Better._titles.
  change (titles_with [8212%N]) with Gui._titles.
  change (titles_with [8218%N; 196%N; 238%N]) with Better._titles.
  destruct (randbelow (len Gui._titles) g) as [[i g1] |]; [| reflexivity].
  destruct (i <? 0); [reflexivity |].
  destruct (Gui._titles !! Z.to_nat i) as [t |] eqn:Et.
  - rewrite (mistitled_pool _ _ Et). reflexivity.
  - apply lookup_ge_None in Et.
    assert (En : Better._titles !! Z.to_nat i = None)
      by (apply lookup_ge_None; exact Et).
    rewrite En. reflexivity.
Qed.

Lemma draw_video_titles i g :
  draw_video Better._titles i g
  = option_map (fun r => (mistitled_video (fst r), snd r))
      (draw_video Gui._titles i g).
Proof.
  unfold draw_video, rthen at 1 9. rewrite choice_titles.
  destruct (choice Gui._titles g) as [[t g1] |]; [| reflexivity].
  cbn [option_map fst snd]. unfold rthen, rret.
  repeat match goal with
         | |- context [match ?m with Some _ => _ | None => None end] =>
             lazymatch m with
             | choice _ _ => destruct m as [[? ?] |]; [| reflexivity]
             | randint _ _ _ => destruct m as [[? ?] |]; [| reflexivity]
             end
         end.
  reflexivity.
Qed.

Lemma generate_corresponds (indices : list Z) : forall acc g,
  option_map (fun r => (List.map mistitled_video (fst r), snd r))
    (Gui.append_videos acc indices g)
  = option_map (fun r => (List.map mistitled_video acc ++ fst r, snd r))
      (Better.comprehension indices g).
Proof.
  induction indices as [|i rest IH]; intros acc g.
  - cbn. rewrite app_nil_r. reflexivity.
  - cbn [Gui.append_videos Better.comprehension]. unfold rthen at 1 2.
    rewrite draw_video_titles.
    destruct (draw_video Gui._titles i g) as [[v g1] |]; [| reflexivity].
    cbn [option_map fst snd]. rewrite IH. unfold rthen, rret.
    destruct (Better.comprehension rest g1) as [[vs g2] |]; [| reflexivity].
    cbn [option_map fst snd]. rewrite map_app, <- app_assoc. reflexivity.
Qed.

End Correspondence.

(** X23. The two files build the same catalog: for every seed and count the
    loop of gui_concept.py and the comprehension of better_gui_concept.py
    draw the same numbers and yield the same records in the same order,
    except that better_gui_concept.py has the third and the tenth title of
    the pool with a misread dash; both fail together when a draw does not
    complete. *)
Theorem catalogs_correspond (seed : Z) (count : nat) (env : globals) :
  option_map (fun e => (List.map mistitled_video (MOCK_VIDEOS e), _random e))
    (Gui.build_catalog seed count env)
  = option_map (fun e => (MOCK_VIDEOS e, _random e))
      (Better.build_catalog seed count env).
Proof.
  unfold Gui.build_catalog, Better.build_catalog. cbn [_random MOCK_VIDEOS].
  pose proof (generate_corresponds (range count) [] (MT.seed seed)) as Hc.
  destruct (Gui.append_videos [] (range count) (MT.seed seed)) as [[gv gg] |];
    destruct (Better.comprehension (range count) (MT.seed seed)) as [[bv bg] |];
    cbn [option_map fst snd List.map app MOCK_VIDEOS _random] in *;
    congruence.
Qed.

(** X24. The application starts: for every seed and count for which the
    catalog is built, filling the home grid from it, in a fresh
    interpreter, never raises and yields one card per record, laid out row
    by row in four columns; this holds in both files. *)
Theorem home_view_of_catalog `{Platform} (seed : Z) (count : nat)
  (env gui better : globals) :
  Gui.build_catalog seed count env = Some gui ->
  Better.build_catalog seed count env = Some better ->
  (exists cards st',
      Gui.HomeView gui initial_state = (Ok cards, st')
      /\ List.map Gui.video cards = MOCK_VIDEOS gui
      /\ length cards = count
      /\ row_major (List.map Gui.cell cards)
      /\ cache_ok RGB st')
  /\ (exists cards st',
         Better.HomeView better initial_state = (Ok cards, st')
         /\ List.map Better.video cards = MOCK_VIDEOS better
         /\ length cards = count
         /\ row_major (List.map Better.cell cards)
         /\ cache_ok RGBA st').
Proof.
  intros Eg Eb.
  assert (Hg : Forall video_ok (MOCK_VIDEOS gui)
               /\ length (MOCK_VIDEOS gui) = count).
  { unfold Gui.build_catalog in Eg. cbn [_random MOCK_VIDEOS] in Eg.
    destruct (Gui.append_videos [] (range count) (MT.seed seed))
      as [[gv gg] |] eqn:E; [| discriminate].
    injection Eg as <-. cbn [MOCK_VIDEOS].
    destruct (append_videos_in mt_ok randbelow_ok _ _ _ _ _ (seed_ok seed)
                (List.Forall_nil _) E) as (Hall & Hid & _).
    split.
    - eapply Forall_impl; [exact Hall |]. apply video_in_range_ok.
    - cbn [List.map app] in Hid.
      rewrite <- (length_map id), Hid, length_map. apply range_length. }
  assert (Hb : Forall video_ok (MOCK_VIDEOS better)
               /\ length (MOCK_VIDEOS better) = count).
  { unfold Better.build_catalog in Eb. cbn [_random MOCK_VIDEOS] in Eb.
    destruct (Better.comprehension (range count) (MT.seed seed))
      as [[bv bg] |] eqn:E; [| discriminate].
    injection Eb as <-. cbn [MOCK_VIDEOS].
    destruct (comprehension_in mt_ok randbelow_ok _ _ _ _ (seed_ok seed) E)
      as (Hall & Hid & _).
    split.
    - eapply Forall_impl; [exact Hall |]. apply video_in_range_ok.
    - rewrite <- (length_map id), Hid, length_map. apply range_length. }
  destruct Hg as [Hg Hgl]. destruct Hb as [Hb Hbl]. split.
  - destruct (gui_populate_from_ok (MOCK_VIDEOS gui) 0 [] initial_state
                (cache_ok_initial RGB) Hg)
      as (cards & st' & Hrun & Hvids & Hcells & Hok & _).
    exists cards, st'.
    split; [exact Hrun | split; [exact Hvids |]].
    split; [rewrite <- Hgl, <- Hvids, length_map; reflexivity |].
    split; [apply row_major_cells; exact Hcells | exact Hok].
  - destruct (better_populate_from_ok (MOCK_VIDEOS better) 0 [] initial_state
                (cache_ok_initial RGBA) Hb)
      as (cards & st' & Hrun & Hvids & Hcells & Hok & _).
    exists cards, st'.
    split; [exact Hrun | split; [exact Hvids |]].
    split; [rewrite <- Hbl, <- Hvids, length_map; reflexivity |].
    split; [apply row_major_cells; exact Hcells | exact Hok].
Qed.

Lemma home_view_of_catalog_witness :
  exists gui better,
    Gui.build_catalog 42 24 blank_globals = Some gui
    /\ Better.build_catalog 42 24 blank_globals = Some better
    /\ (exists cards st',
           Gui.HomeView (H := headless) gui initial_state = (Ok cards, st')
           /\ List.map Gui.video cards = MOCK_VIDEOS gui
           /\ length cards = 24%nat
           /\ row_major (List.map Gui.cell cards)
           /\ cache_ok RGB st')
    /\ (exists cards st',
           Better.HomeView (H := headless) better initial_state = (Ok cards, st')
           /\ List.map Better.video cards = MOCK_VIDEOS better
           /\ length cards = 24%nat
           /\ row_major (List.map Better.cell cards)
           /\ cache_ok RGBA st').
Proof.
  destruct (Gui.build_catalog 42 24 blank_globals) as [gui |] eqn:Eg;
    [| vm_compute in Eg; discriminate].
  destruct (Better.build_catalog 42 24 blank_globals) as [better |] eqn:Eb;
    [| vm_compute in Eb; discriminate].
  exists gui, better.
  split; [reflexivity | split; [reflexivity |]].
  apply (home_view_of_catalog (H := headless) 42 24 blank_globals gui better
           Eg Eb).
Defined.

(** ** Doubles: rounding to nearest *)

Section Rounding.

Lemma Zdigits2_lower m : 0 < m -> 2 ^ (Zdigits2 m - 1) <= m.
Proof.
  intros Hm. destruct m as [|p|p]; try lia. simpl Zdigits2.
  rewrite digits2_pos_size.
  pose proof (Pos.size_le p) as Hsz.
  assert (H2 : 2 ^ Zpos (Pos.size p) <= 2 * Zpos p).
  { change (2 * Zpos p) with (Zpos p~0).
    rewrite <- Pos2Z.inj_pow. apply Pos2Z.pos_le_pos. exact Hsz. }
  replace (Zpos (Pos.size p)) with (1 + (Zpos (Pos.size p) - 1)) in H2 by lia.
  rewrite Z.pow_add_r in H2 by lia. lia.
Qed.

Lemma Zdigits2_mono a b : 0 <= a <= b -> Zdigits2 a <= Zdigits2 b.
Proof.
  intros [Ha Hab]. apply Zdigits2_le; [exact Ha | apply Zdigits2_nonneg |].
  pose proof (Zdigits2_gt b ltac:(lia)). lia.
Qed.

Lemma Zdigits2_ge m k : 0 <= k -> 2 ^ k <= m -> k + 1 <= Zdigits2 m.
Proof.
  intros Hk Hm.
  assert (0 < 2 ^ k) by (apply Z.pow_pos_nonneg; lia).
  pose proof (Zdigits2_gt m ltac:(lia)) as Hgt.
  pose proof (Zdigits2_nonneg m).
  destruct (Z_lt_le_dec (Zdigits2 m) (k + 1)) as [Hlt | Hge]; [| exact Hge].
  exfalso.
  assert (2 ^ Zdigits2 m <= 2 ^ k) by (apply Z.pow_le_mono_r; lia). lia.
Qed.

Lemma locates_exact N : 0 <= N -> locates N 1 (shr_record_of_loc N loc_Exact).
Proof.
  intros HN. unfold locates. cbn [shr_record_of_loc shr_m shr_r shr_s].
  rewrite Z.div_1_r, Z.mod_1_r. repeat split.
Qed.

Lemma locates_new_location N D :
  0 <= N -> 0 < D ->
  locates N D (shr_record_of_loc (N / D) (new_location D (N mod D))).
Proof.
  intros HN HD. pose proof (Z.mod_pos_bound N D HD) as Hr.
  unfold locates, new_location, new_location_even, new_location_odd.
  split; [apply shr_record_of_loc_m |].
  generalize dependent (N mod D). intros k Hr.
  destruct (Z.even D) eqn:Ev.
  - destruct (Z.eqb_spec k 0) as [-> | Hk].
    + cbn [shr_record_of_loc shr_r shr_s].
      rewrite Z.mul_0_r.
      destruct (Z.leb_spec D 0); [lia |]. split; reflexivity.
    + destruct (Z.compare_spec (2 * k) D) as [E | E | E];
        cbn [shr_record_of_loc shr_r shr_s];
        destruct (Z.leb_spec D (2 * k)); destruct (Z.eqb_spec (2 * k) D);
        try lia; split; reflexivity.
  - assert (Hodd : 2 * k <> D).
    { intros E. rewrite <- E in Ev. rewrite Z.even_mul in Ev. discriminate. }
    destruct (Z.eqb_spec k 0) as [-> | Hk].
    + cbn [shr_record_of_loc shr_r shr_s].
      rewrite Z.mul_0_r.
      destruct (Z.leb_spec D 0); [lia |]. split; reflexivity.
    + destruct (Z.compare_spec (2 * k + 1) D) as [E | E | E];
        cbn [shr_record_of_loc shr_r shr_s];
        destruct (Z.leb_spec D (2 * k)); destruct (Z.eqb_spec (2 * k) D);
        try lia; split; reflexivity.
Qed.

Lemma div_mod_double N D :
  0 <= N -> 0 < D ->
  N / (2 * D) = N / D / 2
  /\ N mod (2 * D) = D * (N / D mod 2) + N mod D.
Proof.
  intros HN HD.
  pose proof (Z.div_mod N D ltac:(lia)) as E1.
  pose proof (Z.mod_pos_bound N D HD) as B1.
  pose proof (Z.div_mod (N / D) 2 ltac:(lia)) as E2.
  pose proof (Z.mod_pos_bound (N / D) 2 ltac:(lia)) as B2.
  assert (Hsplit : N = (N / D / 2) * (2 * D) + (D * (N / D mod 2) + N mod D))
    by nia.
  assert (Hrange : 0 <= D * (N / D mod 2) + N mod D < 2 * D) by nia.
  split.
  - symmetry. eapply Z.div_unique_pos; [exact Hrange |].
    etransitivity; [exact Hsplit | ring].
  - symmetry. apply (Z.mod_unique_pos _ _ (N / D / 2)); [exact Hrange |].
    etransitivity; [exact Hsplit | ring].
Qed.

Lemma shr_1_r r : 0 <= shr_m r -> shr_r (shr_1 r) = Z.odd (shr_m r).
Proof.
  destruct r as [m rb sb]. cbn [shr_m]. intros Hm.
  destruct m as [|[p|p|]|p]; try lia; reflexivity.
Qed.

Lemma shr_1_s r : shr_s (shr_1 r) = shr_r r || shr_s r.
Proof. destruct r as [m rb sb]. destruct m as [|[p|p|]|[p|p|]]; reflexivity. Qed.

Lemma locates_shr_1 N D r :
  0 <= N -> 0 < D -> locates N D r -> locates N (2 * D) (shr_1 r).
Proof.
  intros HN HD (Hm & Hr & Hs).
  assert (Hm0 : 0 <= shr_m r) by (rewrite Hm; apply Z.div_pos; lia).
  destruct (div_mod_double N D HN HD) as [Hdiv Hmod].
  pose proof (Z.mod_pos_bound N D HD) as B1.
  pose proof (Z.mod_pos_bound (N / D) 2 ltac:(lia)) as B2.
  unfold locates. rewrite shr_1_m by exact Hm0. rewrite shr_1_r by exact Hm0.
  rewrite shr_1_s, Hr, Hs, Hm, Hdiv, Hmod.
  split; [reflexivity |].
  rewrite (Zmod_odd (N / D)).
  destruct (Z.odd (N / D)).
  - rewrite Z.mul_1_r.
    destruct (Z.leb_spec (2 * D) (2 * (D + N mod D))); [| lia].
    destruct (Z.leb_spec D (2 * (N mod D)));
      destruct (Z.eqb_spec (N mod D) 0);
      destruct (Z.eqb_spec (2 * (N mod D)) D);
      destruct (Z.eqb_spec (D + N mod D) 0);
      destruct (Z.eqb_spec (2 * (D + N mod D)) (2 * D));
      try lia; split; reflexivity.
  - rewrite Z.mul_0_r, Z.add_0_l.
    destruct (Z.leb_spec (2 * D) (2 * (N mod D))); [lia |].
    destruct (Z.leb_spec D (2 * (N mod D)));
      destruct (Z.eqb_spec (N mod D) 0);
      destruct (Z.eqb_spec (2 * (N mod D)) D);
      destruct (Z.eqb_spec (2 * (N mod D)) (2 * D));
      try lia; split; reflexivity.
Qed.

Lemma locates_iter p : forall N D r,
  0 <= N -> 0 < D -> locates N D r ->
  locates N (D * 2 ^ Zpos p) (SpecFloat.iter_pos shr_1 p r).
Proof.
  induction p as [p IH | p IH |]; intros N D r HN HD Hr;
    cbn [SpecFloat.iter_pos].
  - assert (Hpow : 0 < 2 ^ Zpos p) by (apply Z.pow_pos_nonneg; lia).
    rewrite (Pos2Z.inj_xI p).
    replace (D * 2 ^ (2 * Zpos p + 1)) with (2 * D * 2 ^ Zpos p * 2 ^ Zpos p).
    + apply IH; [exact HN | nia |]. apply IH; [exact HN | lia |].
      apply locates_shr_1; assumption.
    + replace (2 * Zpos p + 1) with (1 + Zpos p + Zpos p) by lia.
      rewrite !Z.pow_add_r by lia. rewrite Z.pow_1_r. ring.
  - assert (Hpow : 0 < 2 ^ Zpos p) by (apply Z.pow_pos_nonneg; lia).
    rewrite (Pos2Z.inj_xO p).
    replace (D * 2 ^ (2 * Zpos p)) with (D * 2 ^ Zpos p * 2 ^ Zpos p).
    + apply IH; [exact HN | nia |]. apply IH; assumption.
    + replace (2 * Zpos p) with (Zpos p + Zpos p) by lia.
      rewrite !Z.pow_add_r by lia. ring.
  - rewrite Z.pow_1_r, Z.mul_comm. apply locates_shr_1; assumption.
Qed.

(** Rounding the located quotient to the nearest integer. *)
Lemma round_nearest_even_near N D r :
  0 <= N -> 0 < D -> locates N D r ->
  2 * Z.abs (round_nearest_even (shr_m r) (loc_of_shr_record r) * D - N) <= D.
Proof.
  intros HN HD (Hm & Hr & Hs).
  pose proof (Z.div_mod N D ltac:(lia)) as E1.
  pose proof (Z.mod_pos_bound N D HD) as B1.
  destruct r as [m rb sb]. cbn [shr_m shr_r shr_s] in *. subst m.
  unfold loc_of_shr_record, round_nearest_even.
  destruct (Z.leb_spec D (2 * (N mod D)));
    destruct (Z.eqb_spec (N mod D) 0);
    destruct (Z.eqb_spec (2 * (N mod D)) D);
    subst rb sb; cbn [negb andb]; try lia.
  destruct (Z.even (N / D)); lia.
Qed.

(** The first shift of [binary_round_aux]. *)
Lemma shr_fexp_locates N D mx ex lx :
  0 <= N -> 0 < D -> locates N D (shr_record_of_loc mx lx) ->
  exists r1 n,
    shr_fexp fprec femax mx ex lx = (r1, ex + n)
    /\ 0 <= n /\ locates N (D * 2 ^ n) r1
    /\ ex + n = Z.max ex (fexp fprec femax (Zdigits2 mx + ex))
    /\ fexp fprec femax (Zdigits2 (shr_m r1) + (ex + n)) <= ex + n.
Proof.
  intros HN HD Hloc.
  assert (Hmx : mx = N / D)
    by (destruct Hloc as [Hm _]; rewrite shr_record_of_loc_m in Hm; exact Hm).
  assert (Hmx0 : 0 <= mx) by (rewrite Hmx; apply Z.div_pos; lia).
  unfold shr_fexp, shr.
  destruct (fexp fprec femax (Zdigits2 mx + ex) - ex) as [|p|p] eqn:E.
  - exists (shr_record_of_loc mx lx), 0.
    rewrite Z.add_0_r, Z.pow_0_r, Z.mul_1_r, shr_record_of_loc_m.
    split; [reflexivity | split; [lia | split; [exact Hloc |]]]. lia.
  - exists (SpecFloat.iter_pos shr_1 p (shr_record_of_loc mx lx)), (Zpos p).
    split; [reflexivity | split; [lia | split; [| split; [lia |]]]].
    + apply locates_iter; assumption.
    + rewrite iter_shr_1_m by (rewrite shr_record_of_loc_m; exact Hmx0).
      rewrite shr_record_of_loc_m.
      assert (Hpow : 0 < 2 ^ Zpos p) by (apply Z.pow_pos_nonneg; lia).
      assert (Hq0 : 0 <= mx / 2 ^ Zpos p) by (apply Z.div_pos; lia).
      assert (Hdig : Zdigits2 (mx / 2 ^ Zpos p) + Zpos p <= Z.max (Zdigits2 mx) (Zpos p)).
      { destruct (Z.eq_dec (mx / 2 ^ Zpos p) 0) as [-> | Hne]; [simpl; lia |].
        pose proof (Zdigits2_gt mx Hmx0) as Hgt.
        pose proof (Zdigits2_lower (mx / 2 ^ Zpos p) ltac:(lia)) as Hlow.
        pose proof (Zdigits2_nonneg mx).
        assert (1 <= Zdigits2 (mx / 2 ^ Zpos p)).
        { destruct (mx / 2 ^ Zpos p) as [|q|q]; simpl; lia. }
        assert (Hle : 2 ^ (Zdigits2 (mx / 2 ^ Zpos p) - 1) * 2 ^ Zpos p <= mx).
        { pose proof (Z.mul_div_le mx (2 ^ Zpos p) Hpow). nia. }
        rewrite <- Z.pow_add_r in Hle by lia.
        destruct (Z_le_gt_dec (Zdigits2 (mx / 2 ^ Zpos p) + Zpos p)
                    (Zdigits2 mx)) as [Hok | Hbad]; [lia |].
        exfalso.
        assert (2 ^ Zdigits2 mx
                <= 2 ^ (Zdigits2 (mx / 2 ^ Zpos p) - 1 + Zpos p))
          by (apply Z.pow_le_mono_r; lia).
        lia. }
      unfold fexp, emin, fprec, femax in *. lia.
  - exists (shr_record_of_loc mx lx), 0.
    rewrite Z.add_0_r, Z.pow_0_r, Z.mul_1_r, shr_record_of_loc_m.
    split; [reflexivity | split; [lia | split; [exact Hloc |]]]. lia.
Qed.

(** The second shift of [binary_round_aux] loses nothing. *)
Lemma shr_fexp_carry m1 M e1 :
  0 <= m1 -> m1 <= M <= m1 + 1 ->
  fexp fprec femax (Zdigits2 m1 + e1) <= e1 ->
  exists r2 n2,
    shr_fexp fprec femax M e1 loc_Exact = (r2, e1 + n2)
    /\ 0 <= n2 <= 1 /\ shr_m r2 * 2 ^ n2 = M.
Proof.
  intros Hm1 HM Hcanon. unfold shr_fexp, shr.
  destruct (fexp fprec femax (Zdigits2 M + e1) - e1) as [|p|p] eqn:E.
  - exists (shr_record_of_loc M loc_Exact), 0.
    rewrite Z.add_0_r. cbn. split; [reflexivity | lia].
  - assert (Hdig : Zdigits2 m1 < Zdigits2 M).
    { unfold fexp, emin, fprec, femax in *. lia. }
    assert (HMeq : M = m1 + 1).
    { destruct (Z.eq_dec M m1) as [-> | Hne]; [lia | lia]. }
    pose proof (Zdigits2_gt m1 Hm1) as Hgt.
    pose proof (Zdigits2_nonneg m1) as Hnn.
    pose proof (Zdigits2_lower M ltac:(lia)) as Hlow.
    assert (Hpow2 : 2 ^ Zdigits2 m1 <= 2 ^ (Zdigits2 M - 1))
      by (apply Z.pow_le_mono_r; lia).
    assert (HM2 : M = 2 ^ Zdigits2 m1) by lia.
    assert (HdM : Zdigits2 M = Zdigits2 m1 + 1).
    { apply Z.le_antisymm; [| lia].
      apply Zdigits2_le; [lia | lia |].
      rewrite HM2. apply Z.pow_lt_mono_r; lia. }
    assert (Hp : Zpos p = 1).
    { unfold fexp, emin, fprec, femax in *. lia. }
    assert (Hk : 1 <= Zdigits2 m1).
    { unfold fexp, emin, fprec, femax in *. lia. }
    injection Hp as ->.
    exists (shr_1 (shr_record_of_loc M loc_Exact)), 1.
    split; [reflexivity | split; [lia |]].
    rewrite shr_1_m by (rewrite shr_record_of_loc_m; lia).
    rewrite shr_record_of_loc_m.
    assert (HM3 : M = 2 ^ (Zdigits2 m1 - 1) * 2).
    { rewrite HM2.
      replace (Zdigits2 m1) with (Zdigits2 m1 - 1 + 1) at 1 by lia.
      rewrite Z.pow_add_r by lia. reflexivity. }
    rewrite HM3, Z.div_mul by lia. reflexivity.
  - exists (shr_record_of_loc M loc_Exact), 0.
    rewrite Z.add_0_r. cbn. split; [reflexivity | lia].
Qed.

(** [binary_round_aux] rounds to nearest: the double it returns is within
    half a unit in its last place of the quotient it was given. *)
Lemma binary_round_aux_nearest sx mx ex lx N D m e :
  0 <= N -> 0 < D -> locates N D (shr_record_of_loc mx lx) ->
  binary_round_aux fprec femax sx mx ex lx = S754_finite sx m e ->
  ex <= e <= Z.max ex (fexp fprec femax (Zdigits2 mx + ex)) + 1
  /\ 2 * Z.abs (Zpos m * 2 ^ (e - ex) * D - N) <= D * 2 ^ (e - ex).
Proof.
  intros HN HD Hloc. unfold binary_round_aux.
  destruct (shr_fexp_locates N D mx ex lx HN HD Hloc)
    as (r1 & n & Hs1 & Hn & Hloc1 & He1 & Hcanon).
  rewrite Hs1.
  assert (Hpow : 0 < 2 ^ n) by (apply Z.pow_pos_nonneg; lia).
  pose proof (round_nearest_even_near N (D * 2 ^ n) r1 HN ltac:(nia) Hloc1)
    as Hnear.
  pose proof (round_nearest_even_range (shr_m r1) (loc_of_shr_record r1))
    as Hrange.
  set (M := round_nearest_even (shr_m r1) (loc_of_shr_record r1)) in *.
  assert (Hm1 : 0 <= shr_m r1).
  { destruct Hloc1 as [Hm _]. rewrite Hm. apply Z.div_pos; nia. }
  destruct (shr_fexp_carry (shr_m r1) M (ex + n) Hm1 Hrange Hcanon)
    as (r2 & n2 & Hs2 & Hn2 & Hexact).
  rewrite Hs2.
  destruct (shr_m r2) as [|m2|m2] eqn:Em2; try discriminate.
  destruct (ex + n + n2 <=? femax - fprec); [| discriminate].
  intros E. injection E as <- <-.
  split; [lia |].
  replace (ex + n + n2 - ex) with (n + n2) by lia.
  rewrite Z.pow_add_r by lia.
  assert (Hpow2 : 0 < 2 ^ n2) by (apply Z.pow_pos_nonneg; lia).
  replace (Zpos m2 * (2 ^ n * 2 ^ n2) * D - N)
    with (M * (D * 2 ^ n) - N) by (rewrite <- Hexact; ring).
  nia.
Qed.

(** A product or quotient that needs no rounding is returned as it is. *)
Lemma binary_round_aux_exact sx (mx : positive) ex :
  fexp fprec femax (Zdigits2 (Zpos mx) + ex) <= ex -> ex <= femax - fprec ->
  binary_round_aux fprec femax sx (Zpos mx) ex loc_Exact = S754_finite sx mx ex.
Proof.
  intros Hcanon Hex. unfold binary_round_aux, shr_fexp, shr.
  destruct (fexp fprec femax (Zdigits2 (Zpos mx) + ex) - ex) as [|p|p] eqn:E;
    try lia;
    cbn [shr_record_of_loc shr_m loc_of_shr_record round_nearest_even];
    rewrite E; cbn [shr_m];
    (destruct (Z.leb_spec ex (femax - fprec)); [reflexivity | lia]).
Qed.

End Rounding.

(** ** The view counts, to the nearest tenth *)

Section ViewsAccuracy.

(** The quotient of two positive integers, the first below [2^52] and not
    below the second: the double the division returns is the nearest one. *)
Lemma int_truediv_nearest (v d : Z) :
  0 < d -> d <= v -> v < 2 ^ 52 ->
  exists m e,
    int_truediv v d = Ok (S754_finite false m e)
    /\ e <= Zdigits2 v - Zdigits2 d - 51 /\ e <= 0
    /\ 2 * Z.abs (Zpos m * d - v * 2 ^ (- e)) <= d.
Proof.
  intros Hd Hdv Hv.
  assert (Hv1022 : 0 <= v < 2 ^ 1022).
  { split; [lia |]. eapply Z.lt_trans; [exact Hv |].
    apply Z.pow_lt_mono_r; lia. }
  pose proof (int_truediv_finite v d Hv1022 Hd) as Hfin. clear Hv1022.
  rewrite Hfin.
  destruct v as [|pv|pv]; try lia. destruct d as [|pd|pd]; try lia.
  unfold exact_int, SFdiv, SFdiv_core_binary.
  set (d1 := Zdigits2 (Zpos pv)). set (d2 := Zdigits2 (Zpos pd)).
  assert (Hd1 : 1 <= d1 <= 52).
  { subst d1. split; [simpl; lia |]. apply Zdigits2_le; lia. }
  assert (Hd2 : 1 <= d2 <= d1).
  { subst d1 d2. split; [simpl; lia |]. apply Zdigits2_mono. lia. }
  assert (He' : Z.min (fexp fprec femax (d1 + 0 - (d2 + 0))) (0 - 0)
                = d1 - d2 - 53).
  { unfold fexp, emin, fprec, femax. lia. }
  rewrite He'. clear He'.
  remember (d1 - d2 - 53) as e' eqn:Ee'.
  replace (0 - 0 - e') with (- e') by lia.
  assert (Hs : 0 < - e') by lia.
  destruct (- e') as [|s|s] eqn:Es; try lia.
  rewrite Z.shiftl_mul_pow2 by lia.
  set (N := Zpos pv * 2 ^ Zpos s).
  assert (Hpow : 0 < 2 ^ Zpos s) by (apply Z.pow_pos_nonneg; lia).
  assert (HN : 0 <= N) by (subst N; nia).
  pose proof (Z_div_mod N (Zpos pd) ltac:(lia)) as Hdm.
  destruct (Z.div_eucl N (Zpos pd)) as [q r] eqn:Eqr.
  destruct Hdm as [Hq Hr].
  assert (Hqdiv : q = N / Zpos pd).
  { apply (Z.div_unique_pos N (Zpos pd) q r); [lia | exact Hq]. }
  assert (Hrmod : r = N mod Zpos pd).
  { apply (Z.mod_unique_pos N (Zpos pd) q r); [lia | exact Hq]. }
  pose proof (locates_new_location N (Zpos pd) HN ltac:(lia)) as Hloc.
  rewrite <- Hqdiv, <- Hrmod in Hloc.
  (* the quotient has 53 or 54 digits *)
  pose proof (Zdigits2_gt (Zpos pv) ltac:(lia)) as Hv_hi. fold d1 in Hv_hi.
  pose proof (Zdigits2_lower (Zpos pd) ltac:(lia)) as Hd_lo. fold d2 in Hd_lo.
  assert (Hq0 : 0 <= q) by (rewrite Hqdiv; apply Z.div_pos; lia).
  assert (Hsval : Zpos s = 53 - d1 + d2) by lia.
  assert (Hq54 : q < 2 ^ 54).
  { rewrite Hqdiv. apply Z.div_lt_upper_bound; [lia |].
    assert (E2 : 2 ^ d1 * 2 ^ Zpos s = 2 ^ (d2 - 1) * 2 ^ 54).
    { rewrite <- !Z.pow_add_r by lia. f_equal. lia. }
    assert (0 < 2 ^ 54) by reflexivity.
    subst N. nia. }
  assert (Hdq : Zdigits2 q <= 54) by (apply Zdigits2_le; lia).
  assert (Hround : forall x,
             binary_round_aux fprec femax false q e' (new_location (Zpos pd) r)
             = x ->
             exists m e, x = S754_finite false m e).
  { intros x Ex. unfold binary_round_aux in Ex.
    destruct (shr_fexp_locates N (Zpos pd) q e' (new_location (Zpos pd) r)
                HN ltac:(lia) Hloc)
      as (r1 & n & Hs1 & Hn & Hloc1 & He1 & Hcanon).
    rewrite Hs1 in Ex.
    assert (Hpn : 0 < 2 ^ n) by (apply Z.pow_pos_nonneg; lia).
    pose proof (round_nearest_even_near N (Zpos pd * 2 ^ n) r1 HN
                  ltac:(nia) Hloc1) as Hnear.
    pose proof (round_nearest_even_range (shr_m r1) (loc_of_shr_record r1))
      as Hrange.
    set (M := round_nearest_even (shr_m r1) (loc_of_shr_record r1)) in *.
    assert (Hm1 : 0 <= shr_m r1).
    { destruct Hloc1 as [Hm _]. rewrite Hm. apply Z.div_pos; nia. }
    destruct (shr_fexp_carry (shr_m r1) M (e' + n) Hm1 Hrange Hcanon)
      as (r2 & n2 & Hs2 & Hn2 & Hexact).
    rewrite Hs2 in Ex.
    assert (Hp2 : 0 < 2 ^ n2) by (apply Z.pow_pos_nonneg; lia).
    destruct (shr_m r2) as [|m2|m2] eqn:Em2.
    - (* a zero cannot be the nearest double *)
      exfalso. assert (HM0 : M = 0) by lia. rewrite HM0 in Hnear.
      assert (Hn1 : n <= 1).
      { unfold fexp, emin, fprec, femax in He1. lia. }
      assert (Hpn2 : 2 ^ n <= 2).
      { change 2 with (2 ^ 1) at 2. apply Z.pow_le_mono_r; lia. }
      assert (Hs4 : 4 <= 2 ^ Zpos s).
      { change 4 with (2 ^ 2). apply Z.pow_le_mono_r; lia. }
      subst N. rewrite Z.mul_0_l, Z.sub_0_l, Z.abs_opp in Hnear.
      rewrite Z.abs_eq in Hnear by (apply Z.mul_nonneg_nonneg; lia).
      assert (Zpos pd * 2 ^ n <= Zpos pd * 2)
        by (apply Z.mul_le_mono_nonneg_l; lia).
      assert (Zpos pv * 4 <= Zpos pv * 2 ^ Zpos s)
        by (apply Z.mul_le_mono_nonneg_l; lia).
      lia.
    - destruct (Z.leb_spec (e' + n + n2) (femax - fprec)) as [Hle | Hgt].
      + exists m2, (e' + n + n2). symmetry. exact Ex.
      + exfalso. unfold fexp, emin, fprec, femax in *. lia.
    - exfalso. pose proof (Pos2Z.neg_is_neg m2). nia. }
  destruct (Hround _ eq_refl) as (m & e & Eround).
  cbn [xorb]. rewrite Eround.
  destruct (binary_round_aux_nearest _ q e' _ N (Zpos pd) m e HN ltac:(lia)
              Hloc Eround) as [[Hlo Hhi] Hnear].
  exists m, e. split; [reflexivity |].
  assert (Hebound : e <= e' + 2).
  { unfold fexp, emin, fprec, femax in Hhi. lia. }
  split; [lia | split; [lia |]].
  assert (Hk : 0 < 2 ^ (e - e')) by (apply Z.pow_pos_nonneg; lia).
  assert (Hsplit : 2 ^ Zpos s = 2 ^ (e - e') * 2 ^ (- e)).
  { rewrite <- Z.pow_add_r by lia. f_equal. lia. }
  subst N. rewrite Hsplit in Hnear.
  replace (Zpos m * 2 ^ (e - e') * Zpos pd
           - Zpos pv * (2 ^ (e - e') * 2 ^ (- e)))
    with (2 ^ (e - e') * (Zpos m * Zpos pd - Zpos pv * 2 ^ (- e)))
    in Hnear by ring.
  rewrite Z.abs_mul, (Z.abs_eq (2 ^ (e - e'))) in Hnear by lia.
  nia.
Qed.

End ViewsAccuracy.
Section ViewsTenths.

(** Rounding a quotient to the nearest integer leaves at most one half. *)
Lemma round_half_even_near (a b : Z) :
  0 < b -> 2 * Z.abs (round_half_even a b * b - a) <= b.
Proof.
  intros Hb. unfold round_half_even.
  pose proof (Z.div_mod a b ltac:(lia)) as Hdm.
  pose proof (Z.mod_pos_bound a b Hb) as Hr.
  destruct (Z.compare_spec (2 * (a mod b)) b) as [Heq | Hlt | Hgt].
  - destruct (Z.even (a / b)); nia.
  - nia.
  - nia.
Qed.

(** Two roundings in a row, the first to a double with a fine enough
    grain, stay within half a tenth of the quotient. *)
Lemma tenths_of_nearest (v d : Z) (m : positive) (e : Z) :
  0 < d -> e < 0 -> 10 * d < 2 ^ (- e) ->
  2 * Z.abs (Zpos m * d - v * 2 ^ (- e)) <= d ->
  2 * Z.abs (tenths m e * d - 10 * v) <= d.
Proof.
  intros Hd He Hgrain Hnear. unfold tenths.
  destruct (Z.leb_spec 0 e) as [H0 | _]; [lia |].
  set (P := 2 ^ (- e)) in *.
  assert (HP : 0 < P) by lia.
  pose proof (round_half_even_near (10 * Zpos m) P HP) as Hround.
  set (n := round_half_even (10 * Zpos m) P) in *.
  assert (Hid : P * (n * d - 10 * v)
                = d * (n * P - 10 * Zpos m) + 10 * (Zpos m * d - v * P))
    by ring.
  assert (Hsum : 2 * Z.abs (P * (n * d - 10 * v)) <= d * P + 10 * d).
  { rewrite Hid.
    pose proof (Z.abs_triangle (d * (n * P - 10 * Zpos m))
                  (10 * (Zpos m * d - v * P))) as Htri.
    rewrite !Z.abs_mul in Htri.
    rewrite (Z.abs_eq d), (Z.abs_eq 10) in Htri by lia.
    assert (d * (2 * Z.abs (n * P - 10 * Zpos m)) <= d * P)
      by (apply Z.mul_le_mono_nonneg_l; lia).
    lia. }
  rewrite Z.abs_mul, (Z.abs_eq P) in Hsum by lia.
  remember (Z.abs (n * d - 10 * v)) as t eqn:Et.
  assert (Ht : 0 <= t) by (subst t; apply Z.abs_nonneg).
  clear Et Hid Hround Hnear.
  destruct (Z.le_gt_cases (2 * t) d) as [Hok | Hbad]; [exact Hok |].
  exfalso.
  assert (P * (d + 1) <= P * (2 * t))
    by (apply Z.mul_le_mono_nonneg_l; lia).
  lia.
Qed.

(** X25. From a thousand views up to [2^47], [fmt_views] prints the count in
    thousands (below a million) or in millions, as a number of tenths [n]
    written as [n // 10], a dot and [n % 10], followed by [K views] or
    [M views]; the printed number is at least 1.0 and differs from the exact
    quotient by at most half a tenth, although the quotient is rounded twice
    (to a double, then to one decimal). Both files agree. *)
Theorem fmt_views_nearest_tenth (v : Z) :
  1000 <= v < 2 ^ 47 ->
  exists n,
    Gui.fmt_views v
    = Ok (str_int (n / 10) ++ py "." ++ str_int (n mod 10) ++ views_suffix v)
    /\ Better.fmt_views v
       = Ok (str_int (n / 10) ++ py "." ++ str_int (n mod 10)
                     ++ views_suffix v)
    /\ 10 <= n
    /\ 2 * Z.abs (n * views_scale v - 10 * v) <= views_scale v.
Proof.
  intros [Hlo Hhi].
  assert (H47 : 2 ^ 47 < 2 ^ 52) by (apply Z.pow_lt_mono_r; lia).
  assert (Hd : 0 < views_scale v /\ views_scale v <= v
               /\ Zdigits2 v - Zdigits2 (views_scale v) - 51 <= - 24
               /\ views_scale v <= 1000000).
  { unfold views_scale.
    destruct (Z.leb_spec 1000000 v) as [Hm | Hk].
    - split; [lia | split; [lia | split; [| lia]]].
      assert (Zdigits2 v <= 47) by (apply Zdigits2_le; lia).
      change (Zdigits2 1000000) with 20. lia.
    - split; [lia | split; [lia | split; [| lia]]].
      assert (Zdigits2 v <= 20).
      { apply Zdigits2_le; [lia | lia |].
        change (2 ^ 20) with 1048576. lia. }
      change (Zdigits2 1000) with 10. lia. }
  destruct Hd as (Hd0 & Hdv & Hexp & Hdmax).
  destruct (int_truediv_nearest v (views_scale v) Hd0 Hdv ltac:(lia))
    as (m & e & Hdiv & He & _ & Hnear).
  assert (Hneg : e <= - 24) by lia.
  assert (Hgrain : 10 * views_scale v < 2 ^ (- e)).
  { assert (2 ^ 24 <= 2 ^ (- e)) by (apply Z.pow_le_mono_r; lia).
    change (2 ^ 24) with 16777216 in *. lia. }
  pose proof (tenths_of_nearest v (views_scale v) m e Hd0 ltac:(lia)
                Hgrain Hnear) as Htenths.
  exists (tenths m e).
  assert (Hn : 10 <= tenths m e).
  { destruct (Z.le_gt_cases 10 (tenths m e)) as [Hok | Hbad]; [exact Hok |].
    exfalso.
    assert (tenths m e * views_scale v <= 9 * views_scale v)
      by (apply Z.mul_le_mono_nonneg_r; lia).
    lia. }
  split; [| split; [| split; [exact Hn | exact Htenths]]].
  - unfold Gui.fmt_views, views_suffix, views_scale in *.
    destruct (Z.leb_spec 1000000 v) as [Hm | Hk].
    + replace (v >=? 1000000) with true by (symmetry; apply Z.geb_le; lia).
      rewrite Hdiv. cbn [rbind format_1f]. rewrite <- !app_assoc. reflexivity.
    + replace (v >=? 1000000) with false
        by (symmetry; rewrite Z.geb_leb; apply Z.leb_gt; lia).
      replace (v >=? 1000) with true by (symmetry; apply Z.geb_le; lia).
      rewrite Hdiv. cbn [rbind format_1f]. rewrite <- !app_assoc. reflexivity.
  - unfold Better.fmt_views, views_suffix, views_scale, rmap in *.
    destruct (Z.leb_spec 1000000 v) as [Hm | Hk].
    + replace (v >=? 1000000) with true by (symmetry; apply Z.geb_le; lia).
      rewrite Hdiv. cbn [rbind format_1f]. rewrite <- !app_assoc. reflexivity.
    + replace (v >=? 1000000) with false
        by (symmetry; rewrite Z.geb_leb; apply Z.leb_gt; lia).
      replace (v >=? 1000) with true by (symmetry; apply Z.geb_le; lia).
      rewrite Hdiv. cbn [rbind format_1f]. rewrite <- !app_assoc. reflexivity.
Qed.

Lemma fmt_views_nearest_tenth_witness :
  1000 <= 1150 < 2 ^ 47
  /\ exists n,
       Gui.fmt_views 1150
       = Ok (str_int (n / 10) ++ py "." ++ str_int (n mod 10)
                     ++ views_suffix 1150)
       /\ Better.fmt_views 1150
          = Ok (str_int (n / 10) ++ py "." ++ str_int (n mod 10)
                        ++ views_suffix 1150)
       /\ 10 <= n
       /\ 2 * Z.abs (n * views_scale 1150 - 10 * 1150) <= views_scale 1150.
Proof.
  assert (Hr : 1000 <= 1150 < 2 ^ 47) by (split; [lia | reflexivity]).
  split; [exact Hr | apply (fmt_views_nearest_tenth 1150 Hr)].
Defined.

End ViewsTenths.


(** ** Worked examples *)

Example wrap_demo :
  wrap (py "How to Build a Python GUI Like YouTube") 24
  = py "How to Build a Python GUI" ++ [NL] ++ py "Like YouTube".
Proof. vm_compute. reflexivity. Qed.

Example wrap_demo_long :
  wrap (py "  Supercalifragilistic  b c ") 5
  = [NL] ++ py "Supercalifragilistic".
Proof. vm_compute. reflexivity. Qed.

Example greedy_demo :
  greedy_wrap (py "aa bb cc dd ee ff") 5 = py "aa bb" ++ [NL] ++ py "cc dd".
Proof. vm_compute. reflexivity. Qed.

Example fmt_views_ties :
  List.map Gui.fmt_views [1050; 1150; 1250; 1750; 999949; 999950; 123456789;
                          1050000000000000000000]
  = List.map (fun s => Ok (py s))
      ["1.1K views"; "1.1K views"; "1.2K views"; "1.8K views"; "999.9K views";
       "1000.0K views"; "123.5M views"; "1050000000000000.0M views"]%string.
Proof. vm_compute. reflexivity. Qed.

Example int_truediv_range_edge :
  int_truediv ((2 ^ 1024 - 2 ^ 970) * 1000000 - 1) 1000000
  = Ok (S754_finite false (2 ^ 53 - 1) 971)
  /\ int_truediv ((2 ^ 1024 - 2 ^ 970) * 1000000) 1000000 = Raise OverflowError.
Proof. split; vm_compute; reflexivity. Qed.

Example float_literals :
  float_lit 105 100 = S754_finite false 0x10cccccccccccd (-52)
  /\ float_lit 92 100 = S754_finite false 0x1d70a3d70a3d71 (-53)
  /\ float_lit 16 100 = S754_finite false 0x147ae147ae147b (-55).
Proof. repeat split; vm_compute; reflexivity. Qed.

Example format_02d_demo :
  List.map format_02d [0; 5; 59; 123; -5]
  = List.map py ["00"; "05"; "59"; "123"; "-5"]%string.
Proof. vm_compute. reflexivity. Qed.

Example mt_reference_output :
  fst (MT.genrand_uint32 {| MT.mt := MT.init_genrand 5489; MT.index := MT.N |})
  = 3499211612.
Proof. vm_compute. reflexivity. Qed.

Example mt_seed_42_words :
  let g0 := MT.seed 42 in
  let '(a, g1) := MT.genrand_uint32 g0 in
  let '(b, g2) := MT.genrand_uint32 g1 in
  let '(c, _) := MT.genrand_uint32 g2 in
  (firstn 3 (MT.mt g0), MT.index g0, [a; b; c])
  = ([2147483648; 3564348608; 1266698288], 624%nat,
     [2746317213; 478163327; 107420369]).
Proof. vm_compute. reflexivity. Qed.

Example mt_other_seeds :
  (fst (MT.getrandbits 70 (MT.seed 42)),
   fst (MT.getrandbits 32 (MT.seed (2 ^ 40 + 7))),
   fst (MT.getrandbits 32 (MT.seed 0)),
   fst (MT.getrandbits 32 (MT.seed (-42))))
  = (20500439928067422621, 2635837658, 3626764237, 2746317213).
Proof. vm_compute. reflexivity. Qed.

Example catalog_first_record :
  option_map (fun e => (length (MOCK_VIDEOS e), head (MOCK_VIDEOS e)))
    (Gui.build_catalog 42 24 blank_globals)
  = Some (24%nat,
          Some {| id := py "vid_0";
                  title := py "10 CustomTkinter Tips You Need";
                  channel := py "CodeGarden";
                  views := 1154556;
                  age_days := 250;
                  duration := py "1:08:47";
                  color := (220, 20, 60) |}).
Proof. vm_compute. reflexivity. Qed.

Example catalog_last_record :
  option_map (fun e => last (MOCK_VIDEOS e))
    (Better.build_catalog 42 24 blank_globals)
  = Some (Some {| id := py "vid_23";
                  title := py "Learn PIL in 15 Minutes";
                  channel := py "CodeGarden";
                  views := 1360609;
                  age_days := 500;
                  duration := py "1:07:59";
                  color := (255, 140, 0) |}).
Proof. vm_compute. reflexivity. Qed.
